(** * PulseDelta backend: chain event indexer, oracle resolver, sports adapter

    A shallow embedding of
    - [src/services/external-api/sports.js]  (module [Sports]),
    - [src/services/oracle/resolver.js]      (module [Resolver]),
    - [src/services/blockchain/indexer.js]   (module [Indexer]),
    - [src/middleware/errorHandler.js]       (module [ErrorHandler]),
    - [src/database/migrations/index.js]     (module [Migrations]),
    with the properties of the design document stated over it.

    The collaborators are modelled at their boundary. The RPC client and the
    HTTP client may fail at every call, and what they answer is part of the
    environment. The statements of the services on the projection store, in
    contrast, are taken to be executed: a lost database connection is not
    modelled there, only the violations of the schema's constraints are
    (the unique key of [market_events], the foreign key of
    [external_data]). In the migration runner every statement on the
    tracking table may fail. *)

From Stdlib Require Import ZArith Lia Bool.
From Stdlib Require QArith.
From stdpp Require Import base option list gmap strings sorting pretty.

Set Default Proof Using "Type".

Local Open Scope string_scope.
Local Open Scope list_scope.
Local Open Scope Z_scope.

(** ** JavaScript values used by the services *)

Module JS.

(** Errors are JavaScript [Error] objects; the services tell them apart by
    their message only. The constructors below are the errors the modelled
    code raises itself, [External] is an error raised by a collaborator
    (HTTP client, RPC client) with the given message. *)
Inductive Error : Type :=
| RateLimitExceeded
| ApiRequestFailed (statusText : string)
| NetworkError
| UnsupportedSport (sport : string)
| GameIdMissing
| MarketNotFound (marketId : string)
| MarketAlreadyResolved
| External (msg : string).

Definition message (e : Error) : string :=
  match e with
  | RateLimitExceeded => "Rate limit exceeded. Please try again later."
  | ApiRequestFailed t => "API request failed: " +:+ t
  | NetworkError => "Network error: Unable to reach API"
  | UnsupportedSport s => "Unsupported sport: " +:+ s
  | GameIdMissing => "Game ID not found in market metadata"
  | MarketNotFound m => "Market " +:+ m +:+ " not found"
  | MarketAlreadyResolved => "Market is already resolved"
  | External m => m
  end.

(** The outcome of a call that may throw. *)
Inductive result (A : Type) : Type :=
| Ok (a : A)
| Throw (e : Error).
Arguments Ok {A} a.
Arguments Throw {A} e.

(** [x || d] on numbers: [undefined], [null] and [0] are falsy. *)
Definition num_or (x : option Z) (d : Z) : Z :=
  match x with
  | Some v => if v =? 0 then d else v
  | None => d
  end.

(** Truthiness of an optional string: [undefined] and the empty string are
    falsy. *)
Definition truthy_str (x : option string) : bool :=
  match x with
  | Some s => negb (String.eqb s "")
  | None => false
  end.

(** [x || y] on optional strings. *)
Definition str_or (x y : option string) : option string :=
  if truthy_str x then x else y.

(** [String.prototype.includes]. *)
Fixpoint includes (needle hay : string) : bool :=
  String.prefix needle hay ||
  match hay with
  | EmptyString => false
  | String _ rest => includes needle rest
  end.

(** [String.prototype.toLowerCase] on the ASCII letters. *)
Definition lower_ascii (c : Ascii.ascii) : Ascii.ascii :=
  let n := Ascii.nat_of_ascii c in
  if ((65 <=? n) && (n <=? 90))%nat then Ascii.ascii_of_nat (n + 32) else c.

Fixpoint toLowerCase (s : string) : string :=
  match s with
  | EmptyString => EmptyString
  | String c rest => String (lower_ascii c) (toLowerCase rest)
  end.

End JS.
Import JS.

(** ** The resolution-data provider adapter ([SportsDataService]) *)

Module Sports.

(** The two mutable counters of the service object. *)
Record Limiter : Type := {
  requestCount : Z;
  requestWindowStart : Z
}.

(** [const windowMs = 15 * 60 * 1000] *)
Definition windowMs : Z := 15 * 60 * 1000.

(** [checkRateLimit()]: [now] is [Date.now()], [rateLimit] the configured
    budget. The window reset is kept even when the call then throws. *)
Definition checkRateLimit (rateLimit now : Z) (s : Limiter)
  : Limiter * result unit :=
  let s1 :=
    if now - requestWindowStart s >? windowMs
    then {| requestCount := 0; requestWindowStart := now |}
    else s in
  if requestCount s1 >=? rateLimit
  then (s1, Throw RateLimitExceeded)
  else ({| requestCount := requestCount s1 + 1;
           requestWindowStart := requestWindowStart s1 |}, Ok tt).

(** Provider payload of one game, with the fields [extractGameOutcome]
    reads. Scores, spreads and thresholds are JavaScript numbers holding
    integers, which [>], [>=], [+] and [-] treat exactly. *)
Record GameData : Type := {
  HomeTeamScore : option Z;
  HomeScore : option Z;
  AwayTeamScore : option Z;
  AwayScore : option Z;
  IsClosed : bool;
  Status : option string;
  GameStatus : option string
}.

(** The body of a successful response: one object or an array of them. *)
Inductive Payload : Type :=
| Single (d : GameData)
| Many (ds : list GameData).

(** What [axios.get] does: a body, a response with an error status, no
    response at all, or a failure while setting the request up. *)
Inductive Response : Type :=
| Body (p : Payload)
| StatusError (statusText : string)
| NoResponse
| SetupError (msg : string).

(** [makeRequest(endpoint)]. *)
Definition makeRequest (rateLimit now : Z) (http : string -> Response)
    (endpoint : string) (s : Limiter) : Limiter * result Payload :=
  match checkRateLimit rateLimit now s with
  | (s', Throw e) => (s', Throw e)
  | (s', Ok _) =>
      (s', match http endpoint with
           | Body p => Ok p
           | StatusError t => Throw (ApiRequestFailed t)
           | NoResponse => Throw NetworkError
           | SetupError m => Throw (External m)
           end)
  end.

Inductive GameStatusTag : Type := pending | finished.
Inductive Winner : Type := home | away | draw.

(** The canonical outcome record. *)
Record Outcome : Type := {
  status : GameStatusTag;
  homeScore : Z;
  awayScore : Z;
  winner : option Winner
}.

(** An object without any of the fields: what the field reads see when the
    payload is an empty array. *)
Definition no_fields : GameData :=
  {| HomeTeamScore := None; HomeScore := None; AwayTeamScore := None;
     AwayScore := None; IsClosed := false; Status := None;
     GameStatus := None |}.

Definition is_Final (s : option string) : bool :=
  match s with Some t => String.eqb t "Final" | None => false end.

(** [extractGameOutcome(data, sport)]. *)
Definition extractGameOutcome (p : Payload) : Outcome :=
  let data :=
    match p with
    | Single d => d
    | Many (d :: _) => d
    | Many [] => no_fields
    end in
  let hs := num_or (HomeTeamScore data) (num_or (HomeScore data) 0) in
  let as_ := num_or (AwayTeamScore data) (num_or (AwayScore data) 0) in
  let isFinished :=
    IsClosed data || is_Final (Status data) || is_Final (GameStatus data) in
  if negb isFinished
  then {| status := pending; homeScore := hs; awayScore := as_;
          winner := None |}
  else
    let w := if hs >? as_ then home
             else if as_ >? hs then away
             else draw in
    {| status := finished; homeScore := hs; awayScore := as_;
       winner := Some w |}.

(** The rows of [external_data] (migration 007) of one kind, in the order
    they were inserted: the lookup key, the data and [expires_at]. For the
    game outcomes (data type ['game_outcome']) the key is the [market_id]
    column; for the schedules ([market_id] ['upcoming']) it is the data type
    ['upcoming_<sport>']. The table has no unique constraint besides its
    serial id, so the [ON CONFLICT DO NOTHING] of [cacheData] never applies;
    it has a foreign key from [market_id] to [markets(id)]. *)
Definition Rows (A : Type) : Type := list (string * A * Z).

(** [getCachedData(marketId, dataType)]: the data of the latest row under
    the key with [expires_at > NOW()]. *)
Definition getCachedData {A} (now : Z) (key : string) (rows : Rows A)
  : option A :=
  (fun r => r.1.2) <$> last (filter (fun r => r.1.1 = key ∧ now < r.2) rows).

(** [cacheData(marketId, dataType, data, ttlMinutes)]. [referenced] tells
    whether [markets] has a row whose id is the [marketId] given: without
    one the insert violates the foreign key, which [cacheData] catches and
    logs, and nothing is stored. *)
Definition cacheData {A} (referenced : bool) (now : Z) (key : string)
    (data : A) (ttlMinutes : Z) (rows : Rows A) : Rows A :=
  if referenced then rows ++ [(key, data, now + ttlMinutes * 60 * 1000)]
  else rows.

(** The state the service works on: the counters of the service object and
    its rows of [external_data]. *)
Record Adapter : Type := {
  limiter : Limiter;
  outcomeRows : Rows Outcome;
  scheduleRows : Rows Payload
}.

(** [getGameOutcome(gameId, sport)]. [isMarket] tells which ids the
    [markets] table holds (for the foreign key of the cache write). *)
Definition getGameOutcome (rateLimit now : Z) (http : string -> Response)
    (isMarket : string -> bool) (gameId sport : string) (s : Adapter)
  : Adapter * result Outcome :=
  match getCachedData now gameId (outcomeRows s) with
  | Some o => (s, Ok o)
  | None =>
      let sp := toLowerCase sport in
      let fetch endpoint :=
        match makeRequest rateLimit now http endpoint (limiter s) with
        | (l', Ok p) =>
            let outcome := extractGameOutcome p in
            ({| limiter := l';
                outcomeRows := cacheData (isMarket gameId) now gameId outcome
                                 1440 (outcomeRows s);
                scheduleRows := scheduleRows s |}, Ok outcome)
        | (l', Throw e) =>
            ({| limiter := l'; outcomeRows := outcomeRows s;
                scheduleRows := scheduleRows s |}, Throw e)
        end in
      if String.eqb sp "nfl" then fetch ("/nfl/scores/json/Scores/" +:+ gameId)
      else if String.eqb sp "nba" then fetch ("/nba/scores/json/Game/" +:+ gameId)
      else if String.eqb sp "mlb" then fetch ("/mlb/scores/json/Game/" +:+ gameId)
      else (s, Throw (UnsupportedSport sport))
  end.

(** The free-form resolution metadata of a market. *)
Record Metadata : Type := {
  gameId : option string;
  sport : option string;
  outcomeType : option string;
  spread : option Z;
  threshold : option Z
}.

(** What [resolveMarket] returns: [{resolved: false, reason}] or
    [{resolved: true, winningOutcome, outcome}], where [winningOutcome]
    may still be [null]. *)
Inductive Resolution : Type :=
| NotResolved (reason : string)
| Resolved (winningOutcome : option Z) (outcome : Outcome).

Definition resolved (r : Resolution) : bool :=
  match r with NotResolved _ => false | Resolved _ _ => true end.

Definition is_mode (m : option string) (name : string) : bool :=
  match m with Some t => String.eqb t name | None => false end.

(** The mapping from the canonical outcome to the winning index, the
    if/else-if chain of [resolveMarket]. *)
Definition mapOutcome (md : Metadata) (o : Outcome) : option Z :=
  if is_mode (outcomeType md) "winner" then
    match winner o with
    | Some home => Some 0
    | Some away => Some 1
    | _ => Some 2
    end
  else if is_mode (outcomeType md) "spread" then
    let spread := num_or (spread md) 0 in
    let actualSpread := homeScore o - awayScore o in
    Some (if actualSpread >=? spread then 0 else 1)
  else if is_mode (outcomeType md) "over_under" then
    let total := homeScore o + awayScore o in
    let threshold := num_or (threshold md) 0 in
    Some (if total >? threshold then 0 else 1)
  else None.

Definition empty_metadata : Metadata :=
  {| gameId := None; sport := None; outcomeType := None; spread := None;
     threshold := None |}.

(** [resolveMarket(marketId, marketData)]; [metadata] is
    [marketData.metadata], absent when the market has none. *)
Definition resolveMarket (rateLimit now : Z) (http : string -> Response)
    (isMarket : string -> bool) (metadata : option Metadata)
    (s : Adapter) : Adapter * result Resolution :=
  let md := default empty_metadata metadata in
  if negb (truthy_str (gameId md)) then (s, Throw GameIdMissing)
  else
    let g := default "" (gameId md) in
    let sp := default "nfl" (str_or (sport md) (Some "nfl")) in
    match getGameOutcome rateLimit now http isMarket g sp s with
    | (s', Throw e) => (s', Throw e)
    | (s', Ok outcome) =>
        match status outcome with
        | pending => (s', Ok (NotResolved "Game not finished yet"))
        | finished => (s', Ok (Resolved (mapOutcome md outcome) outcome))
        end
    end.

(** The sports [getGameOutcome] has a case for. *)
Definition supported (sp : string) : bool :=
  String.eqb (toLowerCase sp) "nfl" || String.eqb (toLowerCase sp) "nba"
  || String.eqb (toLowerCase sp) "mlb".

(** A sequence of calls of [checkRateLimit], one at each of the given
    times, and what each of them ended with. *)
Fixpoint requests (rateLimit : Z) (times : list Z) (s : Limiter)
  : Limiter * list (result unit) :=
  match times with
  | [] => (s, [])
  | now :: rest =>
      let '(s1, r) := checkRateLimit rateLimit now s in
      let '(s2, rs) := requests rateLimit rest s1 in
      (s2, r :: rs)
  end.

(** [getUpcomingGames(sport, days)]. The cache key is built from the sport
    as given, the endpoint from the sport in lower case; the cache row is
    written under [market_id] ['upcoming']. The schedule is handed on as the
    provider sent it. *)
Definition getUpcomingGames (rateLimit now : Z) (http : string -> Response)
    (isMarket : string -> bool) (sport : string) (days : Z) (s : Adapter)
  : Adapter * result Payload :=
  match getCachedData now ("upcoming_" +:+ sport) (scheduleRows s) with
  | Some data => (s, Ok data)
  | None =>
      let sp := toLowerCase sport in
      let fetch endpoint :=
        match makeRequest rateLimit now http endpoint (limiter s) with
        | (l', Ok data) =>
            ({| limiter := l'; outcomeRows := outcomeRows s;
                scheduleRows := cacheData (isMarket "upcoming") now
                                  ("upcoming_" +:+ sport) data 60
                                  (scheduleRows s) |}, Ok data)
        | (l', Throw e) =>
            ({| limiter := l'; outcomeRows := outcomeRows s;
                scheduleRows := scheduleRows s |}, Throw e)
        end in
      if String.eqb sp "nfl"
      then fetch ("/nfl/scores/json/Schedules/" +:+ pretty days)
      else if String.eqb sp "nba"
      then fetch ("/nba/scores/json/Schedules/" +:+ pretty days)
      else if String.eqb sp "mlb"
      then fetch ("/mlb/scores/json/Schedules/" +:+ pretty days)
      else (s, Throw (UnsupportedSport sport))
  end.

(** A service that has made no request and holds no cache rows. *)
Definition idle : Adapter :=
  {| limiter := {| requestCount := 0; requestWindowStart := 0 |};
     outcomeRows := []; scheduleRows := [] |}.

End Sports.

(** ** The projection store

    The model classes ([Market], [MarketEvent], [MarketHistory], [User]) are
    thin wrappers over SQL tables; the tables are modelled as finite maps
    (primary key) or row lists (serial id), the operations after the design
    document's store contract (section 6) and the migrations. *)

Module Store.

(** A row of [markets], as the [Market] model hands it out. *)
Record Market : Type := {
  id : string;
  status : string;
  outcomeCount : nat;
  resolutionTime : Z;
  metadata : option Sports.Metadata;
  totalVolume : Z;
  totalLiquidity : Z
}.

(** A row of [market_events] (migration 004); the opaque [data] payload is
    left out. *)
Record EventRow : Type := {
  marketId : string;
  eventType : string;
  userAddress : option string;
  outcomeId : option Z;
  shares : option Z;
  cost : option Z;
  blockNumber : Z;
  transactionHash : string;
  logIndex : Z;
  timestamp : Z
}.

(** A row of [markets_history] (migration 005: no unique constraint). The
    prices are the on-chain values divided by [1e18], kept as exact
    fractions: the rounding of [parseFloat] and of the division is not
    modelled. *)
Record Snapshot : Type := {
  snapMarket : string;
  prices : list QArith_base.Q;
  volume : Z;
  liquidity : Z;
  snapTime : Z
}.

(** The counters of a [users] row (migration 002). *)
Record UserStats : Type := {
  totalTrades : Z;
  totalVolumeTraded : Z
}.

Record t : Type := {
  markets : gmap string Market;
  events : list EventRow;
  history : list Snapshot;
  users : gmap string UserStats
}.

Definition set_markets (f : gmap string Market -> gmap string Market) (s : t) : t :=
  {| markets := f (markets s); events := events s; history := history s;
     users := users s |}.
Definition set_events (f : list EventRow -> list EventRow) (s : t) : t :=
  {| markets := markets s; events := f (events s); history := history s;
     users := users s |}.
Definition set_history (f : list Snapshot -> list Snapshot) (s : t) : t :=
  {| markets := markets s; events := events s; history := f (history s);
     users := users s |}.
Definition set_users (f : gmap string UserStats -> gmap string UserStats) (s : t) : t :=
  {| markets := markets s; events := events s; history := history s;
     users := f (users s) |}.

(** The idempotency key, [UNIQUE(transaction_hash, log_index)] of
    migration 004. *)
Definition key (e : EventRow) : string * Z := (transactionHash e, logIndex e).

(** Modelled from the spec: [MarketEvent.create]
    ([src/database/models/MarketEvent.js] is not among the sources). The
    store contract reads "[appendEvent] (fails silently/no-ops on duplicate
    key)", the key being (transaction hash, log index): a row whose key is
    already stored is dropped, any other row is appended. *)
Definition MarketEvent_create (e : EventRow) (rows : list EventRow)
  : list EventRow :=
  if decide (key e ∈ key <$> rows) then rows else rows ++ [e].

Definition with_status (st : string) (m : Market) : Market :=
  {| id := id m; status := st; outcomeCount := outcomeCount m;
     resolutionTime := resolutionTime m; metadata := metadata m;
     totalVolume := totalVolume m; totalLiquidity := totalLiquidity m |}.

(** Modelled from the spec: [Market.updateStatus]
    ([src/database/models/Market.js] is not among the sources), the
    contract's [setEntityStatus]: the status column of the row with that
    id is overwritten; there is nothing to do when no such row exists. *)
Definition Market_updateStatus (mid st : string) (ms : gmap string Market)
  : gmap string Market :=
  alter (with_status st) mid ms.

Definition with_totals (v l : Z) (m : Market) : Market :=
  {| id := id m; status := status m; outcomeCount := outcomeCount m;
     resolutionTime := resolutionTime m; metadata := metadata m;
     totalVolume := v; totalLiquidity := l |}.

(** Modelled from the spec: [Market.updateVolume], the contract's
    [updateEntityTotals]: totals are "replaced, not decremented". *)
Definition Market_updateVolume (mid : string) (v l : Z)
    (ms : gmap string Market) : gmap string Market :=
  alter (with_totals v l) mid ms.

(** Modelled from the spec: [Market.upsert], the contract's [upsertEntity],
    as the indexer calls it on a creation event (status ['active'], no
    deadline, no metadata, zero totals). An entity is "created on a factory
    EntityCreated event" and its "status transitions only
    active→resolved": a new id gets the row, an id already stored keeps
    its status and totals. *)
Definition Market_upsert (mid : string) (count : nat)
    (ms : gmap string Market) : gmap string Market :=
  match ms !! mid with
  | Some _ => ms
  | None =>
      <[mid := {| id := mid; status := "active"; outcomeCount := count;
                  resolutionTime := 0; metadata := None; totalVolume := 0;
                  totalLiquidity := 0 |}]> ms
  end.

(** Whether [markets] has a row with the id, as a foreign key to
    [markets(id)] asks. *)
Definition Market_exists (s : t) (mid : string) : bool :=
  bool_decide (is_Some (markets s !! mid)).

Definition no_stats : UserStats :=
  {| totalTrades := 0; totalVolumeTraded := 0 |}.

(** [User.upsert({ address })] ([src/database/models/User.js] is not among
    the sources): a new address gets a row with the column defaults of
    migration 002; an upsert that carries only the address leaves the
    counters of an existing row alone. *)
Definition User_upsert (addr : string) (us : gmap string UserStats)
  : gmap string UserStats :=
  match us !! addr with
  | Some _ => us
  | None => <[addr := no_stats]> us
  end.

End Store.

(** ** The resolution scheduler ([OracleResolver]) *)

Module Resolver.
Import Store.

(** What a tick can see of the outside: the clock, the adapter's budget,
    the provider and the RPC client's [writeContract] (a receipt's
    transaction hash, or the error it throws). *)
Record Env : Type := {
  now : Z;
  rateLimit : Z;
  http : string -> Sports.Response;
  writeContract : string -> option Z -> result string
}.

(** The state the scheduler works on: the projection store, the adapter
    (its counters and its cache rows), and the settlement calls handed to
    the RPC client so far. *)
Record World : Type := {
  store : Store.t;
  adapter : Sports.Adapter;
  submitted : list (string * option Z)
}.

(** The test of [callResolveMarket]'s catch block. *)
Definition already_resolved (e : Error) : bool :=
  includes "already resolved" (message e) || includes "MarketResolved" (message e).

(** [callResolveMarket(marketAddress, winningOutcome)]: the receipt, or
    [null] when the call failed because the market is already resolved. *)
Definition callResolveMarket (env : Env) (marketAddress : string)
    (winningOutcome : option Z) (w : World) : World * result (option string) :=
  let w' := {| store := store w; adapter := adapter w;
               submitted := submitted w ++ [(marketAddress, winningOutcome)] |} in
  match writeContract env marketAddress winningOutcome with
  | Ok receipt => (w', Ok (Some receipt))
  | Throw e => if already_resolved e then (w', Ok None) else (w', Throw e)
  end.

Definition mark_resolved (mid : string) (w : World) : World :=
  {| store := set_markets (Market_updateStatus mid "resolved") (store w);
     adapter := adapter w; submitted := submitted w |}.

(** [resolveMarketIfReady(market)]; [market] is the row the tick's query
    returned, which may be older than the store. *)
Definition resolveMarketIfReady (env : Env) (market : Market) (w : World)
  : World * result unit :=
  if String.eqb (status market) "resolved" then (w, Ok tt)
  else if now env <? resolutionTime market then (w, Ok tt)
  else
    match Sports.resolveMarket (rateLimit env) (now env) (http env)
            (Market_exists (store w)) (metadata market) (adapter w) with
    | (a', Throw e) =>
        ({| store := store w; adapter := a'; submitted := submitted w |},
         Throw e)
    | (a', Ok resolution) =>
        let w1 := {| store := store w; adapter := a';
                     submitted := submitted w |} in
        match resolution with
        | Sports.NotResolved _ => (w1, Ok tt)
        | Sports.Resolved winningOutcome _ =>
            match callResolveMarket env (id market) winningOutcome w1 with
            | (w2, Throw e) => (w2, Throw e)
            | (w2, Ok _) => (mark_resolved (id market) w2, Ok tt)
            end
        end
    end.

(** The loop of [checkAndResolveMarkets] over the rows of
    [Market.findMarketsApproachingResolution(60)], each paired with the
    environment at the time it is handled. A throw is caught and logged per
    market; the list returned is what each market's attempt ended with. *)
Fixpoint resolveAll (candidates : list (Env * Market)) (w : World)
  : World * list (result unit) :=
  match candidates with
  | [] => (w, [])
  | (env, market) :: rest =>
      let '(w1, r) := resolveMarketIfReady env market w in
      let '(w2, rs) := resolveAll rest w1 in
      (w2, r :: rs)
  end.

(** [checkAndResolveMarkets()]; [query] is the outcome of the store query,
    whose failure is caught and logged as well. *)
Definition checkAndResolveMarkets (query : result (list (Env * Market)))
    (w : World) : World * list (result unit) :=
  match query with
  | Throw _ => (w, [])
  | Ok candidates => resolveAll candidates w
  end.

(** [manuallyResolveMarket(marketId, winningOutcome)]. *)
Definition manuallyResolveMarket (env : Env) (mid : string)
    (winningOutcome : Z) (w : World) : World * result bool :=
  match markets (store w) !! mid with
  | None => (w, Throw (MarketNotFound mid))
  | Some market =>
      if String.eqb (status market) "resolved"
      then (w, Throw MarketAlreadyResolved)
      else
        match callResolveMarket env mid (Some winningOutcome) w with
        | (w1, Throw e) => (w1, Throw e)
        | (w1, Ok _) => (mark_resolved mid w1, Ok true)
        end
  end.

(** The store after [Market.updateStatus(mid, 'resolved')]. *)
Definition resolvedStore (mid : string) (s : Store.t) : Store.t :=
  set_markets (Market_updateStatus mid "resolved") s.

(** The part of [config.oracle] the service reads. *)
Record OracleConfig : Type := {
  enabled : bool;
  privateKey : option string;
  checkInterval : Z
}.

(** The resolver object: its two fields ([checkInterval] holds the timer,
    here the interval it was armed with) and the world it acts on. *)
Record Service : Type := {
  isRunning : bool;
  timer : option Z;
  world : World
}.

(** [start()]; [query] is what the store query of the initial check
    yields. *)
Definition start (cfg : OracleConfig) (query : result (list (Env * Market)))
    (svc : Service) : Service :=
  if isRunning svc then svc
  else if negb (enabled cfg) then svc
  else if negb (truthy_str (privateKey cfg)) then svc
  else
    {| isRunning := true; timer := Some (checkInterval cfg);
       world := fst (checkAndResolveMarkets query (world svc)) |}.

(** The callback of the timer [start] arms. *)
Definition tick (query : result (list (Env * Market))) (svc : Service)
  : Service :=
  if isRunning svc
  then {| isRunning := isRunning svc; timer := timer svc;
          world := fst (checkAndResolveMarkets query (world svc)) |}
  else svc.

(** [stop()]. *)
Definition stop (svc : Service) : Service :=
  if negb (isRunning svc) then svc
  else {| isRunning := false; timer := None; world := world svc |}.

End Resolver.

(** ** The chain event indexer ([BlockchainIndexer]) *)

Module Indexer.
Import Store.

(** The decoded arguments of a log, with the names the handlers read. *)
Record Args : Type := {
  market : option string;
  marketAddress : option string;
  creator : option string;
  creatorAddress : option string;
  outcomes : list string;
  user : option string;
  buyer : option string;
  seller : option string;
  provider : option string;
  outcome : option Z;
  argShares : option Z;
  argCost : option Z;
  amount : option Z;
  winningOutcome : option Z
}.

(** A log as [getContractLogs] returns it; [event] is the event of the ABI
    it was decoded with. *)
Record Log : Type := {
  address : string;
  event : string;
  args : Args;
  logBlock : Z;
  logTx : string;
  logIdx : Z
}.

(** What the RPC client answers at one moment: the chain height (or the
    error [getBlockNumber] throws), the logs the node holds, the error
    [getContractLogs] throws for a query (contract, event, first and last
    block), if it throws, the timestamp of a block ([None] when [getBlock]
    throws) and the three contract reads ([None] when [readContract]
    throws). *)
Record Chain : Type := {
  head : result Z;
  logs : list Log;
  logsFault : string -> string -> Z -> Z -> option Error;
  blockTime : Z -> option Z;
  getPrice : string -> nat -> option Z;
  chainVolume : string -> option Z;
  chainLiquidity : string -> option Z
}.

(** The part of [config] the indexer reads; [startBlock = None] stands for
    ['latest']. *)
Record Config : Type := {
  marketFactory : option string;
  batchSize : Z;
  startBlock : option Z
}.

(** The fields of the indexer object, its store, and two records kept for
    the statements only: how often a catch block called [logger.error], and
    every value assigned to [lastProcessedBlock], in order. *)
Record State : Type := {
  isRunning : bool;
  lastProcessedBlock : Z;
  marketContracts : list string;
  db : Store.t;
  errors : nat;
  cursorTrace : list Z
}.

Definition set_db (f : Store.t -> Store.t) (st : State) : State :=
  {| isRunning := isRunning st; lastProcessedBlock := lastProcessedBlock st;
     marketContracts := marketContracts st; db := f (db st);
     errors := errors st; cursorTrace := cursorTrace st |}.

(** [logger.error(...)] in a catch block. *)
Definition log_error (st : State) : State :=
  {| isRunning := isRunning st; lastProcessedBlock := lastProcessedBlock st;
     marketContracts := marketContracts st; db := db st;
     errors := S (errors st); cursorTrace := cursorTrace st |}.

(** [this.lastProcessedBlock = b]. *)
Definition set_cursor (b : Z) (st : State) : State :=
  {| isRunning := isRunning st; lastProcessedBlock := b;
     marketContracts := marketContracts st; db := db st;
     errors := errors st; cursorTrace := cursorTrace st ++ [b] |}.

Definition set_running (r : bool) (st : State) : State :=
  {| isRunning := r; lastProcessedBlock := lastProcessedBlock st;
     marketContracts := marketContracts st; db := db st;
     errors := errors st; cursorTrace := cursorTrace st |}.

(** [this.marketContracts.set(marketId, marketId)]: a [Map] keeps its keys
    in insertion order and a key that is present keeps its place. *)
Definition watch (mid : string) (st : State) : State :=
  {| isRunning := isRunning st; lastProcessedBlock := lastProcessedBlock st;
     marketContracts :=
       if decide (mid ∈ marketContracts st) then marketContracts st
       else marketContracts st ++ [mid];
     db := db st; errors := errors st; cursorTrace := cursorTrace st |}.

(** The logs of a contract and event in a closed block interval. *)
Definition logsIn (chain : Chain) (addr eventName : string)
    (fromBlock toBlock : Z) : list Log :=
  filter (fun l => address l = addr ∧ event l = eventName ∧
                   fromBlock ≤ logBlock l ∧ logBlock l ≤ toBlock)
         (logs chain).

(** [getContractLogs({address, eventName, fromBlock, toBlock})]: those
    logs, unless the query fails. *)
Definition getContractLogs (chain : Chain) (addr eventName : string)
    (fromBlock toBlock : Z) : result (list Log) :=
  match logsFault chain addr eventName fromBlock toBlock with
  | Some e => Throw e
  | None => Ok (logsIn chain addr eventName fromBlock toBlock)
  end.

Definition is_trade (eventType : string) : bool :=
  String.eqb eventType "SharesPurchased" || String.eqb eventType "SharesSold".

(** [args.cost?.toString() || args.amount?.toString() || '0'] *)
Definition cost_of (a : Args) : Z :=
  match argCost a with
  | Some c => c
  | None => default 0 (amount a)
  end.

(** [args.user || args.buyer || args.seller || args.provider] *)
Definition user_of (a : Args) : option string :=
  str_or (str_or (str_or (user a) (buyer a)) (seller a)) (provider a).

(** [args.market || args.marketAddress] *)
Definition market_of (a : Args) : option string :=
  str_or (market a) (marketAddress a).

(** The key a log is stored under. *)
Definition logKey (log : Log) : string * Z := (logTx log, logIdx log).

(** The row [handleMarketCreated] stores. *)
Definition createdRow (mid : string) (log : Log) (ts : Z) : EventRow :=
  {| marketId := mid; eventType := "MarketCreated";
     userAddress := str_or (creator (args log)) (creatorAddress (args log));
     outcomeId := None; shares := None; cost := None;
     blockNumber := logBlock log; transactionHash := logTx log;
     logIndex := logIdx log; timestamp := ts * 1000 |}.

(** The row [handleMarketEvent] stores first, for every kind of event. *)
Definition eventRow (eventType : string) (log : Log) (ts : Z) : EventRow :=
  {| marketId := address log; eventType := eventType;
     userAddress := user_of (args log); outcomeId := outcome (args log);
     shares := Some (default 0 (argShares (args log)));
     cost := Some (cost_of (args log));
     blockNumber := logBlock log; transactionHash := logTx log;
     logIndex := logIdx log; timestamp := ts * 1000 |}.

(** The second row [handleMarketEvent] stores for a ['MarketResolved']
    log, under the same transaction hash and log index. *)
Definition resolvedRow (log : Log) (ts : Z) : EventRow :=
  {| marketId := address log; eventType := "MarketResolved";
     userAddress := None; outcomeId := winningOutcome (args log);
     shares := None; cost := None;
     blockNumber := logBlock log; transactionHash := logTx log;
     logIndex := logIdx log; timestamp := ts * 1000 |}.

Section WithUserModel.

(** [User.updateStats(address, {totalTrades, totalVolume})] is not among the
    sources and the design document does not describe the user counters, so
    the change it makes to the counters of the row is left open. *)
Variable updateStats : Z -> Z -> UserStats -> UserStats.

Variable cfg : Config.

(** [handleMarketCreated(log)]. A log without a market id cannot be stored
    (the id is the primary key), which the catch block logs. *)
Definition handleMarketCreated (chain : Chain) (log : Log) (st : State)
  : State :=
  match blockTime chain (logBlock log) with
  | None => log_error st
  | Some ts =>
      match market_of (args log) with
      | None => log_error st
      | Some mid =>
          watch mid
            (set_db (fun d =>
               set_events (MarketEvent_create (createdRow mid log ts))
                 (set_markets
                    (Market_upsert mid (length (outcomes (args log)))) d))
               st)
      end
  end.

(** [indexMarketCreatedEvents(fromBlock, toBlock)]; called only when the
    factory address [factory] is configured. *)
Definition indexMarketCreatedEvents (chain : Chain) (factory : string)
    (fromBlock toBlock : Z) (st : State) : State :=
  match getContractLogs chain factory "MarketCreated" fromBlock toBlock with
  | Ok logs => foldl (fun s log => handleMarketCreated chain log s) st logs
  | Throw _ => log_error st
  end.

(** [parseFloat(price.toString()) / 1e18], as an exact fraction. *)
Definition scaled (price : Z) : QArith_base.Q :=
  QArith_base.Qmake price 1000000000000000000.

(** The [0] pushed for a price that cannot be read. *)
Definition noPrice : QArith_base.Q := QArith_base.Qmake 0 1.

(** [fetchMarketPrices(marketId, outcomeCount)]: one price per outcome
    index, a failed read counts as zero. *)
Definition fetchMarketPrices (chain : Chain) (mid : string) (n : nat)
  : list QArith_base.Q :=
  (fun i => match getPrice chain mid i with
            | Some price => scaled price
            | None => noPrice
            end) <$> seq 0 n.

(** [updateMarketSnapshot(marketId, timestamp)]; [MarketHistory.create] is
    the contract's [appendSnapshot]. *)
Definition updateMarketSnapshot (chain : Chain) (mid : string) (ts : Z)
    (st : State) : State :=
  match markets (db st) !! mid with
  | None => st
  | Some m =>
      let prices := fetchMarketPrices chain mid (outcomeCount m) in
      let volume := default 0 (chainVolume chain mid) in
      let liquidity := default 0 (chainLiquidity chain mid) in
      let snapshot :=
        {| snapMarket := mid; prices := prices; volume := volume;
           liquidity := liquidity; snapTime := ts * 1000 |} in
      set_db (fun d =>
        set_markets (Market_updateVolume mid volume liquidity)
          (set_history (fun h => h ++ [snapshot]) d)) st
  end.

(** The user part of [handleMarketEvent]. *)
Definition updateUser (eventType : string) (userAddress : option string)
    (cost : Z) (us : gmap string UserStats) : gmap string UserStats :=
  match userAddress with
  | Some addr =>
      if truthy_str userAddress then
        let us1 := User_upsert addr us in
        if is_trade eventType then alter (updateStats 1 cost) addr us1
        else us1
      else us
  | None => us
  end.

(** [handleMarketEvent(eventType, log)]. *)
Definition handleMarketEvent (chain : Chain) (eventType : string) (log : Log)
    (st : State) : State :=
  match blockTime chain (logBlock log) with
  | None => log_error st
  | Some ts =>
      let marketId := address log in
      let userAddress := user_of (args log) in
      let cost := cost_of (args log) in
      let st1 :=
        set_db (set_events (MarketEvent_create (eventRow eventType log ts))) st in
      let st2 := set_db (set_users (updateUser eventType userAddress cost)) st1 in
      let st3 := if is_trade eventType
                 then updateMarketSnapshot chain marketId ts st2 else st2 in
      if String.eqb eventType "MarketResolved" then
        set_db (fun d =>
          set_events (MarketEvent_create (resolvedRow log ts))
            (set_markets (Market_updateStatus marketId "resolved") d)) st3
      else st3
  end.

(** [indexEventType(marketAddress, eventName, fromBlock, toBlock)]: a
    failed query is logged unless its message includes ['not found']. *)
Definition indexEventType (chain : Chain) (marketAddress eventName : string)
    (fromBlock toBlock : Z) (st : State) : State :=
  match getContractLogs chain marketAddress eventName fromBlock toBlock with
  | Ok logs => foldl (fun s log => handleMarketEvent chain eventName log s) st logs
  | Throw e => if includes "not found" (message e) then st else log_error st
  end.

(** The event kinds [indexMarketEvents] goes through, in its order. *)
Definition marketEventKinds : list string :=
  ["SharesPurchased"; "SharesSold"; "LiquidityAdded"; "MarketResolved"].

(** [indexMarketEvents(marketAddress, fromBlock, toBlock)]. *)
Definition indexMarketEvents (chain : Chain) (marketAddress : string)
    (fromBlock toBlock : Z) (st : State) : State :=
  foldl (fun s eventName =>
           indexEventType chain marketAddress eventName fromBlock toBlock s)
        st marketEventKinds.

(** [processBlockRange(fromBlock, toBlock)]: the creation events of the
    factory first, then the events of every market known by then. *)
Definition processBlockRange (chain : Chain) (fromBlock toBlock : Z)
    (st : State) : State :=
  let st1 :=
    match marketFactory cfg with
    | Some factory =>
        if truthy_str (Some factory)
        then indexMarketCreatedEvents chain factory fromBlock toBlock st
        else st
    | None => st
    end in
  foldl (fun s marketAddress =>
           indexMarketEvents chain marketAddress fromBlock toBlock s)
        st1 (marketContracts st1).

(** The [for] loop of [processHistoricalEvents]. [fuel] bounds the number
    of iterations; [None] means the bound was reached with the loop still
    running. *)
Fixpoint backfillLoop (fuel : nat) (chain : Chain) (start toBlock : Z)
    (st : State) : option State :=
  if start <=? toBlock then
    match fuel with
    | O => None
    | S fuel' =>
        let end_ := if start + batchSize cfg >? toBlock then toBlock
                    else start + batchSize cfg in
        let st1 := processBlockRange chain start end_ st in
        let st2 := set_cursor end_ st1 in
        backfillLoop fuel' chain (start + batchSize cfg) toBlock st2
    end
  else Some st.

(** [processHistoricalEvents()]: [Some (st, r)] is the state it leaves and
    whether it returned or threw. *)
Definition processHistoricalEvents (fuel : nat) (chain : Chain) (st : State)
  : option (State * result unit) :=
  if negb (truthy_str (marketFactory cfg)) then Some (st, Ok tt)
  else
    match head chain with
    | Throw e => Some (log_error st, Throw e)
    | Ok currentBlock =>
        match backfillLoop fuel chain (lastProcessedBlock st) currentBlock st with
        | Some st' => Some (st', Ok tt)
        | None => None
        end
    end.

(** [start()]. The push subscription of [startWatching] and the timer of
    [startPolling] only register callbacks; the steps of the timer's
    callback are [pollFire] and [pollResume] below. *)
Definition start (fuel : nat) (chain : Chain) (st : State)
  : option (State * result unit) :=
  if isRunning st then Some (st, Ok tt)
  else
    let st1 :=
      match startBlock cfg with
      | None =>
          match head chain with
          | Ok h => set_cursor h st
          | Throw _ => set_cursor 0 st
          end
      | Some b => set_cursor b st
      end in
    let st2 := set_running true st1 in
    if (lastProcessedBlock st2 >? 0) || bool_decide (startBlock cfg ≠ None) then
      match processHistoricalEvents fuel chain st2 with
      | None => None
      | Some (st3, Ok _) => Some (st3, Ok tt)
      | Some (st3, Throw e) => Some (set_running false (log_error st3), Throw e)
      end
    else Some (st2, Ok tt).

(** A callback of [startPolling]'s timer that is suspended: in
    [await getBlockNumber()], or in
    [await this.processBlockRange(fromBlock, toBlock)] with the two
    arguments it computed before the call. *)
Inductive Callback : Type :=
| awaitingHeight
| awaitingRange (fromBlock toBlock : Z).

(** The timer fires: the callback tests [isRunning] and asks for the chain
    height. *)
Definition pollFire (st : State) : option Callback :=
  if negb (isRunning st) then None else Some awaitingHeight.

(** A suspended callback goes on, with the RPC answers of that moment, to
    its next await or to its end. The cursor is compared when the height
    arrives and assigned when the pass is over. *)
Definition pollResume (chain : Chain) (cb : Callback) (st : State)
  : State * option Callback :=
  match cb with
  | awaitingHeight =>
      match head chain with
      | Throw _ => (log_error st, None)
      | Ok currentBlock =>
          if currentBlock >? lastProcessedBlock st then
            let fromBlock := lastProcessedBlock st + 1 in
            let toBlock := currentBlock in
            (st, Some (awaitingRange fromBlock toBlock))
          else (st, None)
      end
  | awaitingRange fromBlock toBlock =>
      (set_cursor toBlock (processBlockRange chain fromBlock toBlock st), None)
  end.

(** A callback of the timer that runs from its start to its end with
    nothing else in between. *)
Definition pollTick (chain : Chain) (st : State) : State :=
  match pollFire st with
  | None => st
  | Some cb =>
      match pollResume chain cb st with
      | (st1, Some cb1) => fst (pollResume chain cb1 st1)
      | (st1, None) => st1
      end
  end.

(** [stop()]. *)
Definition stop (st : State) : State :=
  if negb (isRunning st) then st else set_running false st.

End WithUserModel.

(** The indexer object together with the callbacks of the poll timer that
    are suspended. [setInterval] does not wait for an [async] callback, so
    the timer can fire again while earlier callbacks are suspended. *)
Record Loop : Type := {
  indexer : State;
  suspended : list Callback
}.

(** What happens to a started indexer: the poll timer fires; the [n]-th
    suspended callback gets the answer it waits for and goes on; or the push
    subscription of [startWatching] delivers creation logs to its [onLogs]
    callback. Each comes with the chain answers of its moment. A callback
    runs from one await of the poll callback to the next in one piece: the
    pass inside [processBlockRange] and the handling of a delivery are not
    split further. *)
Inductive LiveEvent : Type :=
| Fires
| Resumes (n : nat) (chain : Chain)
| Pushed (chain : Chain) (delivered : list Log).

Definition live (updateStats : Z -> Z -> UserStats -> UserStats)
    (cfg : Config) (ev : LiveEvent) (lp : Loop) : Loop :=
  match ev with
  | Fires =>
      match pollFire (indexer lp) with
      | Some cb => {| indexer := indexer lp; suspended := suspended lp ++ [cb] |}
      | None => lp
      end
  | Resumes n chain =>
      match suspended lp !! n with
      | None => lp
      | Some cb =>
          match pollResume updateStats cfg chain cb (indexer lp) with
          | (st, Some cb') =>
              {| indexer := st; suspended := <[n := cb']> (suspended lp) |}
          | (st, None) =>
              {| indexer := st; suspended := delete n (suspended lp) |}
          end
      end
  | Pushed chain delivered =>
      {| indexer := foldl (fun s log => handleMarketCreated chain log s)
                      (indexer lp) delivered;
         suspended := suspended lp |}
  end.

(** The life of the indexer after [start]. (Events are taken in any number
    and order, also where [start] armed neither the timer nor the
    subscription; this only adds histories.) *)
Definition liveRun (updateStats : Z -> Z -> UserStats -> UserStats)
    (cfg : Config) (evs : list LiveEvent) (lp : Loop) : Loop :=
  foldl (fun s ev => live updateStats cfg ev s) lp evs.

(** An indexer with no callback suspended. *)
Definition quiet (st : State) : Loop := {| indexer := st; suspended := [] |}.

(** Poll callbacks that run one after the other, each to its end with the
    chain answers given. *)
Definition inTurn (chains : list Chain) : list LiveEvent :=
  chain ← chains; [Fires; Resumes 0 chain; Resumes 0 chain].

(** The keys of the stored event records. *)
Definition keys (st : State) : list (string * Z) := key <$> events (db st).

(** The fields of the indexer object no handler assigns. *)
Definition frame (st : State) : bool * Z * list Z :=
  (isRunning st, lastProcessedBlock st, cursorTrace st).

(** The values assigned to the cursor so far are in non-decreasing order
    and none of them is above the cursor. *)
Definition ordered (st : State) : Prop :=
  StronglySorted Z.le (cursorTrace st)
  ∧ ∀ x, x ∈ cursorTrace st -> x ≤ lastProcessedBlock st.

(** The block of a log can be read. *)
Definition readable (chain : Chain) (l : Log) : Prop :=
  is_Some (blockTime chain (logBlock l)).

(** [c] is a creation log of the configured factory in the blocks
    [lo..hi] which [handleMarketCreated] can store. *)
Definition Created (cfg : Config) (chain : Chain) (lo hi : Z) (c : Log) : Prop :=
  ∃ factory, marketFactory cfg = Some factory ∧ factory ≠ "" ∧
    c ∈ logs chain ∧ address c = factory ∧ event c = "MarketCreated" ∧
    lo ≤ logBlock c ∧ logBlock c ≤ hi ∧
    readable chain c ∧ is_Some (market_of (args c)).

(** The event is one of the four a market's contract is asked for. *)
Definition marketKind (e : string) : Prop :=
  e = "SharesPurchased" ∨ e = "SharesSold" ∨ e = "LiquidityAdded"
  ∨ e = "MarketResolved".

(** [l] is a log of contract [a], of one of the four kinds, in the blocks
    [lo..hi], which [handleMarketEvent] can store. *)
Definition Emitted (chain : Chain) (lo hi : Z) (a : string) (l : Log) : Prop :=
  l ∈ logs chain ∧ address l = a ∧ marketKind (event l) ∧
  lo ≤ logBlock l ∧ logBlock l ≤ hi ∧ readable chain l.

(** Every log query is answered. *)
Definition healthy (chain : Chain) : Prop :=
  ∀ addr eventName lo hi, logsFault chain addr eventName lo hi = None.


(** The same configuration with another batch width. *)
Definition with_batchSize (b : Z) (cfg : Config) : Config :=
  {| marketFactory := marketFactory cfg; batchSize := b;
     startBlock := startBlock cfg |}.

(** The state [st] is what the state [st0] becomes once the blocks [lo..hi]
    are processed: the watched contracts are those of [st0] and the ones
    announced in [lo..hi]; the ledger has the keys of [st0], of the creation
    logs in [lo..hi] and of the logs the watched contracts emitted in
    [lo..hi]; and no key is stored twice. *)
Definition Processed (cfg : Config) (chain : Chain) (st0 : State)
    (lo hi : Z) (st : State) : Prop :=
  (∀ a, a ∈ marketContracts st
        ↔ a ∈ marketContracts st0
          ∨ ∃ c, Created cfg chain lo hi c ∧ market_of (args c) = Some a)
  ∧ (∀ k, k ∈ keys st
          ↔ k ∈ keys st0
            ∨ (∃ c, Created cfg chain lo hi c ∧ k = logKey c)
            ∨ (∃ a l, a ∈ marketContracts st ∧ Emitted chain lo hi a l
                      ∧ k = logKey l))
  ∧ NoDup (keys st).

(** The logs a query hands to the loop over its result: none when it
    fails. *)
Definition answered (chain : Chain) (addr eventName : string) (lo hi : Z)
  : list Log :=
  match getContractLogs chain addr eventName lo hi with
  | Ok ls => ls
  | Throw _ => []
  end.

(** The market logs a pass over the blocks [lo..hi] handles for the watched
    contracts [watched], in the order of the pass, each with the event kind
    it is handled as. *)
Definition marketLogs (chain : Chain) (lo hi : Z) (watched : list string)
  : list (string * Log) :=
  a ← watched;
  eventName ← marketEventKinds;
  (fun l => (eventName, l)) <$> answered chain a eventName lo hi.

(** The queries of a pass for the watched contracts, in its order, and those
    among them whose failure is logged. *)
Definition marketQueries (watched : list string) : list (string * string) :=
  a ← watched; eventName ← marketEventKinds; [(a, eventName)].

Definition loggedFault (chain : Chain) (lo hi : Z) (q : string * string)
  : bool :=
  match logsFault chain q.1 q.2 lo hi with
  | Some e => negb (includes "not found" (message e))
  | None => false
  end.

(** [n] calls of [logger.error]. *)
Definition log_errors (n : nat) (st : State) : State := Nat.iter n log_error st.

(** Handling a list of market logs, each as the given kind. *)
Definition handleAll (updateStats : Z -> Z -> UserStats -> UserStats)
    (chain : Chain) (els : list (string * Log)) (st : State) : State :=
  foldl (fun s el => handleMarketEvent updateStats chain el.1 el.2 s) st els.

(** The creation part of [processBlockRange]. *)
Definition createdPhase (cfg : Config) (chain : Chain) (lo hi : Z)
    (st : State) : State :=
  match marketFactory cfg with
  | Some factory =>
      if truthy_str (Some factory)
      then indexMarketCreatedEvents chain factory lo hi st
      else st
  | None => st
  end.

(** The creation logs [processBlockRange] gets from the factory. *)
Definition factoryLogs (cfg : Config) (chain : Chain) (lo hi : Z) : list Log :=
  match marketFactory cfg with
  | Some factory =>
      if truthy_str (Some factory)
      then answered chain factory "MarketCreated" lo hi
      else []
  | None => []
  end.

(** The query for the creation logs is made and fails. *)
Definition factoryFault (cfg : Config) (chain : Chain) (lo hi : Z) : bool :=
  match marketFactory cfg with
  | Some factory =>
      truthy_str (Some factory)
      && bool_decide (is_Some (logsFault chain factory "MarketCreated" lo hi))
  | None => false
  end.

(** [c] is a creation log the factory query of a pass over [lo..hi]
    returned, which [handleMarketCreated] can store. *)
Definition Delivered (cfg : Config) (chain : Chain) (lo hi : Z) (c : Log)
  : Prop :=
  c ∈ factoryLogs cfg chain lo hi ∧ readable chain c
  ∧ is_Some (market_of (args c)).

(** What handling one market log does to the [markets] table. *)
Definition marketStep (chain : Chain) (el : string * Log)
    (ms : gmap string Market) : gmap string Market :=
  match blockTime chain (logBlock el.2) with
  | None => ms
  | Some _ =>
      let ms1 :=
        if is_trade el.1
        then Market_updateVolume (address el.2)
               (default 0 (chainVolume chain (address el.2)))
               (default 0 (chainLiquidity chain (address el.2))) ms
        else ms in
      if String.eqb el.1 "MarketResolved"
      then Market_updateStatus (address el.2) "resolved" ms1
      else ms1
  end.

(** The ways a pass can act on a [markets] row that exists: by setting its
    status to ['resolved'], by setting its totals, both or neither. *)
Record RowUpdate : Type := {
  resolves : bool;
  newTotals : option (Z * Z)
}.

Definition update (u : RowUpdate) (m : Market) : Market :=
  let m1 := match newTotals u with
            | Some (v, l) => with_totals v l m
            | None => m
            end in
  if resolves u then with_status "resolved" m1 else m1.

(** [u] after [v]. *)
Definition andThen (u v : RowUpdate) : RowUpdate :=
  {| resolves := resolves u || resolves v;
     newTotals := match newTotals u with
                  | Some t => Some t
                  | None => newTotals v
                  end |}.

(** What handling one market log does to the [users] table. *)
Definition userStep (updateStats : Z -> Z -> UserStats -> UserStats)
    (chain : Chain) (el : string * Log) (us : gmap string UserStats)
  : gmap string UserStats :=
  match blockTime chain (logBlock el.2) with
  | None => us
  | Some _ =>
      updateUser updateStats el.1 (user_of (args el.2)) (cost_of (args el.2)) us
  end.

(** The three ways a pass can act on one [users] row: not at all, by making
    sure the row exists, or by leaving a fixed row. *)
Inductive RowAction : Type :=
| Keep
| Ensure
| Put (row : UserStats).

Definition act (f : RowAction) (o : option UserStats) : option UserStats :=
  match f with
  | Keep => o
  | Ensure => Some (default no_stats o)
  | Put row => Some row
  end.

(** [f] after [g]. *)
Definition after (f g : RowAction) : RowAction :=
  match f with
  | Keep => g
  | Put row => Put row
  | Ensure => match g with Keep => Ensure | _ => g end
  end.


Definition replaceStats (trades volume : Z) (row : UserStats) : UserStats :=
  {| totalTrades := trades; totalVolumeTraded := volume |}.

Definition emptyStore : Store.t :=
  {| markets := ∅; events := []; history := []; users := ∅ |}.

Definition noArgs : Args :=
  {| market := None; marketAddress := None; creator := None;
     creatorAddress := None; outcomes := []; user := None; buyer := None;
     seller := None; provider := None; outcome := None; argShares := None;
     argCost := None; amount := None; winningOutcome := None |}.

(** A small chain for the examples: the factory ["0xF"] announces the
    market ["0xM"] in block 5; the market has a purchase by ["0xU"] in
    block 6 and is resolved in block 8. *)
Definition exampleLogs : list Log :=
  [ {| address := "0xF"; event := "MarketCreated";
       args := {| market := Some "0xM"; marketAddress := None;
                  creator := Some "0xC"; creatorAddress := None;
                  outcomes := ["Yes"; "No"]; user := None; buyer := None;
                  seller := None; provider := None; outcome := None;
                  argShares := None; argCost := None; amount := None;
                  winningOutcome := None |};
       logBlock := 5; logTx := "0xa1"; logIdx := 0 |};
    {| address := "0xM"; event := "SharesPurchased";
       args := {| market := None; marketAddress := None; creator := None;
                  creatorAddress := None; outcomes := []; user := None;
                  buyer := Some "0xU"; seller := None; provider := None;
                  outcome := Some 1; argShares := Some 4; argCost := Some 10;
                  amount := None; winningOutcome := None |};
       logBlock := 6; logTx := "0xa2"; logIdx := 0 |};
    {| address := "0xM"; event := "MarketResolved";
       args := {| market := None; marketAddress := None; creator := None;
                  creatorAddress := None; outcomes := []; user := None;
                  buyer := None; seller := None; provider := None;
                  outcome := None; argShares := None; argCost := None;
                  amount := None; winningOutcome := Some 1 |};
       logBlock := 8; logTx := "0xa3"; logIdx := 2 |} ].

Definition exampleChain : Chain :=
  {| head := Ok 10; logs := exampleLogs; logsFault := fun _ _ _ _ => None;
     blockTime := fun b => Some (1700000000 + b);
     getPrice := fun _ _ => Some 500; chainVolume := fun _ => Some 10;
     chainLiquidity := fun _ => Some 100 |}.

(** The same chain three blocks later. *)
Definition laterChain : Chain :=
  {| head := Ok 13; logs := exampleLogs; logsFault := fun _ _ _ _ => None;
     blockTime := fun b => Some (1700000000 + b);
     getPrice := fun _ _ => Some 500; chainVolume := fun _ => Some 10;
     chainLiquidity := fun _ => Some 100 |}.

(** The example chain three and four blocks later, with a sale in block
    12. *)
Definition laterLogs : list Log :=
  exampleLogs ++
  [ {| address := "0xM"; event := "SharesSold";
       args := {| market := None; marketAddress := None; creator := None;
                  creatorAddress := None; outcomes := []; user := None;
                  buyer := None; seller := Some "0xU"; provider := None;
                  outcome := Some 1; argShares := Some 2; argCost := Some 6;
                  amount := None; winningOutcome := None |};
       logBlock := 12; logTx := "0xa4"; logIdx := 0 |} ].

Definition chainAt (height : Z) : Chain :=
  {| head := Ok height; logs := laterLogs; logsFault := fun _ _ _ _ => None;
     blockTime := fun b => Some (1700000000 + b);
     getPrice := fun _ _ => Some 500; chainVolume := fun _ => Some 10;
     chainLiquidity := fun _ => Some 100 |}.

(** The example chain behind a node that refuses a log query over more
    than six blocks. *)
Definition cappedChain : Chain :=
  {| head := Ok 10; logs := exampleLogs;
     logsFault := fun _ _ lo hi =>
       if hi - lo >? 5
       then Some (External "query exceeds max block range")
       else None;
     blockTime := fun b => Some (1700000000 + b);
     getPrice := fun _ _ => Some 500; chainVolume := fun _ => Some 10;
     chainLiquidity := fun _ => Some 100 |}.

Definition exampleConfig : Config :=
  {| marketFactory := Some "0xF"; batchSize := 4; startBlock := Some 0 |}.

(** The block ranges the loop of [processHistoricalEvents] hands to
    [processBlockRange], in order: the loop's control flow alone. *)
Fixpoint batchRanges (fuel : nat) (width start toBlock : Z)
  : option (list (Z * Z)) :=
  if start <=? toBlock then
    match fuel with
    | O => None
    | S fuel' =>
        let end_ := if start + width >? toBlock then toBlock
                    else start + width in
        cons (start, end_) <$> batchRanges fuel' width (start + width) toBlock
    end
  else Some [].

(** One batch of the loop: the pass over the range, then the cursor. *)
Definition runBatch (updateStats : Z -> Z -> UserStats -> UserStats)
    (cfg : Config) (chain : Chain) (st : State) (range : Z * Z) : State :=
  set_cursor range.2
    (processBlockRange updateStats cfg chain range.1 range.2 st).

(** The indexer object as its constructor leaves it, over a given store
    ([lastProcessedBlock] is [null] until [start] assigns it). *)
Definition fresh (d : Store.t) : State :=
  {| isRunning := false; lastProcessedBlock := 0; marketContracts := [];
     db := d; errors := 0; cursorTrace := [] |}.

End Indexer.

(** ** The two writers of the entity status, side by side *)

Module System.
Import Store.

(** The status of an entity in the store, if the entity is there. *)
Definition status_of (mid : string) (s : Store.t) : option string :=
  status <$> markets s !! mid.

(** One step of a writer of the [markets] table on the shared store: an
    attempt of the scheduler on a row it read earlier (the row may be stale,
    and the outcome of the settlement call is whatever the chain answers at
    that moment), a manual resolution, or the indexer handling one log of a
    market or one creation log of the factory (in a pass or delivered by the
    subscription). The scheduler writes the store once, at the end of the
    attempt, so running the indexer "in between" is the same as running it
    before that write. *)
Inductive step (updateStats : Z -> Z -> UserStats -> UserStats)
  : Store.t -> Store.t -> Prop :=
| step_scheduler env market w :
    step updateStats (Resolver.store w)
      (Resolver.store (fst (Resolver.resolveMarketIfReady env market w)))
| step_manual env mid winningOutcome w :
    step updateStats (Resolver.store w)
      (Resolver.store
         (fst (Resolver.manuallyResolveMarket env mid winningOutcome w)))
| step_indexer chain eventType log st :
    step updateStats (Indexer.db st)
      (Indexer.db (Indexer.handleMarketEvent updateStats chain eventType log st))
| step_created chain log st :
    step updateStats (Indexer.db st)
      (Indexer.db (Indexer.handleMarketCreated chain log st)).

(** A history of the store: consecutive entries are one step apart. *)
Fixpoint run (updateStats : Z -> Z -> UserStats -> UserStats)
    (s : Store.t) (rest : list Store.t) : Prop :=
  match rest with
  | [] => True
  | s' :: rest' => step updateStats s s' ∧ run updateStats s' rest'
  end.



End System.

(** ** The global error handler ([middleware/errorHandler.js]) *)

Module ErrorHandler.

(** [err.code]: absent, a number (Mongoose) or a string (PostgreSQL, Node). *)
Inductive Code : Type :=
| NoCode
| NumCode (n : Z)
| StrCode (s : string).

(** The fields of the error the handler reads; [errors] holds the messages
    of the values of [err.errors]. *)
Record Err : Type := {
  name : option string;
  code : Code;
  message : option string;
  stack : option string;
  details : option string;
  statusCode : option Z;
  errors : option (list string)
}.

(** What [new AppError(message, statusCode)] is given as message: a string,
    or the array of messages of a validation error. *)
Inductive Msg : Type :=
| Text (s : string)
| Lines (ls : list string).

(** The two fields of [error] the response is built from. *)
Record Handled : Type := {
  handledMessage : option string;
  handledStatus : option Z
}.

(** The JSON body and the HTTP status sent. *)
Record Response : Type := {
  status : Z;
  success : bool;
  error : string;
  timestamp : string;
  responseDetails : option string;
  responseStack : option string
}.

Definition name_is (err : Err) (n : string) : bool :=
  match name err with Some m => String.eqb m n | None => false end.

Definition code_is (err : Err) (c : string) : bool :=
  match code err with StrCode s => String.eqb s c | _ => false end.

(** [err.code && err.code.startsWith('28') || err.code === '3D000']: a
    number other than zero is truthy and has no [startsWith], so calling it
    throws a [TypeError]. *)
Definition postgresTest (c : Code) : result bool :=
  match c with
  | NoCode => Ok false
  | NumCode n =>
      if n =? 0 then Ok false
      else Throw (External "TypeError: err.code.startsWith is not a function")
  | StrCode s =>
      Ok ((negb (String.eqb s "") && String.prefix "28" s) || String.eqb s "3D000")
  end.

Definition with_status (st : Z) (h : Handled) : Handled :=
  {| handledMessage := handledMessage h; handledStatus := Some st |}.

(** [error.message || 'Server Error']. *)
Definition errorText (h : Handled) : string :=
  if truthy_str (handledMessage h) then default "" (handledMessage h)
  else "Server Error".

Section WithAppError.

(** [AppError] ([utils/errors.js]) is not among the sources: what its
    constructor leaves in [message] and [statusCode] is a parameter. *)
Variable AppError : Msg -> Z -> Handled.

(** [errorHandler(err, req, res, next)]: the response sent, or the error
    the handler itself throws. [isDevelopment] is
    [config.server.isDevelopment], [now] the timestamp. *)
Definition errorHandler (isDevelopment : bool) (now : string) (err : Err)
  : result Response :=
  let e0 := {| handledMessage := message err; handledStatus := statusCode err |} in
  let e1 := if name_is err "CastError"
            then AppError (Text "Resource not found") 404 else e0 in
  let e2 := match code err with
            | NumCode 11000 => AppError (Text "Duplicate field value entered") 400
            | _ => e1
            end in
  let validation :=
    if name_is err "ValidationError" then
      match errors err with
      | Some ms => Ok (AppError (Lines ms) 400)
      | None =>
          Throw (External "TypeError: Cannot convert undefined or null to object")
      end
    else Ok e2 in
  match validation with
  | Throw t => Throw t
  | Ok e3 =>
      let e4 := if name_is err "JsonWebTokenError"
                then AppError (Text "Invalid token") 401 else e3 in
      let e5 := if name_is err "TokenExpiredError"
                then AppError (Text "Token expired") 401 else e4 in
      let e6 :=
        if code_is err "ECONNREFUSED" || code_is err "DB_CONNECTION_ERROR" then
          let m := if truthy_str (details err) then default "" (details err)
                   else "Database connection failed. Please ensure PostgreSQL is running and configured." in
          with_status 503 (AppError (Text m) 503)
        else e5 in
      match postgresTest (code err) with
      | Throw t => Throw t
      | Ok isPostgres =>
          let e7 :=
            if isPostgres then
              with_status 503
                (AppError (Text "Database authentication or connection error. Please check your database credentials.") 503)
            else e6 in
          Ok {| status := num_or (handledStatus e7) 500;
                success := false;
                error := errorText e7;
                timestamp := now;
                responseDetails :=
                  if isDevelopment && truthy_str (details err)
                  then details err else None;
                responseStack :=
                  if isDevelopment && truthy_str (stack err)
                  then stack err else None |}
      end
  end.

End WithAppError.

End ErrorHandler.

(** ** The migration runner ([database/migrations/index.js]) *)

Module Migrations.

Section WithSchema.

(** The database apart from the tracking table. *)
Variable DB : Type.

(** A migration module: its name in the list, and what [up()] and [down()]
    do to the database, including whether they throw. *)
Record Migration : Type := {
  name : string;
  up : DB -> DB * result unit;
  down : DB -> DB * result unit
}.

(** The database and the names in the [migrations] table, oldest
    [executed_at] first. *)
Record State : Type := {
  db : DB;
  executed : list string
}.

(** Which of the statements a call sends to the tracking table fail, by
    their position in the call: [Some e] at [n] makes the [n]-th statement
    throw [e]. *)
Definition Outage : Type := nat -> option Error.

(** The statements after the first [n]. *)
Definition later (n : nat) (outage : Outage) : Outage :=
  fun i => outage (n + i)%nat.

(** No statement fails. *)
Definition none : Outage := fun _ => None.

(** [isMigrationExecuted(name)], once its [SELECT] is answered. *)
Definition isMigrationExecuted (n : string) (st : State) : bool :=
  bool_decide (n ∈ executed st).

(** [markMigrationExecuted(name)], once its statement is executed:
    [INSERT ... ON CONFLICT (name) DO NOTHING]. *)
Definition markMigrationExecuted (n : string) (rows : list string)
  : list string :=
  if decide (n ∈ rows) then rows else rows ++ [n].

(** The loop of [runMigrations] over the list [migrations]: per migration
    the [SELECT] of [isMigrationExecuted], then, for one that is not
    recorded, [up()] and the [INSERT] of [markMigrationExecuted]. A throw
    of any of the three ends the loop. *)
Fixpoint migrate (outage : Outage) (migrations : list Migration) (st : State)
  : State * result unit :=
  match migrations with
  | [] => (st, Ok tt)
  | m :: rest =>
      match outage 0%nat with
      | Some e => (st, Throw e)
      | None =>
          if isMigrationExecuted (name m) st then migrate (later 1 outage) rest st
          else
            match up m (db st) with
            | (d, Throw e) => ({| db := d; executed := executed st |}, Throw e)
            | (d, Ok _) =>
                match outage 1%nat with
                | Some e => ({| db := d; executed := executed st |}, Throw e)
                | None =>
                    migrate (later 2 outage) rest
                      {| db := d;
                         executed := markMigrationExecuted (name m) (executed st) |}
                end
            end
      end
  end.

(** [runMigrations()]: [createMigrationsTable()], then the loop. The
    tracking table is taken to exist in the state ([CREATE TABLE IF NOT
    EXISTS] leaves its rows alone). *)
Definition runMigrations (outage : Outage) (migrations : list Migration)
    (st : State) : State * result unit :=
  match outage 0%nat with
  | Some e => (st, Throw e)
  | None => migrate (later 1 outage) migrations st
  end.

(** [rollbackLastMigration()]: the [SELECT] of the latest row, [down()] of
    the migration it names, the [DELETE] of the row. *)
Definition rollbackLastMigration (outage : Outage) (migrations : list Migration)
    (st : State) : State * result unit :=
  match outage 0%nat with
  | Some e => (st, Throw e)
  | None =>
      match last (executed st) with
      | None => (st, Ok tt)
      | Some lastMigration =>
          match List.find (fun m => bool_decide (name m = lastMigration))
                  migrations with
          | None => (st, Ok tt)
          | Some m =>
              match down m (db st) with
              | (d, Throw e) => ({| db := d; executed := executed st |}, Throw e)
              | (d, Ok _) =>
                  match outage 1%nat with
                  | Some e => ({| db := d; executed := executed st |}, Throw e)
                  | None =>
                      ({| db := d;
                          executed := filter (fun n => n ≠ lastMigration)
                                        (executed st) |}, Ok tt)
                  end
              end
          end
      end
  end.

End WithSchema.

Arguments name {DB} _.
Arguments up {DB} _ _.
Arguments down {DB} _ _.
Arguments db {DB} _.
Arguments executed {DB} _.

(** The names of the list [migrations], in its order. *)
Definition migrationNames : list string :=
  ["001_create_markets"; "002_create_users"; "003_create_comments";
   "004_create_market_events"; "005_create_markets_history";
   "006_create_user_positions"; "007_create_external_data"].

End Migrations.

(** * Properties *)

(** ** The adapter: rate limiter and outcome mapping *)

Section SportsProperties.
Import Sports.

Lemma checkRateLimit_same_window rateLimit now c t0 :
  now - t0 ≤ windowMs ->
  checkRateLimit rateLimit now {| requestCount := c; requestWindowStart := t0 |}
  = if c >=? rateLimit
    then ({| requestCount := c; requestWindowStart := t0 |}, Throw RateLimitExceeded)
    else ({| requestCount := c + 1; requestWindowStart := t0 |}, Ok tt).
Proof.
  intros Hin. unfold checkRateLimit. cbn [requestWindowStart].
  destruct (Z.gtb_spec (now - t0) windowMs) as [Hgt|_]; [lia|].
  cbn [requestCount requestWindowStart]. reflexivity.
Qed.

Lemma requests_same_window rateLimit t0 times :
  Forall (fun t => t - t0 ≤ windowMs) times ->
  forall c,
    snd (requests rateLimit times
           {| requestCount := c; requestWindowStart := t0 |})
    = replicate (Z.to_nat (rateLimit - c) `min` length times) (Ok tt)
      ++ replicate (length times - Z.to_nat (rateLimit - c))
           (Throw RateLimitExceeded).
Proof.
  induction 1 as [|t times Ht _ IH]; intros c.
  - cbn. by rewrite Nat.min_0_r.
  - cbn [requests]. rewrite checkRateLimit_same_window by done.
    destruct (Z.geb_spec c rateLimit) as [Hge|Hlt].
    + specialize (IH c).
      destruct (requests rateLimit times _) as [s2 rs]. cbn in IH |- *.
      rewrite IH. replace (Z.to_nat (rateLimit - c)) with O by lia.
      cbn. by rewrite Nat.sub_0_r.
    + specialize (IH (c + 1)).
      destruct (requests rateLimit times _) as [s2 rs]. cbn in IH |- *.
      rewrite IH.
      replace (Z.to_nat (rateLimit - c))
        with (S (Z.to_nat (rateLimit - (c + 1)))) by lia.
      reflexivity.
Qed.

Lemma checkRateLimit_reset rateLimit now s :
  now - requestWindowStart s > windowMs -> 0 < rateLimit ->
  checkRateLimit rateLimit now s
  = ({| requestCount := 1; requestWindowStart := now |}, Ok tt).
Proof.
  intros Hgt Hpos. unfold checkRateLimit.
  destruct (Z.gtb_spec (now - requestWindowStart s) windowMs) as [_|Hle]; [|lia].
  cbn [requestCount requestWindowStart].
  destruct (Z.geb_spec 0 rateLimit) as [Hge|_]; [lia|]. reflexivity.
Qed.

Lemma makeRequest_over_budget rateLimit now http endpoint s :
  now - requestWindowStart s ≤ windowMs -> requestCount s >= rateLimit ->
  makeRequest rateLimit now http endpoint s = (s, Throw RateLimitExceeded).
Proof.
  intros Hin Hge. unfold makeRequest. destruct s as [c t0].
  cbn [requestCount requestWindowStart] in *.
  rewrite checkRateLimit_same_window by done.
  destruct (Z.geb_spec c rateLimit) as [_|Hlt]; [done|lia].
Qed.

(** C5, as the code has it. In a window that starts at [t0] with the counter
    at zero, of any calls made while [now - t0 <= windowMs] the first
    [rateLimit] pass and all later ones throw the rate-limit error; a
    request over budget throws without the provider being asked; and the
    counter is reset by the first call with [now - windowStart > windowMs],
    strictly: that call passes and opens a new window at [now]. *)
Theorem rate_limit_window (rateLimit t0 : Z) (times : list Z) :
  0 ≤ rateLimit ->
  Forall (fun t => t - t0 ≤ windowMs) times ->
  snd (requests rateLimit times {| requestCount := 0; requestWindowStart := t0 |})
  = replicate (Z.to_nat rateLimit `min` length times) (Ok tt)
    ++ replicate (length times - Z.to_nat rateLimit) (Throw RateLimitExceeded)
  ∧ (forall now http http' endpoint s,
       now - requestWindowStart s ≤ windowMs -> requestCount s >= rateLimit ->
       makeRequest rateLimit now http endpoint s = (s, Throw RateLimitExceeded)
       ∧ makeRequest rateLimit now http' endpoint s
         = makeRequest rateLimit now http endpoint s)
  ∧ (forall now s,
       now - requestWindowStart s > windowMs -> 0 < rateLimit ->
       checkRateLimit rateLimit now s
       = ({| requestCount := 1; requestWindowStart := now |}, Ok tt)).
Proof.
  intros Hpos Hin. split; [|split].
  - rewrite requests_same_window by done. by rewrite Z.sub_0_r.
  - intros now http http' endpoint s H1 H2.
    by rewrite !makeRequest_over_budget.
  - intros now s. apply checkRateLimit_reset.
Qed.

Lemma rate_limit_window_witness :
  snd (requests 2 [10; 20; 900000]
         {| requestCount := 0; requestWindowStart := 0 |})
  = [Ok tt; Ok tt; Throw RateLimitExceeded]
  ∧ checkRateLimit 2 900001 {| requestCount := 2; requestWindowStart := 0 |}
    = ({| requestCount := 1; requestWindowStart := 900001 |}, Ok tt).
Proof.
  assert (H0 : 0 ≤ 2) by lia.
  assert (Hin : Forall (fun t => t - 0 ≤ windowMs) [10; 20; 900000]).
  { repeat constructor; unfold windowMs; lia. }
  destruct (rate_limit_window 2 0 [10; 20; 900000] H0 Hin) as (Ha & _ & Hc).
  split.
  - exact Ha.
  - apply (Hc 900001 {| requestCount := 2; requestWindowStart := 0 |});
      cbn; unfold windowMs; lia.
Defined.

(** C5, as stated, fails on the boundary: with the budget used up, a call
    made exactly one full window (900000 ms) after the window start is still
    refused, and the counter is not reset. *)
Lemma rate_limit_no_reset_at_full_window :
  let s := {| requestCount := 2; requestWindowStart := 0 |} in
  900000 - requestWindowStart s = windowMs
  ∧ checkRateLimit 2 900000 s = (s, Throw RateLimitExceeded).
Proof. split; reflexivity. Qed.

End SportsProperties.

Section OutcomeMapping.
Import Sports.

(** Once the game id is present and the lookup yields a finished game,
    [resolveMarket] reports the mapped index. *)
Lemma resolveMarket_finished rateLimit now http isMarket md g s s' o :
  gameId md = Some g -> g ≠ "" ->
  getGameOutcome rateLimit now http isMarket g
    (default "nfl" (str_or (sport md) (Some "nfl"))) s = (s', Ok o) ->
  status o = finished ->
  resolveMarket rateLimit now http isMarket (Some md) s
  = (s', Ok (Resolved (mapOutcome md o) o)).
Proof.
  intros Hg Hne Hget Hfin. unfold resolveMarket.
  change (default empty_metadata (Some md)) with md.
  rewrite Hg. change (default "" (Some g)) with g. cbn [truthy_str].
  destruct (String.eqb_spec g "") as [->|_]; [done|]. cbn [negb].
  rewrite Hget, Hfin. reflexivity.
Qed.

(** C3, as the code has it. In [over_under] mode the summed score is compared
    with the threshold strictly: a sum above the threshold gives index 0, a
    sum equal to or below it gives index 1. ([spread] mode keeps the
    meets-or-exceeds comparison of the score difference.) *)
Theorem over_under_mapping (md : Metadata) (o : Outcome) :
  outcomeType md = Some "over_under" ->
  let total := homeScore o + awayScore o in
  let limit := num_or (threshold md) 0 in
  (total > limit -> mapOutcome md o = Some 0)
  ∧ (total ≤ limit -> mapOutcome md o = Some 1)
  ∧ (forall rateLimit now http isMarket g s s',
       gameId md = Some g -> g ≠ "" ->
       getGameOutcome rateLimit now http isMarket g
         (default "nfl" (str_or (sport md) (Some "nfl"))) s = (s', Ok o) ->
       status o = finished ->
       resolveMarket rateLimit now http isMarket (Some md) s
       = (s', Ok (Resolved (Some (if total >? limit then 0 else 1)) o))).
Proof.
  intros Hmode total limit.
  assert (Hmap : mapOutcome md o = Some (if total >? limit then 0 else 1)).
  { unfold mapOutcome. rewrite Hmode. reflexivity. }
  split; [|split].
  - intros Hgt. rewrite Hmap.
    destruct (Z.gtb_spec total limit); [done|lia].
  - intros Hle. rewrite Hmap.
    destruct (Z.gtb_spec total limit); [lia|done].
  - intros rateLimit now http isMarket g s s' Hg Hne Hget Hfin.
    rewrite <- Hmap. by apply (resolveMarket_finished _ _ _ _ md g).
Qed.

Lemma over_under_mapping_witness :
  let md := {| gameId := Some "g1"; sport := Some "nba";
               outcomeType := Some "over_under"; spread := None;
               threshold := Some 45 |} in
  mapOutcome md {| status := finished; homeScore := 30; awayScore := 21;
                   winner := Some home |} = Some 0.
Proof.
  intros md.
  apply (over_under_mapping md
           {| status := finished; homeScore := 30; awayScore := 21;
              winner := Some home |}).
  - reflexivity.
  - cbn. lia.
Defined.

(** C3, as stated, fails: with threshold 45 and final score 24:21 the sum
    equals the threshold, and the index is 1, not 0; the same numbers in
    [spread] mode (difference 3, spread 3) do give index 0. *)
Lemma over_under_sum_equal_to_threshold :
  let game := {| HomeTeamScore := Some 24; HomeScore := None;
                 AwayTeamScore := Some 21; AwayScore := None;
                 IsClosed := true; Status := Some "Final";
                 GameStatus := None |} in
  let o := {| status := finished; homeScore := 24; awayScore := 21;
              winner := Some home |} in
  let md := {| gameId := Some "g1"; sport := Some "nba";
               outcomeType := Some "over_under"; spread := None;
               threshold := Some 45 |} in
  let md' := {| gameId := Some "g1"; sport := Some "nba";
                outcomeType := Some "spread"; spread := Some 3;
                threshold := None |} in
  homeScore o + awayScore o = num_or (threshold md) 0
  ∧ mapOutcome md o = Some 1
  ∧ mapOutcome md o ≠ Some 0
  ∧ resolveMarket 10 0 (fun _ => Body (Single game)) (fun _ => false)
      (Some md) idle
    = ({| limiter := {| requestCount := 1; requestWindowStart := 0 |};
          outcomeRows := []; scheduleRows := [] |},
       Ok (Resolved (Some 1) o))
  ∧ homeScore o - awayScore o = num_or (spread md') 0
  ∧ mapOutcome md' o = Some 0.
Proof. repeat split; try reflexivity. discriminate. Qed.

Lemma extractGameOutcome_finished p :
  status (extractGameOutcome p) = finished ->
  winner (extractGameOutcome p)
  = Some (if homeScore (extractGameOutcome p) >? awayScore (extractGameOutcome p)
          then home
          else if awayScore (extractGameOutcome p) >? homeScore (extractGameOutcome p)
               then away else draw).
Proof.
  unfold extractGameOutcome.
  destruct (negb _); cbn [status winner homeScore awayScore]; [discriminate|].
  reflexivity.
Qed.

Lemma num_or_fields (primary alternative : option Z) (x : Z) :
  (primary = Some x ∧ (x ≠ 0 ∨ alternative = None))
  ∨ (primary = None ∧ alternative = Some x) ->
  num_or primary (num_or alternative 0) = x.
Proof.
  intros [[-> Hx]|[-> ->]]; cbn.
  - destruct (Z.eqb_spec x 0) as [->|]; [|done].
    destruct Hx as [?| ->]; done.
  - by destruct (Z.eqb_spec x 0) as [->|].
Qed.

Lemma extractGameOutcome_scores (d : GameData) (h a : Z) :
  (HomeTeamScore d = Some h ∧ (h ≠ 0 ∨ HomeScore d = None))
  ∨ (HomeTeamScore d = None ∧ HomeScore d = Some h) ->
  (AwayTeamScore d = Some a ∧ (a ≠ 0 ∨ AwayScore d = None))
  ∨ (AwayTeamScore d = None ∧ AwayScore d = Some a) ->
  IsClosed d = true ∨ Status d = Some "Final" ∨ GameStatus d = Some "Final" ->
  extractGameOutcome (Single d)
  = {| status := finished; homeScore := h; awayScore := a;
       winner := Some (if h >? a then home else if a >? h then away else draw) |}.
Proof.
  intros Hh Ha Hfin. unfold extractGameOutcome.
  rewrite (num_or_fields _ _ h Hh), (num_or_fields _ _ a Ha).
  assert (Hclosed : IsClosed d || is_Final (Status d) || is_Final (GameStatus d)
                    = true).
  { destruct Hfin as [->|[->| ->]]; cbn [is_Final]; [done|..].
    - by rewrite orb_true_r.
    - by rewrite !orb_true_r. }
  by rewrite Hclosed.
Qed.

(** C6. For a finished game whose payload reports the scores [h] (home) and
    [a] (away), in either pair of score fields, the outcome carries these
    scores, and [winner] mode maps a home lead to index 0, an away lead to
    index 1 and equal scores to winner [draw] and index 2. The index depends
    on nothing but the two scores: another payload of a finished game with
    the same scores gets the same index, an array payload is read at its
    first element, and [resolveMarket] hands on that index. *)
Theorem winner_mapping (md : Metadata) (d : GameData) (h a : Z) :
  outcomeType md = Some "winner" ->
  (HomeTeamScore d = Some h ∧ (h ≠ 0 ∨ HomeScore d = None))
  ∨ (HomeTeamScore d = None ∧ HomeScore d = Some h) ->
  (AwayTeamScore d = Some a ∧ (a ≠ 0 ∨ AwayScore d = None))
  ∨ (AwayTeamScore d = None ∧ AwayScore d = Some a) ->
  IsClosed d = true ∨ Status d = Some "Final" ∨ GameStatus d = Some "Final" ->
  let o := extractGameOutcome (Single d) in
  status o = finished ∧ homeScore o = h ∧ awayScore o = a
  ∧ (h > a -> winner o = Some home ∧ mapOutcome md o = Some 0)
  ∧ (a > h -> winner o = Some away ∧ mapOutcome md o = Some 1)
  ∧ (h = a -> winner o = Some draw ∧ mapOutcome md o = Some 2)
  ∧ (forall ds, extractGameOutcome (Many (d :: ds)) = o)
  ∧ (forall d',
       (HomeTeamScore d' = Some h ∧ (h ≠ 0 ∨ HomeScore d' = None))
       ∨ (HomeTeamScore d' = None ∧ HomeScore d' = Some h) ->
       (AwayTeamScore d' = Some a ∧ (a ≠ 0 ∨ AwayScore d' = None))
       ∨ (AwayTeamScore d' = None ∧ AwayScore d' = Some a) ->
       IsClosed d' = true ∨ Status d' = Some "Final"
       ∨ GameStatus d' = Some "Final" ->
       mapOutcome md (extractGameOutcome (Single d')) = mapOutcome md o)
  ∧ (forall rateLimit now http isMarket g s s',
       gameId md = Some g -> g ≠ "" ->
       getGameOutcome rateLimit now http isMarket g
         (default "nfl" (str_or (sport md) (Some "nfl"))) s = (s', Ok o) ->
       resolveMarket rateLimit now http isMarket (Some md) s
       = (s', Ok (Resolved
                    (Some (if h >? a then 0 else if a >? h then 1 else 2)) o))).
Proof.
  intros Hmode Hh Ha Hfin o.
  pose proof (extractGameOutcome_scores d h a Hh Ha Hfin) as Ho. fold o in Ho.
  assert (Hmap : forall q, mapOutcome md q
                 = match winner q with
                   | Some home => Some 0 | Some away => Some 1 | _ => Some 2
                   end).
  { intros q. unfold mapOutcome. by rewrite Hmode. }
  assert (Hidx : mapOutcome md o
                 = Some (if h >? a then 0 else if a >? h then 1 else 2)).
  { rewrite Hmap, Ho. cbn [winner].
    destruct (h >? a); [done|]. by destruct (a >? h). }
  split; [by rewrite Ho|]. split; [by rewrite Ho|]. split; [by rewrite Ho|].
  split; [|split; [|split; [|split; [|split]]]].
  - intros Hgt. rewrite Hidx, Ho. cbn [winner].
    destruct (Z.gtb_spec h a); [done|lia].
  - intros Hgt. rewrite Hidx, Ho. cbn [winner].
    destruct (Z.gtb_spec h a); [lia|].
    destruct (Z.gtb_spec a h); [done|lia].
  - intros Heq. rewrite Hidx, Ho. cbn [winner].
    destruct (Z.gtb_spec h a); [lia|].
    destruct (Z.gtb_spec a h); [lia|done].
  - done.
  - intros d' Hh' Ha' Hfin'.
    by rewrite (extractGameOutcome_scores d' h a Hh' Ha' Hfin'), <- Ho.
  - intros rateLimit now http isMarket g s s' Hg Hne Hget.
    rewrite <- Hidx. apply (resolveMarket_finished _ _ _ _ md g); try done.
    by rewrite Ho.
Qed.

Lemma winner_mapping_witness :
  let md := {| gameId := Some "g1"; sport := Some "nfl";
               outcomeType := Some "winner"; spread := None;
               threshold := None |} in
  let d := {| HomeTeamScore := Some 24; HomeScore := None;
              AwayTeamScore := Some 17; AwayScore := None;
              IsClosed := true; Status := Some "Final";
              GameStatus := None |} in
  winner (extractGameOutcome (Single d)) = Some home
  ∧ mapOutcome md (extractGameOutcome (Single d)) = Some 0.
Proof.
  intros md d.
  assert (Hmode : outcomeType md = Some "winner") by reflexivity.
  assert (Hh : (HomeTeamScore d = Some 24 ∧ (24 ≠ 0 ∨ HomeScore d = None))
               ∨ (HomeTeamScore d = None ∧ HomeScore d = Some 24)).
  { left. split; [reflexivity|]. left. discriminate. }
  assert (Ha : (AwayTeamScore d = Some 17 ∧ (17 ≠ 0 ∨ AwayScore d = None))
               ∨ (AwayTeamScore d = None ∧ AwayScore d = Some 17)).
  { left. split; [reflexivity|]. left. discriminate. }
  assert (Hfin : IsClosed d = true ∨ Status d = Some "Final"
                 ∨ GameStatus d = Some "Final").
  { left. reflexivity. }
  destruct (winner_mapping md d 24 17 Hmode Hh Ha Hfin)
    as (_ & _ & _ & Hhome & _).
  apply Hhome. lia.
Defined.

End OutcomeMapping.

(** ** The scheduler *)

Section ResolverProperties.
Import Store Resolver.

Lemma mapOutcome_unrecognized md o :
  Sports.outcomeType md ≠ Some "winner" ->
  Sports.outcomeType md ≠ Some "spread" ->
  Sports.outcomeType md ≠ Some "over_under" ->
  Sports.mapOutcome md o = None.
Proof.
  intros H1 H2 H3. unfold Sports.mapOutcome, Sports.is_mode.
  destruct (Sports.outcomeType md) as [t|]; [|done].
  destruct (String.eqb_spec t "winner") as [->|_]; [done|].
  destruct (String.eqb_spec t "spread") as [->|_]; [done|].
  destruct (String.eqb_spec t "over_under") as [->|_]; done.
Qed.

(** C4 does not hold of the code. A market whose mode is none of the three,
    here ["moneyline"], with a finished game (3:1): [resolveMarket] answers
    [resolved: true] with a [null] winning outcome, the scheduler does not
    skip, hands [resolveMarket(null)] to the RPC client, and marks the
    market resolved when that call returns. *)
Lemma unrecognized_mode_is_settled :
  let md := {| Sports.gameId := Some "g1"; Sports.sport := Some "nfl";
               Sports.outcomeType := Some "moneyline";
               Sports.spread := None; Sports.threshold := None |} in
  let game := {| Sports.HomeTeamScore := Some 3; Sports.HomeScore := None;
                 Sports.AwayTeamScore := Some 1; Sports.AwayScore := None;
                 Sports.IsClosed := true; Sports.Status := Some "Final";
                 Sports.GameStatus := None |} in
  let env := {| now := 1000; rateLimit := 10;
                http := fun _ => Sports.Body (Sports.Single game);
                writeContract := fun _ _ => Ok "0xreceipt" |} in
  let market := {| id := "0xM"; status := "active"; outcomeCount := 2;
                   resolutionTime := 500; metadata := Some md;
                   totalVolume := 0; totalLiquidity := 0 |} in
  let w := {| store := {| markets := {[ "0xM" := market ]}; events := [];
                          history := []; users := ∅ |};
              adapter := Sports.idle;
              submitted := [] |} in
  let o := {| Sports.status := Sports.finished; Sports.homeScore := 3;
              Sports.awayScore := 1; Sports.winner := Some Sports.home |} in
  snd (Sports.resolveMarket 10 1000 (http env) (Market_exists (store w))
         (Some md) (adapter w))
  = Ok (Sports.Resolved None o)
  ∧ snd (resolveMarketIfReady env market w) = Ok tt
  ∧ submitted (fst (resolveMarketIfReady env market w)) = [("0xM", None)]
  ∧ System.status_of "0xM" (store (fst (resolveMarketIfReady env market w)))
    = Some "resolved".
Proof. vm_compute. repeat split; reflexivity. Qed.

Lemma callResolveMarket_already_resolved env addr winning w e :
  writeContract env addr winning = Throw e -> already_resolved e = true ->
  callResolveMarket env addr winning w
  = ({| store := store w; adapter := adapter w;
        submitted := submitted w ++ [(addr, winning)] |}, Ok None).
Proof.
  intros Hw He. unfold callResolveMarket. by rewrite Hw, He.
Qed.

Lemma status_of_updateStatus mid st ms :
  is_Some (ms !! mid) ->
  status <$> Market_updateStatus mid st ms !! mid = Some st.
Proof.
  intros [m Hm]. unfold Market_updateStatus.
  rewrite lookup_alter_eq, Hm. reflexivity.
Qed.

(** C7. When the scheduler gets as far as submitting the settlement call
    and the call fails with an error whose message says the market is
    already resolved, the attempt ends normally (nothing is thrown), and the
    entity, which the store has, ends with status ['resolved']. *)
Theorem already_resolved_on_chain_is_success
    (env : Env) (market : Market) (w : World)
    (winning : option Z) (o : Sports.Outcome) (a' : Sports.Adapter) (e : Error) :
  status market ≠ "resolved" ->
  resolutionTime market ≤ now env ->
  Sports.resolveMarket (rateLimit env) (now env) (http env)
    (Market_exists (store w)) (metadata market) (adapter w)
  = (a', Ok (Sports.Resolved winning o)) ->
  writeContract env (id market) winning = Throw e ->
  already_resolved e = true ->
  is_Some (markets (store w) !! id market) ->
  snd (resolveMarketIfReady env market w) = Ok tt
  ∧ System.status_of (id market) (store (fst (resolveMarketIfReady env market w)))
    = Some "resolved"
  ∧ submitted (fst (resolveMarketIfReady env market w))
    = submitted w ++ [(id market, winning)].
Proof.
  intros Hst Htime Hres Hw He Hin. unfold resolveMarketIfReady.
  destruct (String.eqb_spec (status market) "resolved") as [|_]; [done|].
  destruct (Z.ltb_spec (now env) (resolutionTime market)) as [|_]; [lia|].
  rewrite Hres.
  rewrite (callResolveMarket_already_resolved env _ _ _ e Hw He).
  cbn. repeat split. unfold System.status_of. cbn.
  by apply status_of_updateStatus.
Qed.

Lemma already_resolved_on_chain_is_success_witness :
  let md := {| Sports.gameId := Some "g1"; Sports.sport := Some "nfl";
               Sports.outcomeType := Some "winner";
               Sports.spread := None; Sports.threshold := None |} in
  let o := {| Sports.status := Sports.finished; Sports.homeScore := 3;
              Sports.awayScore := 1; Sports.winner := Some Sports.home |} in
  let game := {| Sports.HomeTeamScore := Some 3; Sports.HomeScore := None;
                 Sports.AwayTeamScore := Some 1; Sports.AwayScore := None;
                 Sports.IsClosed := true; Sports.Status := Some "Final";
                 Sports.GameStatus := None |} in
  let env := {| now := 1000; rateLimit := 10;
                http := fun _ => Sports.Body (Sports.Single game);
                writeContract := fun _ _ =>
                  Throw (External "execution reverted: Market already resolved") |} in
  let market := {| id := "0xM"; status := "active"; outcomeCount := 3;
                   resolutionTime := 500; metadata := Some md;
                   totalVolume := 0; totalLiquidity := 0 |} in
  let w := {| store := {| markets := {[ "0xM" := market ]}; events := [];
                          history := []; users := ∅ |};
              adapter := Sports.idle;
              submitted := [] |} in
  snd (resolveMarketIfReady env market w) = Ok tt
  ∧ System.status_of "0xM" (store (fst (resolveMarketIfReady env market w)))
    = Some "resolved"
  ∧ submitted (fst (resolveMarketIfReady env market w)) = [("0xM", Some 0)].
Proof.
  intros md o game env market w.
  apply (already_resolved_on_chain_is_success env market w (Some 0) o
           {| Sports.limiter := {| Sports.requestCount := 1;
                                   Sports.requestWindowStart := 0 |};
              Sports.outcomeRows := []; Sports.scheduleRows := [] |}
           (External "execution reverted: Market already resolved")).
  - discriminate.
  - cbn. lia.
  - reflexivity.
  - reflexivity.
  - reflexivity.
  - exists market. reflexivity.
Defined.

End ResolverProperties.

Section UnsupportedSport.
Import Store Resolver.





End UnsupportedSport.

(** ** The indexer: what the handlers touch *)

Section StoreFacts.
Import Store.

Lemma create_keys e rows k :
  k ∈ key <$> MarketEvent_create e rows ↔ k ∈ key <$> rows ∨ k = key e.
Proof.
  unfold MarketEvent_create. case_decide as Hin.
  - split; [by left|]. intros [?| ->]; done.
  - rewrite fmap_app, elem_of_app. cbn. rewrite list_elem_of_singleton. done.
Qed.

Lemma create_duplicate e rows :
  key e ∈ key <$> rows -> MarketEvent_create e rows = rows.
Proof. intros Hin. unfold MarketEvent_create. by rewrite decide_True. Qed.

Lemma create_twice e e' rows :
  key e' = key e ->
  MarketEvent_create e' (MarketEvent_create e rows) = MarketEvent_create e rows.
Proof.
  intros Hk. apply create_duplicate. rewrite Hk, create_keys. by right.
Qed.

Lemma create_NoDup e rows :
  NoDup (key <$> rows) -> NoDup (key <$> MarketEvent_create e rows).
Proof.
  intros Hnd. unfold MarketEvent_create. case_decide as Hin; [done|].
  rewrite fmap_app. apply NoDup_app. split; [done|]. split.
  - intros k Hk Hk'. cbn in Hk'. apply list_elem_of_singleton in Hk'. by subst.
  - cbn. apply NoDup_singleton.
Qed.

Lemma no_row_without_key (rows : list EventRow) k :
  k ∉ key <$> rows -> filter (fun r => key r = k) rows = [].
Proof.
  induction rows as [|r rows IH]; intros Hk; [done|].
  rewrite fmap_cons, not_elem_of_cons in Hk. destruct Hk as [Hne Hk].
  rewrite filter_cons, decide_False by done. by apply IH.
Qed.

Lemma one_row_per_key (rows : list EventRow) k :
  NoDup (key <$> rows) -> k ∈ key <$> rows ->
  length (filter (fun r => key r = k) rows) = 1%nat.
Proof.
  induction rows as [|r rows IH]; intros Hnd Hin.
  - by apply elem_of_nil in Hin.
  - rewrite fmap_cons in Hnd, Hin. apply NoDup_cons in Hnd as [Hr Hnd].
    rewrite filter_cons. case_decide as Hk.
    + rewrite no_row_without_key; [done|]. by rewrite <- Hk.
    + apply elem_of_cons in Hin as [Heq|Hin]; [done|]. by apply IH.
Qed.

End StoreFacts.

Section HandlerFacts.
Import Store Indexer.

Variable updateStats : Z -> Z -> UserStats -> UserStats.
Variable cfg : Config.
Variable chain : Chain.

Lemma foldl_preserves {X P} (proj : State -> P) (f : State -> X -> State) xs :
  (forall st x, proj (f st x) = proj st) ->
  forall st, proj (foldl f st xs) = proj st.
Proof.
  intros Hf. induction xs as [|x xs IH]; intros st; [done|].
  cbn. by rewrite IH, Hf.
Qed.

Lemma foldl_gains {X K} (has : State -> K -> Prop) (f : State -> X -> State)
    (adds : X -> K -> Prop) xs :
  (forall st x k, has (f st x) k ↔ has st k ∨ adds x k) ->
  forall st k,
    has (foldl f st xs) k ↔ has st k ∨ ∃ x, x ∈ xs ∧ adds x k.
Proof.
  intros Hf. induction xs as [|x xs IH]; intros st k; cbn.
  - split; [by left|]. intros [?|(x & Hx & _)]; [done|]. by apply elem_of_nil in Hx.
  - rewrite IH, Hf. split.
    + intros [[?|?]|(y & Hy & ?)]; [by left|right..].
      * exists x. split; [left|done].
      * exists y. split; [by right|done].
    + intros [?|(y & Hy & ?)]; [by left; left|].
      apply elem_of_cons in Hy as [->|Hy]; [by left; right|].
      right. by exists y.
Qed.

Lemma foldl_adds {X A} (proj : State -> list A) (f : State -> X -> State)
    (adds : X -> A -> Prop) xs :
  (forall st x k, k ∈ proj (f st x) ↔ k ∈ proj st ∨ adds x k) ->
  forall st k,
    k ∈ proj (foldl f st xs) ↔ k ∈ proj st ∨ ∃ x, x ∈ xs ∧ adds x k.
Proof. apply (foldl_gains (fun st k => k ∈ proj st)). Qed.

Lemma updateMarketSnapshot_frame mid ts st :
  frame (updateMarketSnapshot chain mid ts st) = frame st.
Proof. unfold updateMarketSnapshot. by destruct (markets (db st) !! mid). Qed.

Lemma updateMarketSnapshot_rest mid ts st :
  let st' := updateMarketSnapshot chain mid ts st in
  events (db st') = events (db st) ∧ users (db st') = users (db st)
  ∧ marketContracts st' = marketContracts st ∧ errors st' = errors st.
Proof.
  unfold updateMarketSnapshot. destruct (markets (db st) !! mid); cbn; done.
Qed.

Lemma handleMarketEvent_frame eventType log st :
  frame (handleMarketEvent updateStats chain eventType log st) = frame st.
Proof.
  unfold handleMarketEvent.
  destruct (blockTime chain (logBlock log)) as [ts|]; [|done].
  set (st2 := set_db (set_users _) _).
  assert (H3 : frame (if is_trade eventType
                      then updateMarketSnapshot chain (address log) ts st2
                      else st2) = frame st).
  { destruct (is_trade eventType); [|done]. by rewrite updateMarketSnapshot_frame. }
  destruct (String.eqb eventType "MarketResolved"); exact H3.
Qed.

Lemma handleMarketEvent_watched eventType log st :
  marketContracts (handleMarketEvent updateStats chain eventType log st)
  = marketContracts st.
Proof.
  unfold handleMarketEvent.
  destruct (blockTime chain (logBlock log)) as [ts|]; [|done].
  set (st2 := set_db (set_users _) _).
  assert (H3 : marketContracts (if is_trade eventType
                      then updateMarketSnapshot chain (address log) ts st2
                      else st2) = marketContracts st).
  { destruct (is_trade eventType); [|done].
    by destruct (updateMarketSnapshot_rest (address log) ts st2) as (_ & _ & -> & _). }
  destruct (String.eqb eventType "MarketResolved"); exact H3.
Qed.

(** The ledger after [handleMarketEvent]: the first row is appended unless
    its key is taken; the second row of a ['MarketResolved'] log has the key
    of the first and is always dropped. *)
Lemma handleMarketEvent_events eventType log st :
  events (db (handleMarketEvent updateStats chain eventType log st))
  = match blockTime chain (logBlock log) with
    | Some ts => MarketEvent_create (eventRow eventType log ts) (events (db st))
    | None => events (db st)
    end.
Proof.
  unfold handleMarketEvent. destruct (blockTime chain (logBlock log)) as [ts|]; [|done].
  set (st2 := set_db (set_users _) _).
  assert (H2 : events (db st2)
               = MarketEvent_create (eventRow eventType log ts) (events (db st)))
    by done.
  assert (H3 : events (db (if is_trade eventType
                           then updateMarketSnapshot chain (address log) ts st2
                           else st2))
               = MarketEvent_create (eventRow eventType log ts) (events (db st))).
  { destruct (is_trade eventType); [|done].
    by destruct (updateMarketSnapshot_rest (address log) ts st2) as (-> & _). }
  destruct (String.eqb eventType "MarketResolved"); [|done].
  cbn. rewrite H3. by apply create_twice.
Qed.

Lemma handleMarketEvent_users eventType log st :
  users (db (handleMarketEvent updateStats chain eventType log st))
  = userStep updateStats chain (eventType, log) (users (db st)).
Proof.
  unfold handleMarketEvent, userStep. cbn [fst snd].
  destruct (blockTime chain (logBlock log)) as [ts|]; [|done].
  set (st2 := set_db (set_users _) _).
  assert (H3 : users (db (if is_trade eventType
                          then updateMarketSnapshot chain (address log) ts st2
                          else st2))
               = users (db st2)).
  { destruct (is_trade eventType); [|done].
    by destruct (updateMarketSnapshot_rest (address log) ts st2) as (_ & -> & _). }
  destruct (String.eqb eventType "MarketResolved"); cbn; by rewrite H3.
Qed.

Lemma handleMarketEvent_errors eventType log st :
  readable chain log ->
  errors (handleMarketEvent updateStats chain eventType log st) = errors st.
Proof.
  intros [ts Hts]. unfold handleMarketEvent. rewrite Hts.
  set (st2 := set_db (set_users _) _).
  assert (H3 : errors (if is_trade eventType
                       then updateMarketSnapshot chain (address log) ts st2
                       else st2) = errors st).
  { destruct (is_trade eventType); [|done].
    by destruct (updateMarketSnapshot_rest (address log) ts st2) as (_ & _ & _ & ->). }
  destruct (String.eqb eventType "MarketResolved"); cbn; by rewrite H3.
Qed.

Lemma handleMarketEvent_keys eventType log st k :
  k ∈ keys (handleMarketEvent updateStats chain eventType log st)
  ↔ k ∈ keys st ∨ (readable chain log ∧ k = logKey log).
Proof.
  unfold keys, readable. rewrite handleMarketEvent_events.
  destruct (blockTime chain (logBlock log)) as [ts|].
  - rewrite create_keys. split; (intros [?|?]; [by left|right]).
    + split; [by eexists|done].
    + by destruct H.
  - split; [by left|]. intros [?|[[? ?] _]]; done.
Qed.

Lemma handleMarketCreated_frame log st :
  frame (handleMarketCreated chain log st) = frame st.
Proof.
  unfold handleMarketCreated. destruct (blockTime chain (logBlock log)); [|done].
  by destruct (market_of (args log)).
Qed.

Lemma handleMarketCreated_users log st :
  users (db (handleMarketCreated chain log st)) = users (db st).
Proof.
  unfold handleMarketCreated. destruct (blockTime chain (logBlock log)); [|done].
  by destruct (market_of (args log)).
Qed.

Lemma handleMarketCreated_keys log st k :
  k ∈ keys (handleMarketCreated chain log st)
  ↔ k ∈ keys st
    ∨ (readable chain log ∧ is_Some (market_of (args log)) ∧ k = logKey log).
Proof.
  unfold keys, readable, handleMarketCreated.
  destruct (blockTime chain (logBlock log)) as [ts|].
  - destruct (market_of (args log)) as [mid|]; cbn.
    + rewrite create_keys. split; (intros [?|?]; [by left|right]).
      * by repeat split; try eexists.
      * by destruct H as (_ & _ & ->).
    + split; [by left|]. intros [?|(_ & [? ?] & _)]; done.
  - cbn. split; [by left|]. intros [?|([? ?] & _)]; done.
Qed.

Lemma handleMarketCreated_watched log st a :
  a ∈ marketContracts (handleMarketCreated chain log st)
  ↔ a ∈ marketContracts st
    ∨ (readable chain log ∧ market_of (args log) = Some a).
Proof.
  unfold readable, handleMarketCreated.
  destruct (blockTime chain (logBlock log)) as [ts|].
  - destruct (market_of (args log)) as [mid|]; cbn.
    + case_decide as Hin.
      * split; [by left|]. intros [?|[_ [= <-]]]; done.
      * rewrite elem_of_app, list_elem_of_singleton.
        split; (intros [?|?]; [by left|right]).
        -- subst. split; [by eexists|done].
        -- destruct H as [_ [= ->]]. done.
    + split; [by left|]. intros [?|[_ ?]]; done.
  - cbn. split; [by left|]. intros [?|[[? ?] _]]; done.
Qed.

(** Handling a creation log again: nothing is added to the ledger or to the
    watched contracts. *)
Lemma handleMarketCreated_again log st :
  (readable chain log -> is_Some (market_of (args log)) ->
   logKey log ∈ keys st) ->
  (forall a, readable chain log -> market_of (args log) = Some a ->
             a ∈ marketContracts st) ->
  events (db (handleMarketCreated chain log st)) = events (db st)
  ∧ marketContracts (handleMarketCreated chain log st) = marketContracts st.
Proof.
  unfold readable, handleMarketCreated. intros Hk Hw.
  destruct (blockTime chain (logBlock log)) as [ts|]; [|done].
  destruct (market_of (args log)) as [mid|]; [|done]. cbn. split.
  - apply create_duplicate. apply Hk; by eexists.
  - rewrite decide_True; [done|]. apply Hw; [by eexists|done].
Qed.

End HandlerFacts.

(** ** The indexer: one pass over a block range *)

Section PassFacts.
Import Store Indexer.

Variable updateStats : Z -> Z -> UserStats -> UserStats.
Variable cfg : Config.
Variable chain : Chain.

(** *** Logged errors commute with the handlers *)

Lemma log_errors_eq n st :
  log_errors n st
  = {| isRunning := isRunning st; lastProcessedBlock := lastProcessedBlock st;
       marketContracts := marketContracts st; db := db st;
       errors := (n + errors st)%nat; cursorTrace := cursorTrace st |}.
Proof.
  induction n as [|n IH]; [by destruct st|].
  change (log_errors (S n) st) with (log_error (log_errors n st)).
  by rewrite IH.
Qed.

Lemma log_errors_add n m st :
  log_errors n (log_errors m st) = log_errors (m + n) st.
Proof. rewrite !log_errors_eq. cbn. f_equal. lia. Qed.

Lemma log_errors_frame n st : frame (log_errors n st) = frame st.
Proof. by rewrite log_errors_eq. Qed.

Lemma log_errors_db n st : db (log_errors n st) = db st.
Proof. by rewrite log_errors_eq. Qed.

Lemma log_errors_watched n st :
  marketContracts (log_errors n st) = marketContracts st.
Proof. by rewrite log_errors_eq. Qed.

Lemma log_errors_errors n st : errors (log_errors n st) = (n + errors st)%nat.
Proof. by rewrite log_errors_eq. Qed.

Lemma handleMarketEvent_log_error eventType log st :
  handleMarketEvent updateStats chain eventType log (log_error st)
  = log_error (handleMarketEvent updateStats chain eventType log st).
Proof.
  unfold handleMarketEvent.
  destruct (blockTime chain (logBlock log)) as [ts|]; [|done].
  unfold updateMarketSnapshot. cbn.
  destruct (is_trade eventType);
    [destruct (markets (db st) !! address log)|];
    by destruct (String.eqb eventType "MarketResolved").
Qed.

Lemma handleAll_log_errors n els : forall st,
  handleAll updateStats chain els (log_errors n st)
  = log_errors n (handleAll updateStats chain els st).
Proof.
  induction n as [|n IH]; intros st; [done|].
  change (log_errors (S n) st) with (log_error (log_errors n st)).
  change (log_errors (S n) (handleAll updateStats chain els st))
    with (log_error (log_errors n (handleAll updateStats chain els st))).
  rewrite <- IH. generalize (log_errors n st). clear. intros st.
  revert st. induction els as [|el els IH]; intros st; [done|].
  unfold handleAll in *. cbn [foldl].
  by rewrite handleMarketEvent_log_error, IH.
Qed.

Lemma handleAll_app els1 els2 st :
  handleAll updateStats chain (els1 ++ els2) st
  = handleAll updateStats chain els2 (handleAll updateStats chain els1 st).
Proof. unfold handleAll. by rewrite foldl_app. Qed.

(** *** A pass in phases *)

Lemma foldl_units {X} (lo hi : Z) (f : State -> X -> State)
    (h : X -> list (string * string)) (g : X -> list (string * Log)) xs :
  (forall st x,
     f st x
     = log_errors
         (length (filter (fun q => loggedFault chain lo hi q = true) (h x)))
         (handleAll updateStats chain (g x) st)) ->
  forall st,
    foldl f st xs
    = log_errors
        (length (filter (fun q => loggedFault chain lo hi q = true) (xs ≫= h)))
        (handleAll updateStats chain (xs ≫= g) st).
Proof.
  intros Hf. induction xs as [|x xs IH]; intros st; [done|].
  cbn [foldl]. rewrite IH, Hf, !bind_cons, filter_app, length_app.
  by rewrite handleAll_app, handleAll_log_errors, log_errors_add.
Qed.

Lemma indexEventType_phases a eventName lo hi st :
  indexEventType updateStats chain a eventName lo hi st
  = log_errors
      (length (filter (fun q => loggedFault chain lo hi q = true)
                 [(a, eventName)]))
      (handleAll updateStats chain
         ((fun l => (eventName, l)) <$> answered chain a eventName lo hi) st).
Proof.
  unfold indexEventType, answered, getContractLogs, loggedFault, handleAll.
  rewrite filter_cons, filter_nil. cbn [fst snd].
  destruct (logsFault chain a eventName lo hi) as [e|].
  - destruct (includes "not found" (message e)); cbn [negb].
    + by rewrite decide_False.
    + by rewrite decide_True.
  - rewrite decide_False by done. by rewrite foldl_fmap.
Qed.

Lemma indexMarketEvents_phases a lo hi st :
  indexMarketEvents updateStats chain a lo hi st
  = log_errors
      (length (filter (fun q => loggedFault chain lo hi q = true)
                 (marketQueries [a])))
      (handleAll updateStats chain (marketLogs chain lo hi [a]) st).
Proof.
  replace (marketQueries [a])
    with (marketEventKinds ≫= (fun eventName => [(a, eventName)]))
    by (unfold marketQueries; rewrite bind_cons; symmetry; apply app_nil_r).
  replace (marketLogs chain lo hi [a])
    with (marketEventKinds ≫=
            (fun eventName =>
               (fun l => (eventName, l)) <$> answered chain a eventName lo hi))
    by (unfold marketLogs; rewrite bind_cons; symmetry; apply app_nil_r).
  unfold indexMarketEvents.
  apply (foldl_units lo hi
           (fun s eventName => indexEventType updateStats chain a eventName lo hi s)
           (fun eventName => [(a, eventName)])
           (fun eventName =>
              (fun l => (eventName, l)) <$> answered chain a eventName lo hi)).
  intros st' ev. apply indexEventType_phases.
Qed.

Lemma marketQueries_cons a ws :
  marketQueries (a :: ws) = marketQueries [a] ++ marketQueries ws.
Proof.
  unfold marketQueries. rewrite !bind_cons. by f_equal.
Qed.

Lemma marketLogs_cons a lo hi ws :
  marketLogs chain lo hi (a :: ws)
  = marketLogs chain lo hi [a] ++ marketLogs chain lo hi ws.
Proof.
  unfold marketLogs. rewrite !bind_cons. f_equal. symmetry. apply app_nil_r.
Qed.

Lemma indexAll_phases lo hi ws : forall st,
  foldl (fun s a => indexMarketEvents updateStats chain a lo hi s) st ws
  = log_errors
      (length (filter (fun q => loggedFault chain lo hi q = true)
                 (marketQueries ws)))
      (handleAll updateStats chain (marketLogs chain lo hi ws) st).
Proof.
  induction ws as [|a ws IH]; intros st; [done|].
  cbn [foldl]. rewrite IH, indexMarketEvents_phases.
  rewrite (marketQueries_cons a ws), (marketLogs_cons a lo hi ws).
  rewrite filter_app, length_app.
  by rewrite handleAll_app, handleAll_log_errors, log_errors_add.
Qed.

(** A pass is its creation phase, then the handling of the logs the market
    queries returned, with one error logged per query whose failure is
    logged. *)
Lemma processBlockRange_phases lo hi st :
  processBlockRange updateStats cfg chain lo hi st
  = log_errors
      (length (filter (fun q => loggedFault chain lo hi q = true)
                 (marketQueries
                    (marketContracts (createdPhase cfg chain lo hi st)))))
      (handleAll updateStats chain
         (marketLogs chain lo hi
            (marketContracts (createdPhase cfg chain lo hi st)))
         (createdPhase cfg chain lo hi st)).
Proof.
  unfold processBlockRange. fold (createdPhase cfg chain lo hi st).
  apply indexAll_phases.
Qed.

Lemma createdPhase_phases lo hi st :
  createdPhase cfg chain lo hi st
  = log_errors (if factoryFault cfg chain lo hi then 1 else 0)
      (foldl (fun s log => handleMarketCreated chain log s) st
         (factoryLogs cfg chain lo hi)).
Proof.
  unfold createdPhase, factoryLogs, factoryFault, indexMarketCreatedEvents,
    answered, getContractLogs.
  destruct (marketFactory cfg) as [f|]; [|done].
  destruct (truthy_str (Some f)); [|done]. cbn [andb].
  destruct (logsFault chain f "MarketCreated" lo hi) as [e|].
  - by rewrite bool_decide_eq_true_2 by by eexists.
  - by rewrite bool_decide_eq_false_2 by by intros [? ?].
Qed.

Lemma handleAll_frame els st :
  frame (handleAll updateStats chain els st) = frame st.
Proof.
  apply (foldl_preserves frame). intros. apply handleMarketEvent_frame.
Qed.

Lemma handleAll_watched els st :
  marketContracts (handleAll updateStats chain els st) = marketContracts st.
Proof.
  apply (foldl_preserves marketContracts). intros. apply handleMarketEvent_watched.
Qed.

Lemma handleAll_users els : forall st,
  users (db (handleAll updateStats chain els st))
  = foldl (fun us el => userStep updateStats chain el us) (users (db st)) els.
Proof.
  induction els as [|[et l] els IH]; intros st; [done|].
  cbn [foldl handleAll]. unfold handleAll in IH. rewrite IH.
  by rewrite handleMarketEvent_users.
Qed.

Lemma handleAll_keys els st k :
  k ∈ keys (handleAll updateStats chain els st)
  ↔ k ∈ keys st ∨ ∃ el, el ∈ els ∧ readable chain el.2 ∧ k = logKey el.2.
Proof.
  apply (foldl_adds keys _ (fun el k => readable chain el.2 ∧ k = logKey el.2)).
  intros. apply handleMarketEvent_keys.
Qed.

(** Handling logs whose keys are all stored leaves the ledger as it is. *)
Lemma handleAll_again els : forall st,
  (forall el, el ∈ els -> readable chain el.2 -> logKey el.2 ∈ keys st) ->
  events (db (handleAll updateStats chain els st)) = events (db st).
Proof.
  induction els as [|[et l] els IH]; intros st Hk; [done|].
  assert (H1 : events (db (handleMarketEvent updateStats chain et l st))
               = events (db st)).
  { rewrite handleMarketEvent_events.
    destruct (blockTime chain (logBlock l)) as [ts|] eqn:Hts; [|done].
    apply create_duplicate. apply (Hk (et, l)); [left|by eexists]. }
  cbn [foldl handleAll fst snd]. unfold handleAll in IH. rewrite IH; [done|].
  intros el Hel Hr. unfold keys. rewrite H1. apply Hk; [by right|done].
Qed.

(** *** The logs a pass gets *)

Lemma elem_of_logsIn l a eventName lo hi :
  l ∈ logsIn chain a eventName lo hi
  ↔ l ∈ logs chain ∧ address l = a ∧ event l = eventName
    ∧ lo ≤ logBlock l ∧ logBlock l ≤ hi.
Proof.
  unfold logsIn. rewrite list_elem_of_filter.
  split; [intros [(? & ? & ? & ?) ?]|intros (? & ? & ? & ? & ?)]; done.
Qed.

Lemma elem_of_answered l a eventName lo hi :
  l ∈ answered chain a eventName lo hi
  ↔ logsFault chain a eventName lo hi = None
    ∧ l ∈ logs chain ∧ address l = a ∧ event l = eventName
    ∧ lo ≤ logBlock l ∧ logBlock l ≤ hi.
Proof.
  unfold answered, getContractLogs.
  destruct (logsFault chain a eventName lo hi) as [e|].
  - split; [by intros ?%elem_of_nil|by intros [? _]].
  - rewrite elem_of_logsIn. split; [done|by intros [_ ?]].
Qed.

Lemma marketKind_spec e : e ∈ marketEventKinds ↔ marketKind e.
Proof.
  clear updateStats. unfold marketEventKinds, marketKind.
  rewrite !elem_of_cons, elem_of_nil. tauto.
Qed.

Lemma elem_of_marketLogs el lo hi ws :
  el ∈ marketLogs chain lo hi ws
  ↔ address el.2 ∈ ws ∧ el.1 = event el.2 ∧ el.2 ∈ logs chain
    ∧ marketKind (event el.2) ∧ lo ≤ logBlock el.2 ∧ logBlock el.2 ≤ hi
    ∧ logsFault chain (address el.2) (event el.2) lo hi = None.
Proof.
  unfold marketLogs. rewrite list_elem_of_bind. split.
  - intros (a & Hel & Ha). apply list_elem_of_bind in Hel as (et & Hel & Het).
    apply list_elem_of_fmap in Hel as (l & -> & Hl).
    apply elem_of_answered in Hl as (? & ? & <- & <- & ? & ?).
    apply marketKind_spec in Het. done.
  - destruct el as [et l]. cbn [fst snd]. intros (Ha & -> & Hl & Het & ? & ? & ?).
    exists (address l). split; [|done]. apply list_elem_of_bind.
    exists (event l). split; [|by apply marketKind_spec]. apply list_elem_of_fmap.
    exists l. split; [done|]. by apply elem_of_answered.
Qed.

Lemma marketLogs_Emitted lo hi ws k :
  healthy chain ->
  (∃ el, el ∈ marketLogs chain lo hi ws ∧ readable chain el.2 ∧ k = logKey el.2)
  ↔ ∃ a l, a ∈ ws ∧ Emitted chain lo hi a l ∧ k = logKey l.
Proof.
  intros Hh. split.
  - intros (el & Hel & Hr & ->).
    apply elem_of_marketLogs in Hel as (? & ? & ? & ? & ? & ? & _).
    exists (address el.2), el.2. by repeat split.
  - intros (a & l & Ha & (? & <- & ? & ? & ? & ?) & ->).
    exists (event l, l). split; [|done]. apply elem_of_marketLogs.
    by repeat split.
Qed.

Lemma Created_Delivered lo hi c :
  healthy chain -> Created cfg chain lo hi c ↔ Delivered cfg chain lo hi c.
Proof.
  intros Hh. unfold Created, Delivered, factoryLogs. cbn [truthy_str]. split.
  - intros (f & -> & Hne & ? & ? & ? & ? & ? & ? & ?).
    destruct (String.eqb_spec f "") as [|_]; [done|]. cbn [negb].
    split; [|done]. apply elem_of_answered. by repeat split.
  - intros (Hc & ? & ?). destruct (marketFactory cfg) as [f|];
      [|by apply elem_of_nil in Hc].
    destruct (String.eqb_spec f "") as [|Hne]; cbn [negb] in Hc;
      [by apply elem_of_nil in Hc|].
    apply elem_of_answered in Hc as (_ & ? & ? & ? & ? & ?).
    by exists f.
Qed.

(** *** The creation phase *)

Lemma createdPhase_frame lo hi st :
  frame (createdPhase cfg chain lo hi st) = frame st.
Proof.
  rewrite createdPhase_phases, log_errors_frame.
  apply (foldl_preserves frame). intros. apply handleMarketCreated_frame.
Qed.

Lemma createdPhase_users lo hi st :
  users (db (createdPhase cfg chain lo hi st)) = users (db st).
Proof.
  rewrite createdPhase_phases, log_errors_db.
  apply (foldl_preserves (fun s => users (db s))).
  intros. apply handleMarketCreated_users.
Qed.

Lemma createdPhase_keys lo hi st k :
  k ∈ keys (createdPhase cfg chain lo hi st)
  ↔ k ∈ keys st ∨ ∃ c, Delivered cfg chain lo hi c ∧ k = logKey c.
Proof.
  rewrite createdPhase_phases. unfold keys at 1. rewrite log_errors_db.
  fold (keys (foldl (fun s log => handleMarketCreated chain log s) st
                (factoryLogs cfg chain lo hi))).
  rewrite (foldl_adds keys _
             (fun c k => readable chain c ∧ is_Some (market_of (args c))
                         ∧ k = logKey c))
    by (intros; apply handleMarketCreated_keys).
  clear updateStats.
  unfold Delivered. split; (intros [?|(c & Hc)]; [by left|right]); exists c; tauto.
Qed.

Lemma createdPhase_watched lo hi st a :
  a ∈ marketContracts (createdPhase cfg chain lo hi st)
  ↔ a ∈ marketContracts st
    ∨ ∃ c, Delivered cfg chain lo hi c ∧ market_of (args c) = Some a.
Proof.
  rewrite createdPhase_phases, log_errors_watched.
  rewrite (foldl_adds marketContracts _
             (fun c a => readable chain c ∧ market_of (args c) = Some a))
    by (intros; apply handleMarketCreated_watched).
  clear updateStats.
  unfold Delivered. split; (intros [?|(c & Hc)]; [by left|right]); exists c.
  - destruct Hc as (? & ? & Hm). rewrite Hm. by repeat split.
  - tauto.
Qed.

Lemma handleMarketCreated_stored log st a :
  is_Some (markets (db (handleMarketCreated chain log st)) !! a)
  ↔ is_Some (markets (db st) !! a)
    ∨ (readable chain log ∧ market_of (args log) = Some a).
Proof.
  unfold readable, handleMarketCreated.
  destruct (blockTime chain (logBlock log)) as [ts|].
  - destruct (market_of (args log)) as [mid|]; cbn.
    + unfold Market_upsert.
      destruct (markets (db st) !! mid) as [m|] eqn:Hm.
      * split; [by left|]. intros [?|[_ [= <-]]]; [done|by rewrite Hm].
      * destruct (decide (mid = a)) as [->|Hne].
        -- rewrite lookup_insert_eq. split; [|by eexists].
           intros _. right. split; [by eexists|done].
        -- rewrite lookup_insert_ne by done.
           split; [by left|]. intros [?|[_ [= ?]]]; done.
    + split; [by left|]. intros [?|[_ ?]]; done.
  - cbn. split; [by left|]. intros [?|[[? ?] _]]; done.
Qed.

Lemma createdPhase_stored lo hi st a :
  is_Some (markets (db (createdPhase cfg chain lo hi st)) !! a)
  ↔ is_Some (markets (db st) !! a)
    ∨ ∃ c, Delivered cfg chain lo hi c ∧ market_of (args c) = Some a.
Proof.
  rewrite createdPhase_phases, log_errors_db.
  rewrite (foldl_gains (fun s a => is_Some (markets (db s) !! a)) _
             (fun c a => readable chain c ∧ market_of (args c) = Some a))
    by (intros; apply handleMarketCreated_stored).
  clear updateStats.
  unfold Delivered. split; (intros [?|(c & Hc)]; [by left|right]); exists c.
  - destruct Hc as (? & ? & Hm). rewrite Hm. by repeat split.
  - tauto.
Qed.

(** Handling a creation log again: nothing is added to the ledger or to the
    watched contracts, and the [markets] table stays as it is. *)
Lemma handleMarketCreated_once_more log st :
  (readable chain log -> is_Some (market_of (args log)) ->
   logKey log ∈ keys st) ->
  (forall a, readable chain log -> market_of (args log) = Some a ->
             a ∈ marketContracts st ∧ is_Some (markets (db st) !! a)) ->
  events (db (handleMarketCreated chain log st)) = events (db st)
  ∧ marketContracts (handleMarketCreated chain log st) = marketContracts st
  ∧ markets (db (handleMarketCreated chain log st)) = markets (db st).
Proof.
  unfold readable, handleMarketCreated. intros Hk Hw.
  destruct (blockTime chain (logBlock log)) as [ts|]; [|done].
  destruct (market_of (args log)) as [mid|]; [|done]. cbn.
  destruct (Hw mid) as [Hin [m Hm]]; [by eexists|done|].
  split; [|split].
  - apply create_duplicate. apply Hk; by eexists.
  - by rewrite decide_True.
  - unfold Market_upsert. by rewrite Hm.
Qed.

Lemma createdPhase_again lo hi st :
  (forall c, Delivered cfg chain lo hi c -> logKey c ∈ keys st) ->
  (forall c a, Delivered cfg chain lo hi c -> market_of (args c) = Some a ->
               a ∈ marketContracts st ∧ is_Some (markets (db st) !! a)) ->
  events (db (createdPhase cfg chain lo hi st)) = events (db st)
  ∧ marketContracts (createdPhase cfg chain lo hi st) = marketContracts st
  ∧ markets (db (createdPhase cfg chain lo hi st)) = markets (db st).
Proof.
  intros Hk Hw. rewrite createdPhase_phases, log_errors_db, log_errors_watched.
  assert (Hall : forall c, c ∈ factoryLogs cfg chain lo hi ->
                   readable chain c -> is_Some (market_of (args c)) ->
                   Delivered cfg chain lo hi c) by done.
  revert Hall. generalize (factoryLogs cfg chain lo hi).
  intros cs. revert st Hk Hw.
  induction cs as [|c cs IH]; intros st Hk Hw Hall; [done|]. cbn [foldl].
  destruct (handleMarketCreated_once_more c st) as (He & Hm & Hs).
  { intros Hr Hs. apply Hk, Hall; [left|done..]. }
  { intros a Hr Hs. apply (Hw c); [|done]. apply Hall; [left|done|by eexists]. }
  rewrite <- He, <- Hm, <- Hs. apply IH.
  - intros c' Hc'. unfold keys. rewrite He. by apply Hk.
  - intros c' a Hc' Ha. rewrite Hm, Hs. by apply (Hw c').
  - intros c' Hc'. apply Hall. by right.
Qed.

(** *** What a pass leaves *)

Lemma processBlockRange_frame lo hi st :
  frame (processBlockRange updateStats cfg chain lo hi st) = frame st.
Proof.
  by rewrite processBlockRange_phases, log_errors_frame, handleAll_frame,
    createdPhase_frame.
Qed.

Lemma processBlockRange_watches lo hi st :
  marketContracts (processBlockRange updateStats cfg chain lo hi st)
  = marketContracts (createdPhase cfg chain lo hi st).
Proof.
  by rewrite processBlockRange_phases, log_errors_watched, handleAll_watched.
Qed.

Lemma processBlockRange_watched lo hi st a :
  a ∈ marketContracts (processBlockRange updateStats cfg chain lo hi st)
  ↔ a ∈ marketContracts st
    ∨ ∃ c, Delivered cfg chain lo hi c ∧ market_of (args c) = Some a.
Proof. rewrite processBlockRange_watches. apply createdPhase_watched. Qed.

(** The ledger after a pass: what was there, the creation logs the pass
    got, and the logs it got from the contracts watched at its end. *)
Lemma processBlockRange_keys lo hi st k :
  k ∈ keys (processBlockRange updateStats cfg chain lo hi st)
  ↔ k ∈ keys st
    ∨ (∃ c, Delivered cfg chain lo hi c ∧ k = logKey c)
    ∨ (∃ el, el ∈ marketLogs chain lo hi
                     (marketContracts
                        (processBlockRange updateStats cfg chain lo hi st))
              ∧ readable chain el.2 ∧ k = logKey el.2).
Proof.
  rewrite processBlockRange_watches.
  rewrite processBlockRange_phases. unfold keys at 1. rewrite log_errors_db.
  fold (keys (handleAll updateStats chain
                (marketLogs chain lo hi
                   (marketContracts (createdPhase cfg chain lo hi st)))
                (createdPhase cfg chain lo hi st))).
  rewrite handleAll_keys, createdPhase_keys. tauto.
Qed.

Lemma handleAll_NoDup els : forall st,
  NoDup (keys st) -> NoDup (keys (handleAll updateStats chain els st)).
Proof.
  induction els as [|[et l] els IH]; intros st Hnd; [done|].
  cbn [foldl handleAll fst snd]. apply IH. unfold keys.
  rewrite handleMarketEvent_events.
  destruct (blockTime chain (logBlock l)); [|done]. by apply create_NoDup.
Qed.

Lemma processBlockRange_NoDup lo hi st :
  NoDup (keys st) ->
  NoDup (keys (processBlockRange updateStats cfg chain lo hi st)).
Proof.
  intros Hnd. rewrite processBlockRange_phases. unfold keys.
  rewrite log_errors_db. apply handleAll_NoDup.
  rewrite createdPhase_phases. unfold keys. rewrite log_errors_db.
  generalize (factoryLogs cfg chain lo hi). intros cs.
  revert st Hnd. induction cs as [|c cs IH]; intros st Hnd; [done|].
  cbn [foldl]. apply IH. unfold keys, handleMarketCreated.
  destruct (blockTime chain (logBlock c)); [|done].
  destruct (market_of (args c)); [|done]. cbn. by apply create_NoDup.
Qed.

(** With every query answered, a pass gets the logs the chain has. *)
Lemma processBlockRange_watched_healthy lo hi st a :
  healthy chain ->
  a ∈ marketContracts (processBlockRange updateStats cfg chain lo hi st)
  ↔ a ∈ marketContracts st
    ∨ ∃ c, Created cfg chain lo hi c ∧ market_of (args c) = Some a.
Proof.
  intros Hh. rewrite processBlockRange_watched.
  split; (intros [?|(c & Hc & ?)]; [by left|right]); exists c;
    (split; [by apply Created_Delivered|done]).
Qed.

Lemma processBlockRange_keys_healthy lo hi st k :
  healthy chain ->
  k ∈ keys (processBlockRange updateStats cfg chain lo hi st)
  ↔ k ∈ keys st
    ∨ (∃ c, Created cfg chain lo hi c ∧ k = logKey c)
    ∨ (∃ a l, a ∈ marketContracts (processBlockRange updateStats cfg chain lo hi st)
              ∧ Emitted chain lo hi a l ∧ k = logKey l).
Proof.
  intros Hh. rewrite processBlockRange_keys, (marketLogs_Emitted _ _ _ _ Hh).
  split; (intros [?|[(c & Hc & ?)|?]]; [by left| |by right; right]);
    right; left; exists c; (split; [by apply Created_Delivered|done]).
Qed.

(** *** The [markets] table under the market logs *)

Lemma alter_absent {A} (f : A -> A) (k : string) (m : gmap string A) :
  m !! k = None -> alter f k m = m.
Proof.
  intros Hk. apply map_eq. intros k'. destruct (decide (k = k')) as [<-|Hne].
  - by rewrite lookup_alter_eq, Hk.
  - by rewrite lookup_alter_ne.
Qed.

Lemma handleMarketEvent_markets eventType log st :
  markets (db (handleMarketEvent updateStats chain eventType log st))
  = marketStep chain (eventType, log) (markets (db st)).
Proof.
  unfold handleMarketEvent, marketStep. cbn [fst snd].
  destruct (blockTime chain (logBlock log)) as [ts|]; [|done].
  set (st2 := set_db (set_users _) _).
  assert (H3 : markets (db (if is_trade eventType
                            then updateMarketSnapshot chain (address log) ts st2
                            else st2))
               = if is_trade eventType
                 then Market_updateVolume (address log)
                        (default 0 (chainVolume chain (address log)))
                        (default 0 (chainLiquidity chain (address log)))
                        (markets (db st))
                 else markets (db st)).
  { destruct (is_trade eventType); [|done]. unfold updateMarketSnapshot.
    change (markets (db st2)) with (markets (db st)).
    destruct (markets (db st) !! address log) as [m|] eqn:Hm; [done|].
    unfold Market_updateVolume. by rewrite alter_absent. }
  destruct (String.eqb eventType "MarketResolved"); cbn; by rewrite H3.
Qed.

Lemma handleAll_markets els : forall st,
  markets (db (handleAll updateStats chain els st))
  = foldl (fun ms el => marketStep chain el ms) (markets (db st)) els.
Proof.
  induction els as [|[et l] els IH]; intros st; [done|].
  cbn [foldl handleAll]. unfold handleAll in IH. rewrite IH.
  by rewrite handleMarketEvent_markets.
Qed.

Lemma update_andThen u v m : update (andThen u v) m = update u (update v m).
Proof.
  unfold update, andThen. cbn [resolves newTotals].
  destruct u as [[] [[v1 l1]|]], v as [[] [[v2 l2]|]]; reflexivity.
Qed.

Lemma update_twice u m : update u (update u m) = update u m.
Proof. unfold update. destruct u as [[] [[v l]|]]; reflexivity. Qed.

Lemma marketStep_update el k :
  ∃ u, forall ms, marketStep chain el ms !! k = update u <$> ms !! k.
Proof.
  unfold marketStep.
  assert (Hid : forall ms : gmap string Market,
            ms !! k = update {| resolves := false; newTotals := None |} <$> ms !! k).
  { intros ms. by destruct (ms !! k). }
  destruct (blockTime chain (logBlock el.2)); [|by eexists].
  destruct (decide (address el.2 = k)) as [<-|Hne].
  - exists {| resolves := String.eqb el.1 "MarketResolved";
              newTotals :=
                if is_trade el.1
                then Some (default 0 (chainVolume chain (address el.2)),
                           default 0 (chainLiquidity chain (address el.2)))
                else None |}.
    intros ms. unfold Market_updateVolume, Market_updateStatus.
    destruct (is_trade el.1), (String.eqb el.1 "MarketResolved");
      rewrite ?lookup_alter_eq; by destruct (ms !! address el.2).
  - exists {| resolves := false; newTotals := None |}. intros ms.
    unfold Market_updateVolume, Market_updateStatus.
    destruct (is_trade el.1), (String.eqb el.1 "MarketResolved");
      rewrite ?lookup_alter_ne by done; apply Hid.
Qed.

Lemma marketSteps_update els k :
  ∃ u, forall ms,
    foldl (fun ms el => marketStep chain el ms) ms els !! k
    = update u <$> ms !! k.
Proof.
  induction els as [|el els [u IH]].
  - exists {| resolves := false; newTotals := None |}. intros ms. cbn.
    by destruct (ms !! k).
  - destruct (marketStep_update el k) as [v Hv].
    exists (andThen u v). intros ms. cbn [foldl]. rewrite IH, Hv.
    destruct (ms !! k); cbn; [|done]. by rewrite update_andThen.
Qed.

(** Handling the same market logs again leaves the [markets] table as the
    first pass left it. *)
Lemma marketSteps_twice els ms :
  foldl (fun ms el => marketStep chain el ms)
    (foldl (fun ms el => marketStep chain el ms) ms els) els
  = foldl (fun ms el => marketStep chain el ms) ms els.
Proof.
  apply map_eq. intros k. destruct (marketSteps_update els k) as [u Hu].
  rewrite !Hu. destruct (ms !! k); cbn; [|done]. by rewrite update_twice.
Qed.

Lemma marketSteps_stored els ms a :
  is_Some (foldl (fun ms el => marketStep chain el ms) ms els !! a)
  ↔ is_Some (ms !! a).
Proof.
  destruct (marketSteps_update els a) as [u ->]. by rewrite fmap_is_Some.
Qed.

End PassFacts.

(** ** The indexer: replaying a block range *)

Section Replay.
Import Store Indexer.

Variable updateStats : Z -> Z -> UserStats -> UserStats.
Variable cfg : Config.
Variable chain : Chain.

(** What a second pass over the same range finds: the ledger has the keys
    of all it gets, and the creation phase changes nothing. *)
Lemma replay_creation lo hi st :
  let once := processBlockRange updateStats cfg chain lo hi st in
  events (db (createdPhase cfg chain lo hi once)) = events (db once)
  ∧ marketContracts (createdPhase cfg chain lo hi once) = marketContracts once
  ∧ markets (db (createdPhase cfg chain lo hi once)) = markets (db once).
Proof.
  intros once. apply (createdPhase_again cfg chain lo hi once).
  - intros c Hc. apply processBlockRange_keys. right; left. by exists c.
  - intros c a Hc Ha. split.
    + apply processBlockRange_watched. right. by exists c.
    + unfold once. rewrite processBlockRange_phases, log_errors_db,
        handleAll_markets.
      apply marketSteps_stored, createdPhase_stored. right. by exists c.
Qed.

Lemma replay_events lo hi st :
  let once := processBlockRange updateStats cfg chain lo hi st in
  let twice := processBlockRange updateStats cfg chain lo hi once in
  events (db twice) = events (db once).
Proof.
  intros once twice.
  destruct (replay_creation lo hi st) as (Hev & Hws & _). fold once in Hev, Hws.
  unfold twice. rewrite processBlockRange_phases, log_errors_db.
  rewrite handleAll_again; [done|].
  intros el Hel Hr. unfold keys. rewrite Hev. apply processBlockRange_keys.
  right; right. rewrite Hws in Hel. by exists el.
Qed.

Lemma replay_markets lo hi st :
  let once := processBlockRange updateStats cfg chain lo hi st in
  let twice := processBlockRange updateStats cfg chain lo hi once in
  markets (db twice) = markets (db once).
Proof.
  intros once twice.
  destruct (replay_creation lo hi st) as (_ & Hws & Hms). fold once in Hws, Hms.
  unfold twice. rewrite processBlockRange_phases, log_errors_db.
  rewrite handleAll_markets, Hws, Hms.
  assert (Hw : marketContracts once
               = marketContracts (createdPhase cfg chain lo hi st))
    by apply processBlockRange_watches.
  assert (Hm : markets (db once)
               = foldl (fun ms el => marketStep chain el ms)
                   (markets (db (createdPhase cfg chain lo hi st)))
                   (marketLogs chain lo hi
                      (marketContracts (createdPhase cfg chain lo hi st)))).
  { unfold once.
    by rewrite processBlockRange_phases, log_errors_db, handleAll_markets. }
  rewrite Hw, Hm. apply marketSteps_twice.
Qed.

(** The counters [User.updateStats] leaves do not depend on the counters it
    finds: the totals are replaced. *)
Hypothesis updateStats_replaces :
  forall trades volume row row',
    updateStats trades volume row = updateStats trades volume row'.

Lemma act_after f g o : act (after f g) o = act f (act g o).
Proof. by destruct f, g. Qed.

Lemma act_twice f o : act f (act f o) = act f o.
Proof. by destruct f. Qed.

Lemma User_upsert_lookup addr us k :
  User_upsert addr us !! k
  = if decide (addr = k) then Some (default no_stats (us !! k)) else us !! k.
Proof.
  unfold User_upsert. case_decide as Hk.
  - subst k. destruct (us !! addr) as [row|] eqn:Hrow; [by rewrite Hrow|].
    by rewrite lookup_insert_eq.
  - destruct (us !! addr); [done|]. by rewrite lookup_insert_ne.
Qed.

Lemma userStep_act el k :
  ∃ f, forall us, userStep updateStats chain el us !! k = act f (us !! k).
Proof using updateStats_replaces.
  unfold userStep. destruct (blockTime chain (logBlock el.2)); [|by exists Keep].
  unfold updateUser. destruct (user_of (args el.2)) as [addr|]; [|by exists Keep].
  destruct (truthy_str (Some addr)); [|by exists Keep].
  destruct (decide (addr = k)) as [->|Hne].
  - destruct (is_trade el.1).
    + exists (Put (updateStats 1 (cost_of (args el.2)) no_stats)). intros us.
      rewrite lookup_alter_eq, User_upsert_lookup, decide_True by done. cbn.
      f_equal. apply updateStats_replaces.
    + exists Ensure. intros us. by rewrite User_upsert_lookup, decide_True.
  - exists Keep. intros us. destruct (is_trade el.1).
    + by rewrite lookup_alter_ne, User_upsert_lookup, decide_False.
    + by rewrite User_upsert_lookup, decide_False.
Qed.

Lemma userSteps_act els k :
  ∃ f, forall us,
    foldl (fun us el => userStep updateStats chain el us) us els !! k
    = act f (us !! k).
Proof using updateStats_replaces.
  induction els as [|el els [f IH]]; [by exists Keep|].
  destruct (userStep_act el k) as [g Hg].
  exists (after f g). intros us. cbn [foldl]. by rewrite IH, Hg, act_after.
Qed.

(** Handling the same market logs again leaves the [users] table as the
    first pass left it. *)
Lemma userSteps_twice els us :
  foldl (fun us el => userStep updateStats chain el us)
    (foldl (fun us el => userStep updateStats chain el us) us els) els
  = foldl (fun us el => userStep updateStats chain el us) us els.
Proof using updateStats_replaces.
  apply map_eq. intros k. destruct (userSteps_act els k) as [f Hf].
  by rewrite !Hf, act_twice.
Qed.

Lemma replay_users lo hi st :
  let once := processBlockRange updateStats cfg chain lo hi st in
  let twice := processBlockRange updateStats cfg chain lo hi once in
  users (db twice) = users (db once).
Proof using updateStats_replaces.
  intros once twice.
  destruct (replay_creation lo hi st) as (_ & Hws & _). fold once in Hws.
  unfold twice. rewrite processBlockRange_phases, log_errors_db, handleAll_users.
  rewrite createdPhase_users, Hws.
  assert (Hw : marketContracts once
               = marketContracts (createdPhase cfg chain lo hi st))
    by apply processBlockRange_watches.
  assert (Hu : users (db once)
               = foldl (fun us el => userStep updateStats chain el us)
                   (users (db st))
                   (marketLogs chain lo hi
                      (marketContracts (createdPhase cfg chain lo hi st)))).
  { unfold once.
    by rewrite processBlockRange_phases, log_errors_db, handleAll_users,
      createdPhase_users. }
  rewrite Hw, Hu. apply userSteps_twice.
Qed.

End Replay.

(** What a second pass over a block range, against the same chain answers
    (failed queries included), leaves as it is, whatever [User.updateStats]
    does: the ledger (no further event record, so the same count) and the
    [markets] table (volume, liquidity, status). A log whose key is stored
    already is handled without a new row and without an error being logged,
    and of two rows submitted under one key exactly one is stored. The
    [users] table is left as it is if [User.updateStats] leaves counters
    that do not depend on the counters it finds. *)
Lemma replay_leaves_ledger_and_markets
    (updateStats : Z -> Z -> Store.UserStats -> Store.UserStats)
    (cfg : Indexer.Config) (chain : Indexer.Chain) (lo hi : Z)
    (st : Indexer.State) :
  let once := Indexer.processBlockRange updateStats cfg chain lo hi st in
  let twice := Indexer.processBlockRange updateStats cfg chain lo hi once in
  Store.events (Indexer.db twice) = Store.events (Indexer.db once)
  ∧ length (Store.events (Indexer.db twice))
    = length (Store.events (Indexer.db once))
  ∧ Store.markets (Indexer.db twice) = Store.markets (Indexer.db once)
  ∧ (forall eventType log s,
       Indexer.readable chain log -> Indexer.logKey log ∈ Indexer.keys s ->
       Store.events (Indexer.db (Indexer.handleMarketEvent updateStats
                                   chain eventType log s))
       = Store.events (Indexer.db s)
       ∧ Indexer.errors (Indexer.handleMarketEvent updateStats chain
                           eventType log s) = Indexer.errors s)
  ∧ (forall e e' rows,
       Store.key e' = Store.key e -> NoDup (Store.key <$> rows) ->
       length (filter (fun r => Store.key r = Store.key e)
                 (Store.MarketEvent_create e' (Store.MarketEvent_create e rows)))
       = 1%nat)
  ∧ ((forall trades volume row row',
        updateStats trades volume row = updateStats trades volume row') ->
     Store.users (Indexer.db twice) = Store.users (Indexer.db once)).
Proof.
  intros once twice.
  pose proof (replay_events updateStats cfg chain lo hi st) as Hev.
  cbv zeta in Hev. fold once in Hev. fold twice in Hev.
  split; [done|]. split; [by rewrite Hev|].
  split; [|split; [|split]].
  - apply (replay_markets updateStats cfg chain).
  - intros eventType log s Hr Hk. split; [|by apply handleMarketEvent_errors].
    rewrite handleMarketEvent_events. destruct Hr as [ts ->].
    by apply create_duplicate.
  - intros e e' rows Hk Hnd. rewrite create_twice by done.
    apply one_row_per_key; [by apply create_NoDup|].
    apply create_keys. by right.
  - intros Hrep. by apply (replay_users updateStats cfg chain).
Qed.

Section ReplayExamples.
Import Store Indexer.


(** With a [User.updateStats] that sets the counters, the replay leaves the
    buyer's row as it is: one trade, whatever the number of purchases. *)
Lemma replay_when_replacing :
  let once := processBlockRange replaceStats exampleConfig exampleChain 0 10
                (fresh emptyStore) in
  let twice := processBlockRange replaceStats exampleConfig exampleChain 0 10
                 once in
  users (db twice) = users (db once)
  ∧ users (db once) !! "0xU"
    = Some {| totalTrades := 1; totalVolumeTraded := 10 |}.
Proof.
  split; [|vm_compute; reflexivity].
  by apply (replay_leaves_ledger_and_markets replaceStats exampleConfig
              exampleChain 0 10 (fresh emptyStore)).
Qed.

End ReplayExamples.

(** ** The indexer: backfill in batches *)

Section Backfill.
Import Store Indexer.

Variable updateStats : Z -> Z -> UserStats -> UserStats.
Variable cfg : Config.
Variable chain : Chain.








Lemma Processed_set_cursor st0 lo hi b st :
  Processed cfg chain st0 lo hi st ->
  Processed cfg chain st0 lo hi (set_cursor b st).
Proof. done. Qed.

(** The loop returns when it has fuel for every batch. *)
Lemma backfillLoop_returns toBlock :
  0 < batchSize cfg ->
  forall fuel start st,
    (Z.to_nat (toBlock - start + 1) ≤ fuel)%nat ->
    is_Some (backfillLoop updateStats cfg fuel chain start toBlock st).
Proof.
  intros Hb. induction fuel as [|fuel IH]; intros start st Hfuel; cbn [backfillLoop].
  - destruct (Z.leb_spec start toBlock); [lia|done].
  - destruct (Z.leb_spec start toBlock); [|done]. apply IH. lia.
Qed.


End Backfill.


Section BackfillExamples.
Import Store Indexer.




(** The condition on the chain in C9 cannot be dropped. If a log of a
    market sat in a block before the one announcing the market, a batch wide
    enough to hold both would store it, and narrower batches would not. *)
Lemma backfill_of_a_chain_out_of_order :
  let early :=
    {| address := "0xM"; event := "SharesSold";
       args := {| market := None; marketAddress := None; creator := None;
                  creatorAddress := None; outcomes := []; user := None;
                  buyer := None; seller := Some "0xU"; provider := None;
                  outcome := Some 0; argShares := Some 1; argCost := Some 3;
                  amount := None; winningOutcome := None |};
       logBlock := 1; logTx := "0xa0"; logIdx := 0 |} in
  let chain :=
    {| head := Ok 10; logs := early :: exampleLogs;
       logsFault := fun _ _ _ _ => None;
       blockTime := fun b => Some (1700000000 + b);
       getPrice := fun _ _ => Some 500; chainVolume := fun _ => Some 10;
       chainLiquidity := fun _ => Some 100 |} in
  (length ∘ events ∘ db ∘ fst <$>
     processHistoricalEvents replaceStats (with_batchSize 10 exampleConfig) 11
       chain (fresh emptyStore)) = Some 4%nat
  ∧ (length ∘ events ∘ db ∘ fst <$>
       processHistoricalEvents replaceStats (with_batchSize 4 exampleConfig) 11
         chain (fresh emptyStore)) = Some 3%nat.
Proof. vm_compute. split; reflexivity. Qed.


End BackfillExamples.

(** ** The indexer: the cursor *)

Section Cursor.
Import Store Indexer.

Variable updateStats : Z -> Z -> UserStats -> UserStats.
Variable cfg : Config.

Lemma ordered_same st st' :
  lastProcessedBlock st' = lastProcessedBlock st ->
  cursorTrace st' = cursorTrace st -> ordered st -> ordered st'.
Proof. unfold ordered. by intros -> ->. Qed.

Lemma ordered_frame st st' : frame st' = frame st -> ordered st -> ordered st'.
Proof. unfold frame. intros [= _ H1 H2]. by apply ordered_same. Qed.

Lemma ordered_set_cursor b st :
  ordered st -> lastProcessedBlock st ≤ b -> ordered (set_cursor b st).
Proof.
  intros [Hs Hle] Hb. unfold ordered. cbn [cursorTrace lastProcessedBlock set_cursor].
  split.
  - apply StronglySorted_app_2; [|done|repeat constructor].
    intros x y Hx Hy. apply list_elem_of_singleton in Hy as ->.
    specialize (Hle x Hx). lia.
  - intros x [Hx|Hx]%elem_of_app.
    + specialize (Hle x Hx). lia.
    + apply list_elem_of_singleton in Hx as ->. lia.
Qed.

Lemma ordered_first b st :
  cursorTrace st = [] -> ordered (set_cursor b st).
Proof.
  intros Hnil. unfold ordered. cbn [cursorTrace lastProcessedBlock set_cursor].
  rewrite Hnil. cbn. split; [repeat constructor|].
  intros x Hx. apply list_elem_of_singleton in Hx as ->. lia.
Qed.

Lemma backfillLoop_ordered chain toBlock :
  0 < batchSize cfg ->
  forall fuel start st st',
    ordered st -> lastProcessedBlock st ≤ start ->
    backfillLoop updateStats cfg fuel chain start toBlock st = Some st' ->
    ordered st' ∧ lastProcessedBlock st ≤ lastProcessedBlock st'.
Proof.
  intros Hb. induction fuel as [|fuel IH]; intros start st st' Hord Hle;
    cbn [backfillLoop]; destruct (Z.leb_spec start toBlock) as [Hin|Hout];
    try done; try (intros [= <-]; split; [done|lia]).
  set (e := if start + batchSize cfg >? toBlock then toBlock
            else start + batchSize cfg).
  assert (He : start ≤ e ∧ e ≤ start + batchSize cfg).
  { unfold e. destruct (Z.gtb_spec (start + batchSize cfg) toBlock); lia. }
  intros Hloop. apply IH in Hloop as [Hord' Hle'].
  - split; [done|]. cbn [lastProcessedBlock set_cursor] in Hle'. lia.
  - apply ordered_set_cursor.
    + apply (ordered_frame st); [apply processBlockRange_frame|done].
    + pose proof (processBlockRange_frame updateStats cfg chain start e st) as Hf.
      unfold frame in Hf. injection Hf as _ -> _. lia.
  - cbn [lastProcessedBlock set_cursor]. lia.
Qed.

Lemma pollTick_unfold chain st :
  pollTick updateStats cfg chain st
  = if negb (isRunning st) then st
    else match head chain with
         | Throw _ => log_error st
         | Ok currentBlock =>
             if currentBlock >? lastProcessedBlock st
             then set_cursor currentBlock
                    (processBlockRange updateStats cfg chain
                       (lastProcessedBlock st + 1) currentBlock st)
             else st
         end.
Proof.
  unfold pollTick, pollFire. destruct (negb (isRunning st)); [done|].
  cbn [pollResume]. destruct (head chain) as [current|]; [|done].
  by destruct (current >? lastProcessedBlock st).
Qed.

Lemma pollTick_ordered chain st :
  ordered st ->
  ordered (pollTick updateStats cfg chain st)
  ∧ lastProcessedBlock st ≤ lastProcessedBlock (pollTick updateStats cfg chain st).
Proof.
  intros Hord. rewrite pollTick_unfold.
  destruct (isRunning st); cbn [negb]; [|done].
  destruct (head chain) as [current|]; [|done].
  destruct (Z.gtb_spec current (lastProcessedBlock st)) as [Hgt|]; [|done].
  pose proof (processBlockRange_frame updateStats cfg chain
                (lastProcessedBlock st + 1) current st) as Hf.
  split.
  - apply ordered_set_cursor; [by apply (ordered_frame st)|].
    unfold frame in Hf. injection Hf as _ -> _. lia.
  - cbn [lastProcessedBlock set_cursor]. lia.
Qed.

(** A poll callback that runs from its start to its end with nothing in
    between does not lower the cursor. *)
Lemma pollTick_never_decreases chain st :
  lastProcessedBlock st ≤ lastProcessedBlock (pollTick updateStats cfg chain st).
Proof.
  rewrite pollTick_unfold. destruct (isRunning st); cbn [negb]; [|done].
  destruct (head chain) as [current|]; [|done].
  destruct (Z.gtb_spec current (lastProcessedBlock st)) as [Hgt|]; [|done].
  cbn [lastProcessedBlock set_cursor]. lia.
Qed.

Lemma liveRun_app evs1 evs2 lp :
  liveRun updateStats cfg (evs1 ++ evs2) lp
  = liveRun updateStats cfg evs2 (liveRun updateStats cfg evs1 lp).
Proof. unfold liveRun. by rewrite foldl_app. Qed.

(** A poll callback that is alone from the timer to its end is a
    [pollTick]. *)
Lemma live_one_in_turn chain st :
  liveRun updateStats cfg [Fires; Resumes 0 chain; Resumes 0 chain] (quiet st)
  = quiet (pollTick updateStats cfg chain st).
Proof.
  unfold pollTick, liveRun, quiet. cbn [foldl].
  unfold live at 3. cbn [indexer suspended app]. unfold pollFire.
  destruct (negb (isRunning st)); [done|].
  unfold live at 2. cbn [indexer suspended lookup list_lookup pollResume].
  destruct (head chain) as [current|]; [|done].
  by destruct (current >? lastProcessedBlock st).
Qed.

Lemma liveRun_inTurn chains : forall st,
  liveRun updateStats cfg (inTurn chains) (quiet st)
  = quiet (foldl (fun s chain => pollTick updateStats cfg chain s) st chains).
Proof.
  induction chains as [|chain chains IH]; intros st; [done|].
  unfold inTurn. rewrite bind_cons. fold (inTurn chains).
  by rewrite liveRun_app, live_one_in_turn, IH.
Qed.

Lemma pollTicks_ordered chains : forall st,
  ordered st ->
  ordered (foldl (fun s chain => pollTick updateStats cfg chain s) st chains)
  ∧ lastProcessedBlock st
    ≤ lastProcessedBlock
        (foldl (fun s chain => pollTick updateStats cfg chain s) st chains).
Proof.
  induction chains as [|chain chains IH]; intros st Hord; [done|].
  destruct (pollTick_ordered chain st Hord) as [H1 H2].
  destruct (IH _ H1) as [H3 H4]. split; [done|]. cbn [foldl]. lia.
Qed.

Lemma processHistoricalEvents_ordered fuel chain st :
  0 < batchSize cfg ->
  (forall h, head chain = Ok h ->
             (Z.to_nat (h - lastProcessedBlock st + 1) ≤ fuel)%nat) ->
  ordered st ->
  ∃ st' r, processHistoricalEvents updateStats cfg fuel chain st = Some (st', r)
           ∧ ordered st'.
Proof.
  intros Hb Hfuel Hord. unfold processHistoricalEvents.
  destruct (negb (truthy_str (marketFactory cfg))); [by exists st, (Ok tt)|].
  destruct (head chain) as [current|e] eqn:Hhead.
  - destruct (backfillLoop_returns updateStats cfg chain current Hb fuel
                (lastProcessedBlock st) st (Hfuel _ eq_refl)) as [st' Hloop].
    rewrite Hloop. exists st', (Ok tt). split; [done|].
    apply (backfillLoop_ordered chain current Hb fuel (lastProcessedBlock st)
             st st' Hord); [lia|done].
  - exists (log_error st), (Throw e). split; [done|].
    by apply (ordered_frame st).
Qed.

Lemma start_ordered fuel chain d :
  0 < batchSize cfg ->
  (forall h, head chain = Ok h ->
             (Z.to_nat (h - default h (startBlock cfg) + 1) ≤ fuel)%nat) ->
  ∃ st r, start updateStats cfg fuel chain (fresh d) = Some (st, r)
          ∧ ordered st.
Proof.
  intros Hb Hfuel.
  assert (Hgen : forall st1,
            ordered st1 ->
            (forall h, head chain = Ok h ->
                       (Z.to_nat (h - lastProcessedBlock st1 + 1) ≤ fuel)%nat) ->
            ∃ st r,
              (let st2 := set_running true st1 in
               if (lastProcessedBlock st2 >? 0)
                  || bool_decide (startBlock cfg ≠ None)
               then match processHistoricalEvents updateStats cfg fuel chain st2 with
                    | None => None
                    | Some (st3, Ok _) => Some (st3, Ok tt)
                    | Some (st3, Throw e) =>
                        Some (set_running false (log_error st3), Throw e)
                    end
               else Some (st2, Ok tt)) = Some (st, r)
              ∧ ordered st).
  { intros st1 H1 Hf. cbv zeta.
    assert (H2 : ordered (set_running true st1)) by by apply (ordered_same st1).
    destruct (_ || _); [|by exists (set_running true st1), (Ok tt)].
    destruct (processHistoricalEvents_ordered fuel chain (set_running true st1)
                Hb Hf H2) as (st3 & r & Hrun & Hord).
    rewrite Hrun. destruct r as [[]|e].
    - by exists st3, (Ok tt).
    - exists (set_running false (log_error st3)), (Throw e). split; [done|].
      by apply (ordered_same st3). }
  unfold start. cbn [isRunning fresh].
  destruct (startBlock cfg) as [b|] eqn:Hsb.
  - apply Hgen; [by apply ordered_first|]. intros h Hh. by apply Hfuel.
  - destruct (head chain) as [h|e] eqn:Hh.
    + apply Hgen; [by apply ordered_first|].
      intros h' [= <-]. by apply Hfuel.
    + apply Hgen; [by apply ordered_first|]. intros h' [=].
Qed.

(** When the poll callbacks run one after the other, each to its end before
    the timer fires again, the values assigned to the cursor by the backfill
    and by the callbacks are in non-decreasing order and none of them is
    above the final cursor. The batch width is positive. *)
Lemma cursor_ordered_in_turn
    (fuel : nat) (chain : Chain) (chains : list Chain) (d : Store.t) :
  0 < batchSize cfg ->
  (forall h, head chain = Ok h ->
             (Z.to_nat (h - default h (startBlock cfg) + 1) ≤ fuel)%nat) ->
  ∃ st r,
    start updateStats cfg fuel chain (fresh d) = Some (st, r)
    ∧ suspended (liveRun updateStats cfg (inTurn chains) (quiet st)) = []
    ∧ ordered (indexer (liveRun updateStats cfg (inTurn chains) (quiet st))).
Proof.
  intros Hb Hfuel.
  destruct (start_ordered fuel chain d Hb Hfuel) as (st & r & Hrun & Hord).
  exists st, r. split; [done|]. rewrite liveRun_inTurn. split; [done|].
  by apply pollTicks_ordered.
Qed.

End Cursor.

Section CursorExamples.
Import Store Indexer.

(** C8. The cursor can decrease. The poll timer does not wait for its
    callback, and the callback assigns the height it read before its pass.
    After the backfill of the example (cursor 10), a callback reads height
    13 and starts its pass over [11..13]; the timer fires again before the
    pass is over, the second callback reads height 14 with the cursor still
    at 10, runs its pass over [11..14] and assigns 14; then the first pass
    ends and its callback assigns 13. The values assigned are 0, 4, 8, 10,
    14, 13 and the cursor ends at 13. *)
Theorem overlapping_polls_lower_the_cursor :
  let run := [Fires; Resumes 0 (chainAt 13);
              Fires; Resumes 1 (chainAt 14); Resumes 1 (chainAt 14);
              Resumes 0 (chainAt 14)] in
  let ends :=
    liveRun replaceStats exampleConfig run ∘ quiet ∘ fst <$>
      start replaceStats exampleConfig 11 exampleChain (fresh emptyStore) in
  (cursorTrace ∘ indexer <$> ends) = Some [0; 4; 8; 10; 14; 13]
  ∧ (lastProcessedBlock ∘ indexer <$> ends) = Some 13
  ∧ (suspended <$> ends) = Some []
  ∧ (errors ∘ indexer <$> ends) = Some 0%nat.
Proof. vm_compute. repeat split; reflexivity. Qed.

(** The same callbacks one after the other: the first assigns 13, the second
    14. *)
Lemma cursor_of_the_example :
  (cursorTrace ∘ indexer
     ∘ liveRun replaceStats exampleConfig (inTurn [chainAt 13; chainAt 14])
     ∘ quiet ∘ fst <$>
     start replaceStats exampleConfig 11 exampleChain (fresh emptyStore))
  = Some [0; 4; 8; 10; 13; 14].
Proof. vm_compute. reflexivity. Qed.

End CursorExamples.

(** ** The entity status under both writers *)

Section Status.
Import Store System.

Variable updateStats : Z -> Z -> UserStats -> UserStats.














End Status.

Section StatusExamples.
Import Store System.


End StatusExamples.

(** * Further properties of the code *)

(** ** The adapter *)

Section LimiterMore.
Import Sports.

Lemma windowMs_positive : 0 < windowMs.
Proof. reflexivity. Qed.

Lemma checkRateLimit_bounds rateLimit now s :
  0 ≤ rateLimit -> 0 ≤ requestCount s ≤ rateLimit ->
  0 ≤ requestCount (checkRateLimit rateLimit now s).1 ≤ rateLimit
  ∧ requestWindowStart s ≤ requestWindowStart (checkRateLimit rateLimit now s).1.
Proof.
  intros Hr Hc. unfold checkRateLimit. pose proof windowMs_positive.
  destruct (Z.gtb_spec (now - requestWindowStart s) windowMs);
    cbn [requestCount requestWindowStart];
    match goal with |- context [?a >=? ?b] => destruct (Z.geb_spec a b) end;
    cbn [fst requestCount requestWindowStart]; lia.
Qed.

(** X1. Whatever times the calls are made at (the clock may even jump
    back), a limiter whose counter starts between 0 and the budget keeps it
    there, and the start of its window never moves back. *)
Theorem limiter_stays_within_budget (rateLimit : Z) (times : list Z) (s : Limiter) :
  0 ≤ rateLimit -> 0 ≤ requestCount s ≤ rateLimit ->
  0 ≤ requestCount (requests rateLimit times s).1 ≤ rateLimit
  ∧ requestWindowStart s ≤ requestWindowStart (requests rateLimit times s).1.
Proof.
  intros Hr. revert s. induction times as [|now times IH]; intros s Hc.
  - cbn. lia.
  - cbn [requests].
    destruct (checkRateLimit_bounds rateLimit now s Hr Hc) as [H1 H2].
    destruct (checkRateLimit rateLimit now s) as [s1 r]. cbn [fst] in H1, H2.
    destruct (IH s1 H1) as [H3 H4].
    destruct (requests rateLimit times s1) as [s2 rs]. cbn [fst] in *. lia.
Qed.

Lemma limiter_stays_within_budget_witness :
  0 ≤ requestCount
        (requests 2 [5; 1000000; 3; 2000000; 2000001; 2000002]
           {| requestCount := 1; requestWindowStart := 0 |}).1 ≤ 2.
Proof.
  apply (limiter_stays_within_budget 2 [5; 1000000; 3; 2000000; 2000001; 2000002]
           {| requestCount := 1; requestWindowStart := 0 |}).
  - lia.
  - cbn. lia.
Defined.

(** X2. With a positive budget, a call that is refused leaves the limiter
    exactly as it was: it is not counted and it does not move the window,
    and the error is the rate-limit one. *)
Theorem refused_request_changes_nothing (rateLimit now : Z) (s : Limiter) (e : Error) :
  0 < rateLimit ->
  (checkRateLimit rateLimit now s).2 = Throw e ->
  (checkRateLimit rateLimit now s).1 = s ∧ e = RateLimitExceeded.
Proof.
  intros Hr. unfold checkRateLimit.
  destruct (Z.gtb_spec (now - requestWindowStart s) windowMs);
    cbn [requestCount requestWindowStart];
    match goal with |- context [?a >=? ?b] => destruct (Z.geb_spec a b) end;
    cbn [fst snd]; try lia; try discriminate.
  intros [= <-]. done.
Qed.

Lemma refused_request_changes_nothing_witness :
  (checkRateLimit 3 500 {| requestCount := 3; requestWindowStart := 100 |}).1
  = {| requestCount := 3; requestWindowStart := 100 |}.
Proof.
  assert (H3 : 0 < 3) by lia.
  apply (refused_request_changes_nothing 3 500
           {| requestCount := 3; requestWindowStart := 100 |}
           RateLimitExceeded H3).
  reflexivity.
Defined.

End LimiterMore.

Section AdapterMore.
Import Sports.

(** X3. When the adapter's cache has a row for the game that has not
    expired, [resolveMarket] answers from it alone: the adapter (limiter and
    cache rows) is left as it is and neither the budget, the provider, the
    [markets] table nor the market's sport has any influence on the
    answer. *)
Theorem cache_hit_needs_no_budget
    (rateLimit now : Z) (http : string -> Response)
    (isMarket : string -> bool) (md : Metadata) (g : string)
    (o : Outcome) (s : Adapter) :
  gameId md = Some g -> g ≠ "" ->
  getCachedData now g (outcomeRows s) = Some o ->
  resolveMarket rateLimit now http isMarket (Some md) s
  = (s, Ok (match status o with
            | pending => NotResolved "Game not finished yet"
            | finished => Resolved (mapOutcome md o) o
            end)).
Proof.
  intros Hg Hne Hc. unfold resolveMarket.
  change (default empty_metadata (Some md)) with md.
  rewrite Hg. change (default "" (Some g)) with g. cbn [truthy_str].
  destruct (String.eqb_spec g "") as [|_]; [done|]. cbn [negb].
  unfold getGameOutcome. rewrite Hc. by destruct (status o).
Qed.

Lemma cache_hit_needs_no_budget_witness :
  let md := {| gameId := Some "g1"; sport := Some "cricket";
               outcomeType := Some "winner"; spread := None;
               threshold := None |} in
  let o := {| status := finished; homeScore := 2; awayScore := 5;
              winner := Some away |} in
  let spent := {| limiter := {| requestCount := 10; requestWindowStart := 0 |};
                  outcomeRows := [("g1", o, 100)]; scheduleRows := [] |} in
  resolveMarket 10 50 (fun _ => NoResponse) (fun _ => false) (Some md) spent
  = (spent, Ok (Resolved (Some 1) o)).
Proof.
  intros md o spent.
  apply (cache_hit_needs_no_budget 10 50 (fun _ => NoResponse)
           (fun _ => false) md "g1" o spent).
  - reflexivity.
  - discriminate.
  - reflexivity.
Defined.

(** X4. The winning index [resolveMarket] reports is 0, 1 or 2, and only 0
    or 1 outside [winner] mode; it is missing ([null]) exactly when the
    mode is none of [winner], [spread] and [over_under]. *)
Theorem winning_index_range (md : Metadata) (o : Outcome) :
  (forall i, mapOutcome md o = Some i ->
             0 ≤ i ≤ 2 ∧ (outcomeType md ≠ Some "winner" -> i ≤ 1))
  ∧ (mapOutcome md o = None
     ↔ outcomeType md ≠ Some "winner" ∧ outcomeType md ≠ Some "spread"
       ∧ outcomeType md ≠ Some "over_under").
Proof.
  unfold mapOutcome, is_mode. destruct (outcomeType md) as [t|].
  - destruct (String.eqb_spec t "winner") as [->|H1].
    { split.
      - intros i Hi. split; [|done].
        destruct (winner o) as [[]|]; simplify_eq; lia.
      - split; [by destruct (winner o) as [[]|]|]. by intros [? _]. }
    destruct (String.eqb_spec t "spread") as [->|H2].
    { split.
      - intros i [= <-]. destruct (_ >=? _); lia.
      - split; [done|]. by intros (_ & ? & _). }
    destruct (String.eqb_spec t "over_under") as [->|H3].
    { split.
      - intros i [= <-]. destruct (_ >? _); lia.
      - split; [done|]. by intros (_ & _ & ?). }
    split; [done|]. split; [|done]. intros _. repeat split; congruence.
  - split; [done|]. done.
Qed.

Lemma winning_index_range_witness :
  let md := {| gameId := Some "g1"; sport := None;
               outcomeType := Some "spread"; spread := Some 7;
               threshold := None |} in
  let o := {| status := finished; homeScore := 20; awayScore := 17;
              winner := Some home |} in
  mapOutcome md o = Some 1 ∧ 0 ≤ 1 ≤ 2.
Proof.
  intros md o. split; [reflexivity|].
  apply (proj1 (winning_index_range md o) 1). reflexivity.
Defined.

(** X5. [getUpcomingGames]: a cached schedule that has not expired is
    returned without touching the adapter; on a cache miss an unsupported
    sport throws "Unsupported sport" without touching the adapter, and a
    supported one makes the one request
    [/<sport in lower case>/scores/json/Schedules/<days>]: the result and
    the limiter are those of the request, and a schedule received is written
    to the cache for 60 minutes (a write the foreign key lets through only
    if [markets] has a row with the id ['upcoming']). *)
Theorem upcoming_games_requests
    (rateLimit now : Z) (http : string -> Response)
    (isMarket : string -> bool) (sp : string) (days : Z) (s : Adapter) :
  let key := "upcoming_" +:+ sp in
  let request :=
    makeRequest rateLimit now http
      ("/" +:+ toLowerCase sp +:+ "/scores/json/Schedules/" +:+ pretty days)
      (limiter s) in
  (forall data, getCachedData now key (scheduleRows s) = Some data ->
     getUpcomingGames rateLimit now http isMarket sp days s = (s, Ok data))
  ∧ (getCachedData now key (scheduleRows s) = None -> supported sp = false ->
     getUpcomingGames rateLimit now http isMarket sp days s
     = (s, Throw (UnsupportedSport sp)))
  ∧ (getCachedData now key (scheduleRows s) = None -> supported sp = true ->
     getUpcomingGames rateLimit now http isMarket sp days s
     = ({| limiter := request.1; outcomeRows := outcomeRows s;
           scheduleRows :=
             match request.2 with
             | Ok data => cacheData (isMarket "upcoming") now key data 60
                            (scheduleRows s)
             | Throw _ => scheduleRows s
             end |}, request.2)).
Proof.
  unfold getUpcomingGames, supported. split; [|split].
  - by intros data ->.
  - intros -> Hsp.
    destruct (String.eqb (toLowerCase sp) "nfl"); [done|].
    destruct (String.eqb (toLowerCase sp) "nba"); [done|].
    by destruct (String.eqb (toLowerCase sp) "mlb").
  - intros -> Hsp.
    destruct (String.eqb_spec (toLowerCase sp) "nfl") as [->|_];
      [by destruct (makeRequest _ _ _ _ _) as [l' [data|e]]|].
    destruct (String.eqb_spec (toLowerCase sp) "nba") as [->|_];
      [by destruct (makeRequest _ _ _ _ _) as [l' [data|e]]|].
    destruct (String.eqb_spec (toLowerCase sp) "mlb") as [->|_]; [|done].
    by destruct (makeRequest _ _ _ _ _) as [l' [data|e]].
Qed.

Lemma upcoming_games_requests_witness :
  getUpcomingGames 5 0 (fun _ => Body (Many [])) (fun _ => false) "NBA" 7 idle
  = ({| limiter := {| requestCount := 1; requestWindowStart := 0 |};
        outcomeRows := []; scheduleRows := [] |}, Ok (Many [])).
Proof.
  apply (proj2 (proj2 (upcoming_games_requests 5 0 (fun _ => Body (Many []))
                         (fun _ => false) "NBA" 7 idle)));
    reflexivity.
Defined.

End AdapterMore.

(** ** The scheduler *)

Section SchedulerMore.
Import Store Resolver.

(** All the ways an attempt can end. *)
Lemma resolveMarketIfReady_cases env market w :
  let w' := (resolveMarketIfReady env market w).1 in
  let r := (resolveMarketIfReady env market w).2 in
  (submitted w' = submitted w ∧ store w' = store w)
  ∨ ∃ winning,
      submitted w' = submitted w ++ [(id market, winning)]
      ∧ ((r = Ok tt ∧ store w' = resolvedStore (id market) (store w))
         ∨ (∃ e, r = Throw e ∧ already_resolved e = false ∧ store w' = store w)).
Proof.
  unfold resolveMarketIfReady.
  destruct (String.eqb _ _); [by left|].
  destruct (_ <? _); [by left|].
  destruct (Sports.resolveMarket _ _ _ _ _ _) as [a' [[reason|winning o]|e]];
    [by left| |by left].
  right. exists winning. unfold callResolveMarket.
  cbn [store adapter submitted].
  destruct (writeContract env (id market) winning) as [receipt|e].
  - split; [done|]. by left.
  - destruct (already_resolved e) eqn:He.
    + split; [done|]. by left.
    + split; [done|]. right. by exists e.
Qed.

(** X6. An attempt of the scheduler records at most one settlement call,
    for the market it was given, and it changes the store only after such a
    call that did not fail (or failed as "already resolved"), and then only
    by setting that market's status to ['resolved']. *)
Theorem status_written_only_after_settlement
    (env : Env) (market : Market) (w : World) :
  let w' := (resolveMarketIfReady env market w).1 in
  let r := (resolveMarketIfReady env market w).2 in
  (submitted w' = submitted w ∧ store w' = store w)
  ∨ ∃ winning,
      submitted w' = submitted w ++ [(id market, winning)]
      ∧ ((r = Ok tt ∧ store w' = resolvedStore (id market) (store w))
         ∨ (∃ e, r = Throw e ∧ store w' = store w)).
Proof.
  cbv zeta.
  destruct (resolveMarketIfReady_cases env market w) as [?|(wo & ? & [?|(e & ? & _ & ?)])].
  - by left.
  - right. exists wo. split; [done|]. by left.
  - right. exists wo. split; [done|]. right. by exists e.
Qed.

(** A row just written is what a lookup finds until it expires. *)
Lemma getCachedData_written {A} (later : Z) (key : string) (data : A)
    (expires : Z) (rows : Sports.Rows A) :
  later < expires ->
  Sports.getCachedData later key (rows ++ [(key, data, expires)]) = Some data.
Proof.
  intros Hlt. unfold Sports.getCachedData.
  rewrite (filter_app (fun r : string * A * Z => r.1.1 = key ∧ later < r.2)).
  rewrite (filter_cons_True (fun r : string * A * Z => r.1.1 = key ∧ later < r.2))
    by done.
  by rewrite filter_nil, last_snoc.
Qed.

(** X7. A market that is due whose game the adapter reports as not
    finished is skipped: the attempt ends normally, no settlement call is
    recorded and the store is not changed. The adapter may have moved: its
    schedule rows are as before, and its outcome rows are as before when
    the answer came from the cache; when it came from the provider, the
    pending outcome is written to the cache for 24 hours (a write the
    foreign key lets through only if the game id is the id of a market), so
    that for those 24 hours a lookup of the game finds the pending
    outcome. *)
Theorem unfinished_game_is_skipped
    (env : Env) (market : Market) (md : Sports.Metadata) (g : string)
    (o : Sports.Outcome) (a' : Sports.Adapter) (w : World) :
  status market ≠ "resolved" ->
  resolutionTime market ≤ now env ->
  metadata market = Some md ->
  Sports.gameId md = Some g -> g ≠ "" ->
  Sports.getGameOutcome (rateLimit env) (now env) (http env)
    (Market_exists (store w)) g
    (default "nfl" (str_or (Sports.sport md) (Some "nfl"))) (adapter w)
  = (a', Ok o) ->
  Sports.status o = Sports.pending ->
  resolveMarketIfReady env market w
  = ({| store := store w; adapter := a'; submitted := submitted w |}, Ok tt)
  ∧ Sports.scheduleRows a' = Sports.scheduleRows (adapter w)
  ∧ Sports.outcomeRows a'
    = match Sports.getCachedData (now env) g (Sports.outcomeRows (adapter w)) with
      | Some _ => Sports.outcomeRows (adapter w)
      | None =>
          if Market_exists (store w) g
          then Sports.outcomeRows (adapter w)
               ++ [(g, o, now env + 24 * 60 * 60 * 1000)]
          else Sports.outcomeRows (adapter w)
      end
  ∧ (Sports.getCachedData (now env) g (Sports.outcomeRows (adapter w)) = None ->
     Market_exists (store w) g = true ->
     forall later, now env ≤ later < now env + 24 * 60 * 60 * 1000 ->
       Sports.getCachedData later g (Sports.outcomeRows a') = Some o).
Proof.
  intros Hst Htime Hmd Hg Hne Hget Hpending.
  assert (Hrows :
    Sports.scheduleRows a' = Sports.scheduleRows (adapter w)
    ∧ Sports.outcomeRows a'
      = match Sports.getCachedData (now env) g (Sports.outcomeRows (adapter w)) with
        | Some _ => Sports.outcomeRows (adapter w)
        | None =>
            if Market_exists (store w) g
            then Sports.outcomeRows (adapter w)
                 ++ [(g, o, now env + 24 * 60 * 60 * 1000)]
            else Sports.outcomeRows (adapter w)
        end).
  { revert Hget. unfold Sports.getGameOutcome.
    destruct (Sports.getCachedData (now env) g (Sports.outcomeRows (adapter w)));
      [by intros [= <- _]|].
    unfold Sports.cacheData.
    replace (now env + 24 * 60 * 60 * 1000) with (now env + 1440 * 60 * 1000)
      by lia.
    repeat (destruct (String.eqb _ _);
            [destruct (Sports.makeRequest _ _ _ _ _) as [l' [p|e]];
             [by intros [= <- <-]|done]|]).
    done. }
  split; [|split; [apply Hrows|split; [apply Hrows|]]].
  - unfold resolveMarketIfReady.
    destruct (String.eqb_spec (status market) "resolved") as [|_]; [done|].
    destruct (Z.ltb_spec (now env) (resolutionTime market)) as [|_]; [lia|].
    unfold Sports.resolveMarket. rewrite Hmd.
    change (default Sports.empty_metadata (Some md)) with md.
    rewrite Hg. change (default "" (Some g)) with g. cbn [truthy_str].
    destruct (String.eqb_spec g "") as [|_]; [done|]. cbn [negb].
    by rewrite Hget, Hpending.
  - intros Hmiss Hfk later Hlater. destruct Hrows as [_ ->].
    rewrite Hmiss, Hfk. apply getCachedData_written. lia.
Qed.

Lemma unfinished_game_is_skipped_witness :
  let md := {| Sports.gameId := Some "0xM"; Sports.sport := Some "mlb";
               Sports.outcomeType := Some "winner";
               Sports.spread := None; Sports.threshold := None |} in
  let game := {| Sports.HomeTeamScore := Some 2; Sports.HomeScore := None;
                 Sports.AwayTeamScore := Some 1; Sports.AwayScore := None;
                 Sports.IsClosed := false; Sports.Status := Some "InProgress";
                 Sports.GameStatus := None |} in
  let o := {| Sports.status := Sports.pending; Sports.homeScore := 2;
              Sports.awayScore := 1; Sports.winner := None |} in
  let env := {| now := 1000; rateLimit := 10;
                http := fun _ => Sports.Body (Sports.Single game);
                writeContract := fun _ _ => Ok "0xreceipt" |} in
  let market := {| id := "0xM"; status := "active"; outcomeCount := 3;
                   resolutionTime := 500; metadata := Some md;
                   totalVolume := 0; totalLiquidity := 0 |} in
  let w := {| store := {| markets := {[ "0xM" := market ]}; events := [];
                          history := []; users := ∅ |};
              adapter := Sports.idle;
              submitted := [] |} in
  let a' := {| Sports.limiter := {| Sports.requestCount := 1;
                                    Sports.requestWindowStart := 0 |};
               Sports.outcomeRows := [("0xM", o, 86401000)];
               Sports.scheduleRows := [] |} in
  resolveMarketIfReady env market w
  = ({| store := store w; adapter := a'; submitted := [] |}, Ok tt)
  ∧ Sports.getCachedData 86400999 "0xM" (Sports.outcomeRows a') = Some o.
Proof.
  intros md game o env market w a'.
  destruct (unfinished_game_is_skipped env market md "0xM" o a' w)
    as (Hrun & _ & _ & Hlater).
  - discriminate.
  - cbn. lia.
  - reflexivity.
  - reflexivity.
  - discriminate.
  - reflexivity.
  - reflexivity.
  - split; [exact Hrun|]. apply Hlater.
    + reflexivity.
    + reflexivity.
    + cbn. lia.
Defined.

(** X8. When the settlement call fails with an error that does not say
    "already resolved", the attempt throws that error and the market is not
    marked resolved: the store is unchanged, the call stays recorded. *)
Theorem failed_settlement_is_not_recorded_as_resolved
    (env : Env) (market : Market) (w : World)
    (winning : option Z) (o : Sports.Outcome) (a' : Sports.Adapter) (e : Error) :
  status market ≠ "resolved" ->
  resolutionTime market ≤ now env ->
  Sports.resolveMarket (rateLimit env) (now env) (http env)
    (Market_exists (store w)) (metadata market) (adapter w)
  = (a', Ok (Sports.Resolved winning o)) ->
  writeContract env (id market) winning = Throw e ->
  already_resolved e = false ->
  resolveMarketIfReady env market w
  = ({| store := store w; adapter := a';
        submitted := submitted w ++ [(id market, winning)] |}, Throw e).
Proof.
  intros Hst Htime Hres Hw He. unfold resolveMarketIfReady.
  destruct (String.eqb_spec (status market) "resolved") as [|_]; [done|].
  destruct (Z.ltb_spec (now env) (resolutionTime market)) as [|_]; [lia|].
  rewrite Hres. unfold callResolveMarket. by rewrite Hw, He.
Qed.

Lemma failed_settlement_is_not_recorded_as_resolved_witness :
  let md := {| Sports.gameId := Some "g1"; Sports.sport := Some "nfl";
               Sports.outcomeType := Some "winner";
               Sports.spread := None; Sports.threshold := None |} in
  let o := {| Sports.status := Sports.finished; Sports.homeScore := 3;
              Sports.awayScore := 1; Sports.winner := Some Sports.home |} in
  let env := {| now := 1000; rateLimit := 10;
                http := fun _ => Sports.NoResponse;
                writeContract := fun _ _ =>
                  Throw (External "insufficient funds for gas") |} in
  let market := {| id := "0xM"; status := "active"; outcomeCount := 3;
                   resolutionTime := 500; metadata := Some md;
                   totalVolume := 0; totalLiquidity := 0 |} in
  let w := {| store := {| markets := {[ "0xM" := market ]}; events := [];
                          history := []; users := ∅ |};
              adapter := {| Sports.limiter := {| Sports.requestCount := 0;
                                                 Sports.requestWindowStart := 0 |};
                            Sports.outcomeRows := [("g1", o, 5000)];
                            Sports.scheduleRows := [] |};
              submitted := [] |} in
  resolveMarketIfReady env market w
  = ({| store := store w; adapter := adapter w;
        submitted := [("0xM", Some 0)] |},
     Throw (External "insufficient funds for gas")).
Proof.
  intros md o env market w.
  apply (failed_settlement_is_not_recorded_as_resolved env market w (Some 0) o
           (adapter w) (External "insufficient funds for gas")).
  - discriminate.
  - cbn. lia.
  - reflexivity.
  - reflexivity.
  - reflexivity.
Defined.

(** X9. An attempt of the scheduler leaves the event ledger, the
    snapshots and the user rows alone, creates and deletes no market row,
    and on a market row changes nothing but the status of the market it was
    given. *)
Theorem scheduler_touches_only_the_status
    (env : Env) (market : Market) (w : World) :
  let s' := store (resolveMarketIfReady env market w).1 in
  events s' = events (store w)
  ∧ history s' = history (store w)
  ∧ users s' = users (store w)
  ∧ (forall mid, mid ≠ id market -> markets s' !! mid = markets (store w) !! mid)
  ∧ (forall mid,
       with_status "resolved" <$> markets s' !! mid
       = with_status "resolved" <$> markets (store w) !! mid).
Proof.
  cbv zeta.
  assert (Hs : store (resolveMarketIfReady env market w).1 = store w
               ∨ store (resolveMarketIfReady env market w).1
                 = resolvedStore (id market) (store w)).
  { destruct (resolveMarketIfReady_cases env market w)
      as [[_ ?]|(wo & _ & [[_ ?]|(e & _ & _ & ?)])]; auto. }
  destruct Hs as [-> | ->]; [done|].
  unfold resolvedStore, Market_updateStatus. cbn. repeat split.
  - intros mid Hne. by rewrite lookup_alter_ne.
  - intros mid. destruct (decide (id market = mid)) as [<-|Hne].
    + rewrite lookup_alter_eq. by destruct (markets (store w) !! id market).
    + by rewrite lookup_alter_ne.
Qed.

Lemma scheduler_touches_only_the_status_witness :
  let env := {| now := 1000; rateLimit := 10;
                http := fun _ => Sports.NoResponse;
                writeContract := fun _ _ => Ok "0xreceipt" |} in
  let market := {| id := "0xM"; status := "active"; outcomeCount := 3;
                   resolutionTime := 500; metadata := None;
                   totalVolume := 0; totalLiquidity := 0 |} in
  let w := {| store := Indexer.emptyStore; adapter := Sports.idle;
              submitted := [] |} in
  markets (store (resolveMarketIfReady env market w).1) !! "0xN"
  = markets (store w) !! "0xN".
Proof.
  intros env market w.
  destruct (scheduler_touches_only_the_status env market w) as (_ & _ & _ & H & _).
  apply H. discriminate.
Defined.

End SchedulerMore.

Section TickMore.
Import Store Resolver.

Lemma resolveAll_app cs1 cs2 : forall w,
  resolveAll (cs1 ++ cs2) w
  = ((resolveAll cs2 (resolveAll cs1 w).1).1,
     (resolveAll cs1 w).2 ++ (resolveAll cs2 (resolveAll cs1 w).1).2).
Proof.
  induction cs1 as [|[env market] cs1 IH]; intros w.
  - cbn. by destruct (resolveAll cs2 w).
  - cbn [app resolveAll].
    destruct (resolveMarketIfReady env market w) as [w1 r].
    rewrite IH. destruct (resolveAll cs1 w1) as [w2 rs]. cbn [fst snd].
    by destruct (resolveAll cs2 w2).
Qed.

Lemma resolveAll_cons env market cs w :
  resolveAll ((env, market) :: cs) w
  = ((resolveAll cs (resolveMarketIfReady env market w).1).1,
     (resolveMarketIfReady env market w).2
     :: (resolveAll cs (resolveMarketIfReady env market w).1).2).
Proof.
  cbn [resolveAll]. destruct (resolveMarketIfReady env market w) as [w1 r].
  cbn [fst snd]. by destruct (resolveAll cs w1).
Qed.

Lemma resolveAll_submitted cs : forall w,
  length (resolveAll cs w).2 = length cs
  ∧ ∃ new, submitted (resolveAll cs w).1 = submitted w ++ new
           ∧ (length new ≤ length cs)%nat
           ∧ Forall (fun call => call.1 ∈ (fun c => id c.2) <$> cs) new.
Proof.
  induction cs as [|[env market] cs IH]; intros w.
  - split; [done|]. exists []. cbn. rewrite app_nil_r. repeat split; [lia|done].
  - rewrite resolveAll_cons. cbn [fst snd length].
    destruct (IH (resolveMarketIfReady env market w).1)
      as [Hlen (new & Hnew & Hle & Hall)].
    split; [by rewrite Hlen|].
    assert (Hin : Forall (fun call => call.1 ∈ (fun c => id c.2) <$> (env, market) :: cs) new).
    { eapply Forall_impl; [exact Hall|]. intros call ?. rewrite fmap_cons. by right. }
    destruct (resolveMarketIfReady_cases env market w)
      as [[Hsub _]|(wo & Hsub & _)].
    + exists new. rewrite Hnew, Hsub. repeat split; [lia|done].
    + exists ((id market, wo) :: new). rewrite Hnew, Hsub, <- app_assoc.
      repeat split; [cbn; lia|]. constructor; [|done]. rewrite fmap_cons. by left.
Qed.

(** X10. In a tick every candidate gets its attempt whether or not an
    earlier one threw (one outcome per candidate, and a tick over a list is
    the tick over its first part followed by the tick over the rest), and
    the tick records at most one settlement call per candidate, each for a
    candidate's market, after the calls recorded before. *)
Theorem tick_attempts_every_candidate
    (cs1 cs2 : list (Env * Market)) (w : World) :
  resolveAll (cs1 ++ cs2) w
  = ((resolveAll cs2 (resolveAll cs1 w).1).1,
     (resolveAll cs1 w).2 ++ (resolveAll cs2 (resolveAll cs1 w).1).2)
  ∧ length (resolveAll cs1 w).2 = length cs1
  ∧ ∃ new, submitted (resolveAll cs1 w).1 = submitted w ++ new
           ∧ (length new ≤ length cs1)%nat
           ∧ Forall (fun call => call.1 ∈ (fun c => id c.2) <$> cs1) new.
Proof.
  split; [apply resolveAll_app|]. apply resolveAll_submitted.
Qed.

(** X11. [manuallyResolveMarket]: an unknown market and a market already
    resolved are rejected with nothing submitted and nothing changed;
    otherwise exactly one settlement call with the given outcome is
    recorded, and the market ends resolved with answer [true] when the call
    returns or fails as "already resolved", while any other failure is
    thrown and leaves the store as it was. *)
Theorem manual_resolution (env : Env) (mid : string) (winning : Z) (w : World) :
  (markets (store w) !! mid = None ->
   manuallyResolveMarket env mid winning w = (w, Throw (MarketNotFound mid)))
  ∧ (forall m, markets (store w) !! mid = Some m -> status m = "resolved" ->
       manuallyResolveMarket env mid winning w = (w, Throw MarketAlreadyResolved))
  ∧ (forall m, markets (store w) !! mid = Some m -> status m ≠ "resolved" ->
       let w' := (manuallyResolveMarket env mid winning w).1 in
       let r := (manuallyResolveMarket env mid winning w).2 in
       submitted w' = submitted w ++ [(mid, Some winning)]
       ∧ ((r = Ok true ∧ System.status_of mid (store w') = Some "resolved")
          ∨ (∃ e, writeContract env mid (Some winning) = Throw e
                  ∧ already_resolved e = false
                  ∧ r = Throw e ∧ store w' = store w))).
Proof.
  unfold manuallyResolveMarket. split; [|split].
  - by intros ->.
  - intros m -> Hst. by destruct (String.eqb_spec (status m) "resolved").
  - intros m Hm Hst. cbv zeta. rewrite Hm.
    destruct (String.eqb_spec (status m) "resolved") as [|_]; [done|].
    unfold callResolveMarket.
    assert (Hres : System.status_of mid
                     (store (mark_resolved mid
                        {| store := store w; adapter := adapter w;
                           submitted := submitted w ++ [(mid, Some winning)] |}))
                   = Some "resolved").
    { unfold System.status_of. cbn. unfold Market_updateStatus.
      by rewrite lookup_alter_eq, Hm. }
    destruct (writeContract env mid (Some winning)) as [receipt|e] eqn:Hw.
    + split; [done|]. by left.
    + destruct (already_resolved e) eqn:He.
      * split; [done|]. by left.
      * split; [done|]. right. by exists e.
Qed.

Lemma manual_resolution_witness :
  let env := {| now := 1000; rateLimit := 10;
                http := fun _ => Sports.NoResponse;
                writeContract := fun _ _ => Ok "0xreceipt" |} in
  let w := {| store := Indexer.emptyStore; adapter := Sports.idle;
              submitted := [] |} in
  manuallyResolveMarket env "0xM" 1 w = (w, Throw (MarketNotFound "0xM")).
Proof.
  intros env w.
  apply (proj1 (manual_resolution env "0xM" 1 w)). reflexivity.
Defined.

(** X12. The life cycle of the resolver: [start()] does nothing at all (no
    check is run, the service stays as it is) when the service is running
    already, is disabled or has no private key; [stop()] twice is [stop()]
    once and never touches the world; and a timer callback that fires after
    [stop()] does nothing. *)
Theorem resolver_life_cycle
    (cfg : OracleConfig) (query : result (list (Env * Market))) (svc : Service) :
  (isRunning svc = true ∨ enabled cfg = false
   ∨ truthy_str (privateKey cfg) = false ->
   start cfg query svc = svc)
  ∧ stop (stop svc) = stop svc
  ∧ world (stop svc) = world svc
  ∧ tick query (stop svc) = stop svc
  ∧ (isRunning svc = false -> enabled cfg = true ->
     truthy_str (privateKey cfg) = true ->
     isRunning (start cfg query svc) = true
     ∧ world (start cfg query svc) = (checkAndResolveMarkets query (world svc)).1
     ∧ stop (start cfg query svc)
       = {| isRunning := false; timer := None;
            world := (checkAndResolveMarkets query (world svc)).1 |}).
Proof.
  unfold start, stop, tick. destruct svc as [running t wd].
  cbn [isRunning timer world]. repeat split.
  - intros [->|[->| ->]]; [done| |].
    + by destruct running.
    + by destruct running, (enabled cfg).
  - by destruct running.
  - by destruct running.
  - by destruct running.
  - by rewrite H, H0, H1.
  - by rewrite H, H0, H1.
  - by rewrite H, H0, H1.
Qed.

Lemma resolver_life_cycle_witness :
  let svc := {| isRunning := false; timer := None;
                world := {| store := Indexer.emptyStore;
                            adapter := Sports.idle;
                            submitted := [] |} |} in
  start {| enabled := true; privateKey := None; checkInterval := 60000 |}
    (Ok []) svc = svc.
Proof.
  intros svc.
  apply (proj1 (resolver_life_cycle
                  {| enabled := true; privateKey := None; checkInterval := 60000 |}
                  (Ok []) svc)).
  right; right. reflexivity.
Defined.

End TickMore.

(** ** The indexer *)

Section SnapshotMore.
Import Store Indexer.

(** X13. [updateMarketSnapshot] does nothing for a market the store does not
    have. For a market it has, it appends exactly one snapshot, with one
    price per outcome: the price the contract reports divided by 10^18, or
    0 when the price cannot be read. The volume and the liquidity of the
    snapshot are the values the contract reports, as they are, or 0 when
    they cannot be read, and they replace the market's totals; the ledger
    and the user rows are not touched. *)
Theorem snapshot_of_a_market (chain : Chain) (mid : string) (ts : Z) (st : State) :
  (markets (db st) !! mid = None -> updateMarketSnapshot chain mid ts st = st)
  ∧ (forall m, markets (db st) !! mid = Some m ->
       let st' := updateMarketSnapshot chain mid ts st in
       ∃ snap,
         history (db st') = history (db st) ++ [snap]
         ∧ snapMarket snap = mid
         ∧ length (prices snap) = outcomeCount m
         ∧ (forall i, (i < outcomeCount m)%nat ->
              prices snap !! i
              = Some (match getPrice chain mid i with
                      | Some price =>
                          QArith_base.Qmake price 1000000000000000000
                      | None => QArith_base.Qmake 0 1
                      end))
         ∧ volume snap = default 0 (chainVolume chain mid)
         ∧ liquidity snap = default 0 (chainLiquidity chain mid)
         ∧ markets (db st') !! mid
           = Some (with_totals (volume snap) (liquidity snap) m)
         ∧ events (db st') = events (db st)
         ∧ users (db st') = users (db st)).
Proof.
  unfold updateMarketSnapshot. split.
  - by intros ->.
  - intros m Hm. cbv zeta. rewrite Hm. eexists.
    cbn [db history set_db set_markets set_history markets events users
         snapMarket prices volume liquidity].
    repeat split.
    + cbn [prices]. unfold fetchMarketPrices. by rewrite length_fmap, length_seq.
    + intros i Hi. cbn [prices]. unfold fetchMarketPrices.
      rewrite list_lookup_fmap, lookup_seq_lt by done. done.
    + unfold Market_updateVolume. by rewrite lookup_alter_eq, Hm.
Qed.

Lemma snapshot_of_a_market_witness :
  let m := {| id := "0xM"; status := "active"; outcomeCount := 2;
              resolutionTime := 0; metadata := None; totalVolume := 0;
              totalLiquidity := 0 |} in
  let st := fresh {| markets := {[ "0xM" := m ]}; events := [];
                     history := []; users := ∅ |} in
  ∃ snap,
    history (db (updateMarketSnapshot exampleChain "0xM" 7 st)) = [snap]
    ∧ prices snap !! 1%nat
      = Some (QArith_base.Qmake 500 1000000000000000000)
    ∧ volume snap = 10 ∧ liquidity snap = 100
    ∧ markets (db (updateMarketSnapshot exampleChain "0xM" 7 st)) !! "0xM"
      = Some (with_totals 10 100 m).
Proof.
  intros m st.
  destruct (proj2 (snapshot_of_a_market exampleChain "0xM" 7 st) m eq_refl)
    as (snap & Hh & _ & _ & Hp & Hv & Hl & Hm & _).
  exists snap. split; [exact Hh|]. split; [|split; [exact Hv|split; [exact Hl|]]].
  - apply (Hp 1%nat). cbn. lia.
  - rewrite Hm, Hv, Hl. reflexivity.
Defined.

(** X15. A log handled as a kind other than a purchase or a sale (a
    ['LiquidityAdded'] or ['MarketResolved'] log, say) takes no snapshot,
    changes no market row except for the status, and changes the counters
    of no user row there is. *)
Theorem other_kinds_leave_totals_alone
    (updateStats : Z -> Z -> UserStats -> UserStats) (chain : Chain)
    (eventType : string) (log : Log) (st : State) :
  is_trade eventType = false ->
  let st' := handleMarketEvent updateStats chain eventType log st in
  history (db st') = history (db st)
  ∧ (forall mid,
       with_status "resolved" <$> markets (db st') !! mid
       = with_status "resolved" <$> markets (db st) !! mid)
  ∧ (forall a row, users (db st) !! a = Some row -> users (db st') !! a = Some row).
Proof.
  intros Htrade. cbv zeta. unfold handleMarketEvent. rewrite Htrade.
  destruct (blockTime chain (logBlock log)) as [ts|]; [|done].
  assert (Husers : forall a row,
            users (db st) !! a = Some row ->
            updateUser updateStats eventType (user_of (args log))
              (cost_of (args log)) (users (db st)) !! a = Some row).
  { intros a row Ha. unfold updateUser. rewrite Htrade.
    destruct (user_of (args log)) as [addr|]; [|done].
    destruct (truthy_str (Some addr)); [|done]. unfold User_upsert.
    destruct (users (db st) !! addr) eqn:Haddr; [done|].
    rewrite lookup_insert_ne; [done|]. congruence. }
  destruct (String.eqb eventType "MarketResolved"); cbn; repeat split; try done.
  intros mid. unfold Market_updateStatus.
  destruct (decide (address log = mid)) as [<-|Hne].
  - rewrite lookup_alter_eq. by destruct (markets (db st) !! address log).
  - by rewrite lookup_alter_ne.
Qed.

Lemma other_kinds_leave_totals_alone_witness :
  history (db (handleMarketEvent replaceStats exampleChain "LiquidityAdded"
                 {| address := "0xM"; event := "LiquidityAdded";
                    args := noArgs; logBlock := 7; logTx := "0xa9";
                    logIdx := 1 |} (fresh emptyStore)))
  = history (db (fresh emptyStore)).
Proof.
  apply (other_kinds_leave_totals_alone replaceStats exampleChain "LiquidityAdded"
           {| address := "0xM"; event := "LiquidityAdded"; args := noArgs;
              logBlock := 7; logTx := "0xa9"; logIdx := 1 |}
           (fresh emptyStore)).
  reflexivity.
Defined.

End SnapshotMore.

Section PassMore.
Import Store Indexer.

Lemma foldl_counts {X} (f : State -> X -> State) (bad : X -> Prop)
    `{forall x, Decision (bad x)} xs :
  (forall st x, errors (f st x)
                = (errors st + if decide (bad x) then 1 else 0)%nat) ->
  forall st, errors (foldl f st xs) = (errors st + length (filter bad xs))%nat.
Proof.
  intros Hf. induction xs as [|x xs IH]; intros st; cbn [foldl].
  - cbn. lia.
  - rewrite IH, Hf, filter_cons. destruct (decide (bad x)); cbn [length]; lia.
Qed.

Lemma foldl_extends {X A} (proj : State -> list A) (f : State -> X -> State) xs :
  (forall st x, proj st `prefix_of` proj (f st x)) ->
  forall st, proj st `prefix_of` proj (foldl f st xs).
Proof.
  intros Hf. induction xs as [|x xs IH]; intros st; cbn [foldl]; [done|].
  etrans; [apply Hf|apply IH].
Qed.

Lemma foldl_keeps {X} (P : State -> Prop) (f : State -> X -> State) xs :
  (forall st x, P st -> P (f st x)) ->
  forall st, P st -> P (foldl f st xs).
Proof.
  intros Hf. induction xs as [|x xs IH]; intros st Hst; cbn [foldl]; [done|].
  by apply IH, Hf.
Qed.

Lemma create_extends e rows : rows `prefix_of` MarketEvent_create e rows.
Proof.
  unfold MarketEvent_create. case_decide; [done|]. by apply prefix_app_r.
Qed.

Lemma handleMarketEvent_errors_count updateStats chain eventType log st :
  errors (handleMarketEvent updateStats chain eventType log st)
  = (errors st + if decide (blockTime chain (logBlock log) = None) then 1 else 0)%nat.
Proof.
  destruct (blockTime chain (logBlock log)) as [ts|] eqn:Hts.
  - rewrite decide_False by done.
    rewrite handleMarketEvent_errors; [lia|]. by exists ts.
  - rewrite decide_True by done. unfold handleMarketEvent. rewrite Hts. cbn. lia.
Qed.

Lemma handleMarketCreated_errors_count chain log st :
  errors (handleMarketCreated chain log st)
  = (errors st
     + if decide (blockTime chain (logBlock log) = None
                  ∨ market_of (args log) = None) then 1 else 0)%nat.
Proof.
  unfold handleMarketCreated.
  destruct (blockTime chain (logBlock log)) as [ts|].
  - destruct (market_of (args log)) as [mid|].
    + rewrite decide_False by (by intros [?|?]). cbn. lia.
    + rewrite decide_True by (by right). cbn. lia.
  - rewrite decide_True by (by left). cbn. lia.
Qed.

Lemma handleMarketCreated_extends chain log st :
  events (db st) `prefix_of` events (db (handleMarketCreated chain log st))
  ∧ marketContracts st `prefix_of` marketContracts (handleMarketCreated chain log st)
  ∧ (NoDup (marketContracts st) ->
     NoDup (marketContracts (handleMarketCreated chain log st))).
Proof.
  unfold handleMarketCreated.
  destruct (blockTime chain (logBlock log)) as [ts|]; [|done].
  destruct (market_of (args log)) as [mid|]; [|done]. cbn. split; [|split].
  - apply create_extends.
  - case_decide; [done|]. by apply prefix_app_r.
  - intros Hnd. case_decide as Hin; [done|].
    apply NoDup_app. split; [done|]. split; [|apply NoDup_singleton].
    intros a Ha Ha'. apply list_elem_of_singleton in Ha'. by subst.
Qed.

(** X14. With the statements on the store taken to be executed, a pass
    over a block range logs exactly: one error if the query for the creation
    logs fails; one for every creation log it gets and cannot store (its
    block cannot be read, or it names no market); one for every query of a
    watched contract that fails with a message that does not include
    ['not found']; and one for every market log it gets whose block cannot
    be read. A log or a query that fails is skipped and does not stop the
    pass. *)
Theorem pass_logs_one_error_per_failed_log
    (updateStats : Z -> Z -> UserStats -> UserStats) (cfg : Config)
    (chain : Chain) (lo hi : Z) (st : State) :
  let st' := processBlockRange updateStats cfg chain lo hi st in
  errors st'
  = (errors st
     + (if factoryFault cfg chain lo hi then 1 else 0)
     + length (filter (fun c => blockTime chain (logBlock c) = None
                                ∨ market_of (args c) = None)
                 (factoryLogs cfg chain lo hi))
     + length (filter (fun q => loggedFault chain lo hi q = true)
                 (marketQueries (marketContracts st')))
     + length (filter (fun el => blockTime chain (logBlock el.2) = None)
                 (marketLogs chain lo hi (marketContracts st'))))%nat.
Proof.
  cbv zeta. rewrite processBlockRange_watches.
  rewrite processBlockRange_phases, log_errors_errors. unfold handleAll.
  rewrite (foldl_counts _ (fun el => blockTime chain (logBlock el.2) = None))
    by (intros; apply handleMarketEvent_errors_count).
  assert (Hc : errors (createdPhase cfg chain lo hi st)
               = ((if factoryFault cfg chain lo hi then 1 else 0)
                  + (errors st
                     + length (filter (fun c => blockTime chain (logBlock c) = None
                                                ∨ market_of (args c) = None)
                                 (factoryLogs cfg chain lo hi))))%nat).
  { rewrite createdPhase_phases, log_errors_errors.
    by rewrite (foldl_counts _ (fun c => blockTime chain (logBlock c) = None
                                         ∨ market_of (args c) = None))
      by (intros; apply handleMarketCreated_errors_count). }
  rewrite Hc. lia.
Qed.

(** The pass of the example behind a node that refuses its query: one error
    for the creation query; no market is watched, so no other query is
    made. *)
Lemma pass_with_a_refused_query :
  errors (processBlockRange replaceStats exampleConfig cappedChain 0 10
            (fresh emptyStore)) = 1%nat
  ∧ factoryFault exampleConfig cappedChain 0 10 = true.
Proof. vm_compute. split; reflexivity. Qed.

Lemma handleAll_extends updateStats chain els st :
  events (db st) `prefix_of` events (db (handleAll updateStats chain els st)).
Proof.
  apply (foldl_extends (fun s => events (db s))). intros s el.
  rewrite handleMarketEvent_events.
  destruct (blockTime chain (logBlock el.2)); [apply create_extends|done].
Qed.

Lemma handleCreated_extends chain delivered st :
  let st' := foldl (fun s log => handleMarketCreated chain log s) st delivered in
  events (db st) `prefix_of` events (db st')
  ∧ marketContracts st `prefix_of` marketContracts st'
  ∧ (NoDup (marketContracts st) -> NoDup (marketContracts st')).
Proof.
  cbv zeta. split; [|split].
  - apply (foldl_extends (fun s => events (db s))).
    intros. apply handleMarketCreated_extends.
  - apply (foldl_extends marketContracts). intros. apply handleMarketCreated_extends.
  - apply (foldl_keeps (fun s => NoDup (marketContracts s))).
    intros. by apply handleMarketCreated_extends.
Qed.

Lemma processBlockRange_extends updateStats cfg chain lo hi st :
  events (db st) `prefix_of`
    events (db (processBlockRange updateStats cfg chain lo hi st))
  ∧ marketContracts st `prefix_of`
      marketContracts (processBlockRange updateStats cfg chain lo hi st)
  ∧ (NoDup (marketContracts st) ->
     NoDup (marketContracts (processBlockRange updateStats cfg chain lo hi st))).
Proof.
  rewrite processBlockRange_phases, log_errors_db, log_errors_watched,
    handleAll_watched.
  rewrite createdPhase_phases.
  destruct (handleCreated_extends chain (factoryLogs cfg chain lo hi) st)
    as (H1 & H2 & H3).
  split; [|by rewrite log_errors_watched].
  etrans; [exact H1|]. etrans; [|apply handleAll_extends].
  by rewrite log_errors_db.
Qed.

Lemma pollResume_extends updateStats cfg chain cb st :
  let st' := (pollResume updateStats cfg chain cb st).1 in
  events (db st) `prefix_of` events (db st')
  ∧ marketContracts st `prefix_of` marketContracts st'
  ∧ (NoDup (marketContracts st) -> NoDup (marketContracts st')).
Proof.
  cbv zeta. destruct cb as [|fromBlock toBlock]; cbn [pollResume].
  - destruct (head chain) as [h|]; [|done].
    by destruct (h >? lastProcessedBlock st).
  - apply (processBlockRange_extends updateStats cfg chain).
Qed.

Lemma live_extends updateStats cfg ev lp :
  let st := indexer lp in
  let st' := indexer (live updateStats cfg ev lp) in
  events (db st) `prefix_of` events (db st')
  ∧ marketContracts st `prefix_of` marketContracts st'
  ∧ (NoDup (marketContracts st) -> NoDup (marketContracts st')).
Proof.
  cbv zeta. destruct ev as [|n chain|chain delivered]; cbn [live].
  - by destruct (pollFire (indexer lp)).
  - destruct (suspended lp !! n) as [cb|]; [|done].
    pose proof (pollResume_extends updateStats cfg chain cb (indexer lp)) as H.
    cbv zeta in H.
    by destruct (pollResume updateStats cfg chain cb (indexer lp)) as [st' [cb'|]].
  - apply handleCreated_extends.
Qed.

Lemma liveRun_extends updateStats cfg evs : forall lp,
  let st := indexer lp in
  let st' := indexer (liveRun updateStats cfg evs lp) in
  events (db st) `prefix_of` events (db st')
  ∧ marketContracts st `prefix_of` marketContracts st'
  ∧ (NoDup (marketContracts st) -> NoDup (marketContracts st')).
Proof.
  cbv zeta. induction evs as [|ev evs IH]; intros lp; [done|].
  cbn [liveRun foldl]. fold (liveRun updateStats cfg evs (live updateStats cfg ev lp)).
  destruct (live_extends updateStats cfg ev lp) as (H1 & H2 & H3).
  destruct (IH (live updateStats cfg ev lp)) as (I1 & I2 & I3).
  split; [by etrans|]. split; [by etrans|]. intros Hnd. by apply I3, H3.
Qed.

Lemma backfillLoop_extends updateStats cfg chain toBlock fuel : forall start st st',
  backfillLoop updateStats cfg fuel chain start toBlock st = Some st' ->
  events (db st) `prefix_of` events (db st')
  ∧ marketContracts st `prefix_of` marketContracts st'
  ∧ (NoDup (marketContracts st) -> NoDup (marketContracts st')).
Proof.
  induction fuel as [|fuel IH]; intros start st st'; cbn [backfillLoop];
    destruct (start <=? toBlock); try done; try (by intros [= <-]).
  intros Hloop. apply IH in Hloop as (H1 & H2 & H3).
  match type of H1 with
  | context [processBlockRange _ _ _ ?s ?e _] =>
      destruct (processBlockRange_extends updateStats cfg chain s e st)
        as (P1 & P2 & P3)
  end.
  split; [by etrans|]. split; [by etrans|]. intros Hnd. by apply H3, P3.
Qed.

(** X16. Stored event rows are never changed or removed: the ledger before
    a pass over a block range, before a backfill, and before any sequence of
    events of a started indexer (the poll timer firing, suspended poll
    callbacks going on in any order, creation logs pushed), whatever
    callbacks are suspended, is a prefix of the ledger after it. *)
Theorem ledger_is_append_only
    (updateStats : Z -> Z -> UserStats -> UserStats) (cfg : Config) (st : State) :
  (forall chain lo hi,
     events (db st) `prefix_of`
       events (db (processBlockRange updateStats cfg chain lo hi st)))
  ∧ (forall fuel chain start toBlock st',
       backfillLoop updateStats cfg fuel chain start toBlock st = Some st' ->
       events (db st) `prefix_of` events (db st'))
  ∧ (forall evs cbs,
       events (db st) `prefix_of`
         events (db (indexer (liveRun updateStats cfg evs
                                {| indexer := st; suspended := cbs |})))).
Proof.
  split; [|split].
  - intros. apply processBlockRange_extends.
  - intros fuel chain start toBlock st' Hloop.
    by apply (backfillLoop_extends updateStats cfg chain toBlock fuel start).
  - intros evs cbs.
    apply (liveRun_extends updateStats cfg evs {| indexer := st; suspended := cbs |}).
Qed.

Lemma ledger_is_append_only_witness :
  ∃ st', backfillLoop replaceStats exampleConfig 11 exampleChain 0 10
           (fresh emptyStore) = Some st'
         ∧ events (db (fresh emptyStore)) `prefix_of` events (db st').
Proof.
  destruct (backfillLoop replaceStats exampleConfig 11 exampleChain 0 10
              (fresh emptyStore)) as [st'|] eqn:Hloop; [|discriminate Hloop].
  exists st'. split; [reflexivity|].
  exact (proj1 (proj2 (ledger_is_append_only replaceStats exampleConfig
                         (fresh emptyStore)))
           11%nat exampleChain 0 10 st' Hloop).
Defined.

(** X17. A contract once watched stays watched, in its place in the order
    of iteration, and the watch list never comes to hold an address twice:
    this holds over a pass, over a backfill and over any sequence of events
    of a started indexer (the poll timer firing, suspended poll callbacks
    going on in any order, creation logs pushed), whatever callbacks are
    suspended. *)
Theorem watch_list_only_grows
    (updateStats : Z -> Z -> UserStats -> UserStats) (cfg : Config) (st : State) :
  (forall chain lo hi,
     let st' := processBlockRange updateStats cfg chain lo hi st in
     marketContracts st `prefix_of` marketContracts st'
     ∧ (NoDup (marketContracts st) -> NoDup (marketContracts st')))
  ∧ (forall fuel chain start toBlock st',
       backfillLoop updateStats cfg fuel chain start toBlock st = Some st' ->
       marketContracts st `prefix_of` marketContracts st'
       ∧ (NoDup (marketContracts st) -> NoDup (marketContracts st')))
  ∧ (forall evs cbs,
       let st' := indexer (liveRun updateStats cfg evs
                             {| indexer := st; suspended := cbs |}) in
       marketContracts st `prefix_of` marketContracts st'
       ∧ (NoDup (marketContracts st) -> NoDup (marketContracts st'))).
Proof.
  split; [|split].
  - intros. apply processBlockRange_extends.
  - intros fuel chain start toBlock st' Hloop.
    by apply (backfillLoop_extends updateStats cfg chain toBlock fuel start).
  - intros evs cbs. cbv zeta.
    apply (liveRun_extends updateStats cfg evs {| indexer := st; suspended := cbs |}).
Qed.

Lemma watch_list_only_grows_witness :
  NoDup (marketContracts
           (processBlockRange replaceStats exampleConfig exampleChain 0 10
              (processBlockRange replaceStats exampleConfig exampleChain 0 10
                 (fresh emptyStore)))).
Proof.
  pose proof (watch_list_only_grows replaceStats exampleConfig
                (fresh emptyStore)) as (H1 & _).
  pose proof (watch_list_only_grows replaceStats exampleConfig
                (processBlockRange replaceStats exampleConfig exampleChain 0 10
                   (fresh emptyStore))) as (H2 & _).
  apply (H2 exampleChain 0 10), (H1 exampleChain 0 10). constructor.
Defined.

(** A creation log a pass gets and can store is a creation log of the range
    whose query was answered. *)
Lemma Delivered_Created cfg chain lo hi c :
  Delivered cfg chain lo hi c
  ↔ Created cfg chain lo hi c
    ∧ logsFault chain (address c) "MarketCreated" lo hi = None.
Proof.
  unfold Created, Delivered, factoryLogs. cbn [truthy_str]. split.
  - intros (Hc & ? & ?). destruct (marketFactory cfg) as [f|];
      [|by apply elem_of_nil in Hc].
    destruct (String.eqb_spec f "") as [|Hne]; cbn [negb] in Hc;
      [by apply elem_of_nil in Hc|].
    apply elem_of_answered in Hc as (? & ? & -> & ? & ? & ?).
    split; [by exists f|done].
  - intros [(f & -> & Hne & ? & <- & ? & ? & ? & ? & ?) Hq].
    destruct (String.eqb_spec (address c) "") as [|_]; [done|]. cbn [negb].
    split; [|done]. apply elem_of_answered. by repeat split.
Qed.

Lemma marketLogs_answered chain lo hi ws k :
  (∃ el, el ∈ marketLogs chain lo hi ws ∧ readable chain el.2 ∧ k = logKey el.2)
  ↔ ∃ a l, a ∈ ws ∧ Emitted chain lo hi a l
           ∧ logsFault chain a (event l) lo hi = None ∧ k = logKey l.
Proof.
  split.
  - intros (el & Hel & Hr & ->).
    apply elem_of_marketLogs in Hel as (? & ? & ? & ? & ? & ? & ?).
    exists (address el.2), el.2. by repeat split.
  - intros (a & l & Ha & (? & <- & ? & ? & ? & ?) & ? & ->).
    exists (event l, l). split; [|done]. apply elem_of_marketLogs.
    by repeat split.
Qed.

Lemma processBlockRange_Processed updateStats cfg chain lo hi st :
  healthy chain -> NoDup (keys st) ->
  Processed cfg chain st lo hi (processBlockRange updateStats cfg chain lo hi st).
Proof.
  intros Hh Hnd. split; [|split].
  - intros a. by apply processBlockRange_watched_healthy.
  - intros k. by apply processBlockRange_keys_healthy.
  - by apply processBlockRange_NoDup.
Qed.

(** X18. After one pass over the blocks [lo..hi], from a store that
    satisfies the uniqueness constraint, the contracts watched are those
    watched before and the markets named by the storable creation logs of
    the configured factory in the range, if the query for them was
    answered. The ledger holds exactly the keys it held before, those of
    these creation logs, and those of the readable logs in the range with
    event name SharesPurchased, SharesSold, LiquidityAdded or
    MarketResolved of a contract watched at the end of the pass (a market
    announced in this very pass included), for each query of the pass that
    was answered; no key is stored twice. When every query is answered this
    is the range processed. *)
Theorem pass_stores_exactly
    (updateStats : Z -> Z -> UserStats -> UserStats) (cfg : Config)
    (chain : Chain) (lo hi : Z) (st : State) :
  NoDup (keys st) ->
  let st' := processBlockRange updateStats cfg chain lo hi st in
  (∀ a, a ∈ marketContracts st'
        ↔ a ∈ marketContracts st
          ∨ ∃ c, Created cfg chain lo hi c
                 ∧ logsFault chain (address c) "MarketCreated" lo hi = None
                 ∧ market_of (args c) = Some a)
  ∧ (∀ k, k ∈ keys st'
          ↔ k ∈ keys st
            ∨ (∃ c, Created cfg chain lo hi c
                    ∧ logsFault chain (address c) "MarketCreated" lo hi = None
                    ∧ k = logKey c)
            ∨ (∃ a l, a ∈ marketContracts st'
                      ∧ l ∈ logs chain ∧ address l = a
                      ∧ (event l = "SharesPurchased" ∨ event l = "SharesSold"
                         ∨ event l = "LiquidityAdded"
                         ∨ event l = "MarketResolved")
                      ∧ lo ≤ logBlock l ∧ logBlock l ≤ hi ∧ readable chain l
                      ∧ logsFault chain a (event l) lo hi = None
                      ∧ k = logKey l))
  ∧ NoDup (keys st')
  ∧ (healthy chain -> Processed cfg chain st lo hi st').
Proof.
  intros Hnd. cbv zeta. split; [|split; [|split]].
  - intros a. rewrite processBlockRange_watched.
    split; (intros [?|(c & Hc)]; [by left|right]); exists c.
    + destruct Hc as [Hc ?]. apply Delivered_Created in Hc as [? ?]. done.
    + destruct Hc as (? & ? & ?). split; [|done]. by apply Delivered_Created.
  - intros k. rewrite processBlockRange_keys, marketLogs_answered. split.
    + intros [?|[(c & Hc & ?)|(a & l & Ha & Hl & ? & ?)]];
        [by left|right; left|right; right].
      * exists c. apply Delivered_Created in Hc as [? ?]. done.
      * exists a, l. by destruct Hl as (? & ? & ? & ? & ? & ?).
    + intros [?|[(c & ? & ? & ?)|(a & l & ? & ? & ? & ? & ? & ? & ? & ? & ?)]];
        [by left|right; left|right; right].
      * exists c. split; [|done]. by apply Delivered_Created.
      * exists a, l. by repeat split.
  - by apply processBlockRange_NoDup.
  - intros Hh. by apply processBlockRange_Processed.
Qed.

Lemma pass_stores_exactly_witness :
  let st' := processBlockRange replaceStats exampleConfig exampleChain 0 10
               (fresh emptyStore) in
  ("0xa2", 0) ∈ keys st' ∧ NoDup (keys st').
Proof.
  intros st'.
  destruct (pass_stores_exactly replaceStats exampleConfig exampleChain 0 10
              (fresh emptyStore)) as (_ & Hk & Hnd & _); [constructor|].
  split; [|exact Hnd]. apply Hk. right; right.
  exists "0xM",
    {| address := "0xM"; event := "SharesPurchased";
       args := {| market := None; marketAddress := None; creator := None;
                  creatorAddress := None; outcomes := []; user := None;
                  buyer := Some "0xU"; seller := None; provider := None;
                  outcome := Some 1; argShares := Some 4; argCost := Some 10;
                  amount := None; winningOutcome := None |};
       logBlock := 6; logTx := "0xa2"; logIdx := 0 |}.
  split; [apply (bool_decide_unpack _); reflexivity|].
  split; [apply list_elem_of_further, list_elem_of_here|].
  split; [reflexivity|]. split; [by left|].
  split; [cbn; lia|]. split; [cbn; lia|]. split; [by eexists|].
  split; reflexivity.
Defined.

(** X19. A poll callback that runs from its start to its end with nothing
    in between changes nothing when the indexer is not running or the chain
    is not ahead of the cursor, and only logs an error when the height
    cannot be read. When the chain is ahead, it makes the one pass over the
    blocks after the cursor up to the height read and leaves the cursor at
    that height; when every query of that pass is answered, exactly those
    blocks are processed. *)
Theorem poll_tick_processes_the_new_blocks
    (updateStats : Z -> Z -> UserStats -> UserStats) (cfg : Config)
    (chain : Chain) (st : State) :
  (isRunning st = false -> pollTick updateStats cfg chain st = st)
  ∧ (forall e, isRunning st = true -> head chain = Throw e ->
       pollTick updateStats cfg chain st = log_error st)
  ∧ (forall h, head chain = Ok h -> h ≤ lastProcessedBlock st ->
       pollTick updateStats cfg chain st = st)
  ∧ (forall h, isRunning st = true -> head chain = Ok h ->
       lastProcessedBlock st < h ->
       pollTick updateStats cfg chain st
       = set_cursor h (processBlockRange updateStats cfg chain
                         (lastProcessedBlock st + 1) h st)
       ∧ lastProcessedBlock (pollTick updateStats cfg chain st) = h
       ∧ (healthy chain -> NoDup (keys st) ->
          Processed cfg chain st (lastProcessedBlock st + 1) h
            (pollTick updateStats cfg chain st))).
Proof.
  rewrite pollTick_unfold. split; [|split; [|split]].
  - by intros ->.
  - by intros e -> ->.
  - intros h -> Hle. destruct (negb (isRunning st)); [done|].
    destruct (Z.gtb_spec h (lastProcessedBlock st)); [lia|done].
  - intros h -> -> Hlt. cbn [negb].
    destruct (Z.gtb_spec h (lastProcessedBlock st)); [|lia].
    split; [done|]. split; [done|]. intros Hh Hnd.
    apply Processed_set_cursor. by apply processBlockRange_Processed.
Qed.

Lemma poll_tick_processes_the_new_blocks_witness :
  let st := set_running true (set_cursor 4 (fresh emptyStore)) in
  let st' := pollTick replaceStats exampleConfig exampleChain st in
  lastProcessedBlock st' = 10
  ∧ Processed exampleConfig exampleChain st 5 10 st'
  ∧ length (events (db st')) = 3%nat.
Proof.
  intros st st'.
  destruct (poll_tick_processes_the_new_blocks replaceStats exampleConfig
              exampleChain st) as (_ & _ & _ & H).
  destruct (H 10) as (_ & Hcursor & HP).
  - reflexivity.
  - reflexivity.
  - cbn. lia.
  - split; [exact Hcursor|]. split; [|reflexivity].
    apply HP; [intros a eventName lo hi; reflexivity|constructor].
Defined.

End PassMore.

Section BackfillMore.
Import Store Indexer.

Lemma backfillLoop_frame_rest updateStats cfg chain toBlock fuel : forall start st st',
  backfillLoop updateStats cfg fuel chain start toBlock st = Some st' ->
  isRunning st' = isRunning st.
Proof.
  induction fuel as [|fuel IH]; intros start st st'; cbn [backfillLoop];
    destruct (start <=? toBlock); try done; try (by intros [= <-]).
  intros Hloop. apply IH in Hloop. rewrite Hloop. cbn [isRunning set_cursor].
  match goal with
  | |- context [processBlockRange _ _ _ ?s ?e _] =>
      pose proof (processBlockRange_frame updateStats cfg chain s e st) as Hf
  end.
  unfold frame in Hf. by injection Hf as -> _ _.
Qed.

Lemma backfillLoop_ends_at_head updateStats cfg chain toBlock :
  0 < batchSize cfg ->
  forall fuel start st st',
    start ≤ toBlock ->
    backfillLoop updateStats cfg fuel chain start toBlock st = Some st' ->
    lastProcessedBlock st' = toBlock.
Proof.
  intros Hb. induction fuel as [|fuel IH]; intros start st st' Hle;
    cbn [backfillLoop]; destruct (Z.leb_spec start toBlock) as [_|]; try lia;
    try done.
  destruct (decide (start + batchSize cfg ≤ toBlock)) as [Hnext|Hlast].
  - by apply IH.
  - destruct (Z.gtb_spec (start + batchSize cfg) toBlock) as [_|]; [|lia].
    destruct fuel as [|fuel']; cbn [backfillLoop];
      destruct (Z.leb_spec (start + batchSize cfg) toBlock); try lia;
      by intros [= <-].
Qed.

(** X20. With a positive batch width and a factory configured, a backfill
    that starts at or below the chain height it reads returns (given fuel
    for every batch) with the cursor exactly at that height and the running
    flag as it was; one that starts above the height changes nothing. *)
Theorem backfill_ends_at_the_height_read
    (updateStats : Z -> Z -> UserStats -> UserStats) (cfg : Config)
    (chain : Chain) (fuel : nat) (st : State) (current : Z) :
  0 < batchSize cfg ->
  truthy_str (marketFactory cfg) = true ->
  head chain = Ok current ->
  (Z.to_nat (current - lastProcessedBlock st + 1) ≤ fuel)%nat ->
  ∃ st',
    processHistoricalEvents updateStats cfg fuel chain st = Some (st', Ok tt)
    ∧ isRunning st' = isRunning st
    ∧ (lastProcessedBlock st ≤ current -> lastProcessedBlock st' = current)
    ∧ (current < lastProcessedBlock st -> st' = st).
Proof.
  intros Hb Hf Hhead Hfuel. unfold processHistoricalEvents.
  rewrite Hf, Hhead. cbn [negb].
  destruct (backfillLoop_returns updateStats cfg chain current Hb fuel
              (lastProcessedBlock st) st Hfuel) as [st' Hloop].
  rewrite Hloop. exists st'. split; [done|]. split; [|split].
  - by apply (backfillLoop_frame_rest updateStats cfg chain current fuel
                (lastProcessedBlock st)).
  - intros Hle.
    by apply (backfillLoop_ends_at_head updateStats cfg chain current Hb fuel
                (lastProcessedBlock st) st).
  - intros Hgt. destruct fuel; cbn [backfillLoop] in Hloop;
      destruct (Z.leb_spec (lastProcessedBlock st) current); try lia;
      congruence.
Qed.

Lemma backfill_ends_at_the_height_read_witness :
  ∃ st',
    processHistoricalEvents replaceStats exampleConfig 11 exampleChain
      (fresh emptyStore) = Some (st', Ok tt)
    ∧ lastProcessedBlock st' = 10.
Proof.
  assert (Hb : 0 < batchSize exampleConfig) by (cbn; lia).
  assert (Hfuel : (Z.to_nat (10 - lastProcessedBlock (fresh emptyStore) + 1) ≤ 11)%nat)
    by (cbn; lia).
  destruct (backfill_ends_at_the_height_read replaceStats exampleConfig
              exampleChain 11 (fresh emptyStore) 10 Hb eq_refl eq_refl Hfuel)
    as (st' & Hrun & _ & Hcur & _).
  exists st'. split; [exact Hrun|]. apply Hcur. cbn. lia.
Defined.

Lemma backfillLoop_never_returns updateStats cfg chain toBlock :
  batchSize cfg ≤ 0 ->
  forall fuel start st,
    start ≤ toBlock ->
    backfillLoop updateStats cfg fuel chain start toBlock st = None.
Proof.
  intros Hb. induction fuel as [|fuel IH]; intros start st Hle;
    cbn [backfillLoop]; destruct (Z.leb_spec start toBlock); try lia; [done|].
  apply IH. lia.
Qed.

(** X21. With a batch width of zero or less the loop of the backfill never
    ends: whenever the cursor is at or below the chain height and a factory
    is configured, [processHistoricalEvents] does not return, however many
    iterations it is given. *)
Theorem backfill_needs_a_positive_width
    (updateStats : Z -> Z -> UserStats -> UserStats) (cfg : Config)
    (chain : Chain) (st : State) (current : Z) :
  batchSize cfg ≤ 0 ->
  truthy_str (marketFactory cfg) = true ->
  head chain = Ok current ->
  lastProcessedBlock st ≤ current ->
  forall fuel, processHistoricalEvents updateStats cfg fuel chain st = None.
Proof.
  intros Hb Hf Hhead Hle fuel. unfold processHistoricalEvents.
  rewrite Hf, Hhead. cbn [negb].
  by rewrite (backfillLoop_never_returns updateStats cfg chain current Hb).
Qed.

Lemma backfill_needs_a_positive_width_witness :
  processHistoricalEvents replaceStats (with_batchSize 0 exampleConfig) 1000
    exampleChain (fresh emptyStore) = None.
Proof.
  apply (backfill_needs_a_positive_width replaceStats
           (with_batchSize 0 exampleConfig) exampleChain (fresh emptyStore) 10).
  - cbn. lia.
  - reflexivity.
  - reflexivity.
  - cbn. lia.
Defined.

Lemma backfillLoop_batchRanges updateStats cfg chain toBlock fuel : forall start st,
  backfillLoop updateStats cfg fuel chain start toBlock st
  = foldl (runBatch updateStats cfg chain) st
      <$> batchRanges fuel (batchSize cfg) start toBlock.
Proof.
  induction fuel as [|fuel IH]; intros start st; cbn [backfillLoop batchRanges];
    destruct (start <=? toBlock); try done.
  rewrite IH. by destruct (batchRanges fuel _ _ _).
Qed.

Lemma batchRanges_first fuel width start toBlock rs r :
  batchRanges fuel width start toBlock = Some rs -> rs !! 0%nat = Some r ->
  r.1 = start.
Proof.
  destruct fuel; cbn [batchRanges]; destruct (start <=? toBlock);
    try discriminate; try (by intros [= <-]).
  destruct (batchRanges fuel _ _ _); [|discriminate].
  cbn. by intros [= <-] [= <-].
Qed.

Lemma batchRanges_adjacent width toBlock :
  forall fuel start rs,
    batchRanges fuel width start toBlock = Some rs ->
    forall i r r', rs !! i = Some r -> rs !! S i = Some r' ->
                   r.2 = r.1 + width ∧ r'.1 = r.2 ∧ r.2 ≤ toBlock.
Proof.
  induction fuel as [|fuel IH]; intros start rs; cbn [batchRanges];
    destruct (Z.leb_spec start toBlock) as [Hle|]; try discriminate;
    try (by intros [= <-] i r r' Hr; rewrite lookup_nil in Hr).
  destruct (batchRanges fuel width (start + width) toBlock) as [rest|] eqn:Hrest;
    [|discriminate].
  cbn. intros [= <-] [|i] r r' Hr Hr'.
  - cbn in Hr, Hr'. injection Hr as <-. cbn [fst snd].
    pose proof (batchRanges_first _ _ _ _ _ _ Hrest Hr') as Hfirst.
    assert (Hnext : start + width ≤ toBlock).
    { destruct fuel; cbn [batchRanges] in Hrest;
        destruct (Z.leb_spec (start + width) toBlock); try done;
        injection Hrest as <-; cbn in Hr'; discriminate. }
    destruct (Z.gtb_spec (start + width) toBlock); lia.
  - cbn in Hr, Hr'. by apply (IH _ _ Hrest i).
Qed.

(** X22. The backfill is the fold of its batches over the block ranges
    [start, start + width], [start + width, start + 2 width], ..., cut at
    the chain height: every range but the last spans width + 1 blocks, and
    the next range begins on the block the previous one ended on, so that
    block is queried by both. *)
Theorem backfill_batches_share_their_boundary
    (updateStats : Z -> Z -> UserStats -> UserStats) (cfg : Config)
    (chain : Chain) (fuel : nat) (start toBlock : Z) (st : State) :
  backfillLoop updateStats cfg fuel chain start toBlock st
  = foldl (runBatch updateStats cfg chain) st
      <$> batchRanges fuel (batchSize cfg) start toBlock
  ∧ (forall rs i r r',
       batchRanges fuel (batchSize cfg) start toBlock = Some rs ->
       rs !! i = Some r -> rs !! S i = Some r' ->
       r.2 = r.1 + batchSize cfg ∧ r'.1 = r.2 ∧ r.2 ≤ toBlock).
Proof.
  split; [apply backfillLoop_batchRanges|].
  intros rs i r r' Hrs. by apply (batchRanges_adjacent _ _ fuel start).
Qed.

Lemma backfill_batches_share_their_boundary_witness :
  batchRanges 11 (batchSize exampleConfig) 0 10 = Some [(0, 4); (4, 8); (8, 10)]
  ∧ (4, 8).1 = (0, 4).2.
Proof.
  split; [reflexivity|].
  destruct (backfill_batches_share_their_boundary replaceStats exampleConfig
              exampleChain 11 0 10 (fresh emptyStore)) as [_ H].
  apply (H [(0, 4); (4, 8); (8, 10)] 0%nat (0, 4) (4, 8)); reflexivity.
Defined.

End BackfillMore.

Section LifeCycleMore.
Import Store Indexer.

(** X23. The indexer's [stop()] twice is [stop()] once, and it keeps the
    store, the cursor and the watch list; the poll timer is not cleared by
    it, but a callback that fires after [stop()] does nothing, however often
    the timer fires and whatever is resumed; and [start()] on a running
    indexer changes nothing. *)
Theorem indexer_stop_and_restart
    (updateStats : Z -> Z -> UserStats -> UserStats) (cfg : Config) (st : State) :
  stop (stop st) = stop st
  ∧ db (stop st) = db st
  ∧ lastProcessedBlock (stop st) = lastProcessedBlock st
  ∧ marketContracts (stop st) = marketContracts st
  ∧ (forall chain, pollTick updateStats cfg chain (stop st) = stop st)
  ∧ (forall evs,
       (forall ev, ev ∈ evs -> ev = Fires ∨ ∃ n chain, ev = Resumes n chain) ->
       liveRun updateStats cfg evs (quiet (stop st)) = quiet (stop st))
  ∧ (forall fuel chain,
       isRunning st = true ->
       start updateStats cfg fuel chain st = Some (st, Ok tt)).
Proof.
  assert (Hstopped : isRunning (stop st) = false).
  { unfold stop. by destruct (isRunning st) eqn:Hr. }
  split; [|split; [|split; [|split; [|split; [|split]]]]].
  - unfold stop at 1. by rewrite Hstopped.
  - unfold stop. by destruct (isRunning st).
  - unfold stop. by destruct (isRunning st).
  - unfold stop. by destruct (isRunning st).
  - intros chain. unfold pollTick, pollFire. by rewrite Hstopped.
  - intros evs. induction evs as [|ev evs IH]; intros Hevs; [done|].
    unfold liveRun in *. cbn [foldl].
    assert (Hev : live updateStats cfg ev (quiet (stop st)) = quiet (stop st)).
    { destruct (Hevs ev) as [->|(n & chain & ->)]; [by left| |].
      - cbn [live quiet indexer]. unfold pollFire. by rewrite Hstopped.
      - cbn [live quiet suspended]. by rewrite lookup_nil. }
    rewrite Hev. apply IH. intros ev' Hev'. apply Hevs. by right.
  - intros fuel chain Hr. unfold start. by rewrite Hr.
Qed.

Lemma indexer_stop_and_restart_witness :
  let st := set_running true (set_cursor 3 (fresh emptyStore)) in
  start replaceStats exampleConfig 0 exampleChain st = Some (st, Ok tt).
Proof.
  intros st.
  destruct (indexer_stop_and_restart replaceStats exampleConfig st)
    as (_ & _ & _ & _ & _ & _ & H).
  apply H. reflexivity.
Defined.

(** X24. [start()] on an indexer that is not running: configured for
    ['latest'] with the height unreadable, it returns normally with the
    indexer marked running, the cursor at 0 and the store untouched
    (degraded mode); configured with a start block and a factory, with the
    height unreadable, it throws that error and leaves the indexer not
    running, the store untouched and the failure logged twice. *)
Theorem indexer_start_without_the_chain
    (updateStats : Z -> Z -> UserStats -> UserStats) (cfg : Config)
    (fuel : nat) (chain : Chain) (st : State) (e : Error) :
  isRunning st = false ->
  head chain = Throw e ->
  (startBlock cfg = None ->
   start updateStats cfg fuel chain st
   = Some (set_running true (set_cursor 0 st), Ok tt))
  ∧ (forall b, startBlock cfg = Some b -> truthy_str (marketFactory cfg) = true ->
       ∃ st', start updateStats cfg fuel chain st = Some (st', Throw e)
              ∧ isRunning st' = false
              ∧ lastProcessedBlock st' = b
              ∧ db st' = db st
              ∧ errors st' = (errors st + 2)%nat).
Proof.
  intros Hr Hhead. unfold start. rewrite Hr, Hhead. split.
  - by intros ->.
  - intros b -> Hf. cbn [lastProcessedBlock set_running set_cursor].
    rewrite orb_true_r. unfold processHistoricalEvents.
    rewrite Hf, Hhead. cbn [negb]. eexists. split; [done|]. cbn.
    repeat split. lia.
Qed.

Lemma indexer_start_without_the_chain_witness :
  let chain := {| head := Throw (External "fetch failed"); logs := [];
                  logsFault := fun _ _ _ _ => Some (External "fetch failed");
                  blockTime := fun _ => None; getPrice := fun _ _ => None;
                  chainVolume := fun _ => None;
                  chainLiquidity := fun _ => None |} in
  start replaceStats
    {| marketFactory := Some "0xF"; batchSize := 4; startBlock := None |}
    5 chain (fresh emptyStore)
  = Some (set_running true (set_cursor 0 (fresh emptyStore)), Ok tt).
Proof.
  intros chain.
  apply (proj1 (indexer_start_without_the_chain replaceStats
                  {| marketFactory := Some "0xF"; batchSize := 4;
                     startBlock := None |}
                  5 chain (fresh emptyStore) (External "fetch failed")
                  eq_refl eq_refl)).
  reflexivity.
Defined.

End LifeCycleMore.

(** ** The error handler *)

Section ErrorHandlerMore.
Import ErrorHandler.

(** X25. For an error whose [code] is a number other than zero (such as
    the duplicate-key code 11000 the handler itself tests for) the handler
    sends no response: it throws a [TypeError], because [err.code.startsWith]
    is called on a number. *)
Theorem numeric_error_code_breaks_the_handler
    (AppError : Msg -> Z -> Handled) (isDevelopment : bool) (now : string)
    (err : Err) (n : Z) :
  code err = NumCode n -> n ≠ 0 ->
  ∃ t, errorHandler AppError isDevelopment now err = Throw t.
Proof.
  intros Hcode Hn. unfold errorHandler.
  destruct (if name_is err "ValidationError" then _ else _) as [e3|t];
    [|by exists t].
  rewrite Hcode. cbn [postgresTest].
  destruct (Z.eqb_spec n 0); [done|]. by eexists.
Qed.

Lemma numeric_error_code_breaks_the_handler_witness :
  errorHandler (fun _ st => {| handledMessage := Some "Duplicate field value entered";
                               handledStatus := Some st |})
    false "2026-01-01T00:00:00.000Z"
    {| name := Some "MongoError"; code := NumCode 11000;
       message := Some "E11000 duplicate key"; stack := None; details := None;
       statusCode := None; errors := None |}
  = Throw (External "TypeError: err.code.startsWith is not a function").
Proof.
  destruct (numeric_error_code_breaks_the_handler
              (fun _ st => {| handledMessage := Some "Duplicate field value entered";
                              handledStatus := Some st |})
              false "2026-01-01T00:00:00.000Z"
              {| name := Some "MongoError"; code := NumCode 11000;
                 message := Some "E11000 duplicate key"; stack := None;
                 details := None; statusCode := None; errors := None |}
              11000 eq_refl ltac:(discriminate)) as [t Ht].
  reflexivity.
Defined.

Lemma errorHandler_response AppError isDevelopment now err resp :
  errorHandler AppError isDevelopment now err = Ok resp ->
  ∃ h isPostgres,
    postgresTest (code err) = Ok isPostgres
    ∧ status resp
      = num_or (handledStatus
                  (if isPostgres then
                     with_status 503
                       (AppError (Text "Database authentication or connection error. Please check your database credentials.") 503)
                   else if code_is err "ECONNREFUSED" || code_is err "DB_CONNECTION_ERROR"
                        then with_status 503 h
                        else h)) 500
    ∧ success resp = false
    ∧ timestamp resp = now
    ∧ responseDetails resp
      = (if isDevelopment && truthy_str (details err) then details err else None)
    ∧ responseStack resp
      = (if isDevelopment && truthy_str (stack err) then stack err else None).
Proof.
  unfold errorHandler.
  destruct (if name_is err "ValidationError" then _ else _) as [e3|t];
    [|discriminate].
  destruct (postgresTest (code err)) as [isPostgres|t]; [|discriminate].
  intros [= <-]. cbn [status success timestamp responseDetails responseStack].
  destruct (code_is err "ECONNREFUSED" || code_is err "DB_CONNECTION_ERROR").
  - eexists (AppError _ 503), isPostgres. by repeat split.
  - eexists _, isPostgres. by repeat split.
Qed.

(** X26. Outside development mode a response of the handler never has the
    fields [stack] and [details]; it always has [success: false] and the
    timestamp of the moment. The mode changes nothing else: the status and
    the error text are those of the response in development mode. In
    particular, for an error with code ['ECONNREFUSED'] or
    ['DB_CONNECTION_ERROR'] that has [details], the error text sent, in
    either mode, is the message of the [AppError] built from these
    details. *)
Theorem production_response_omits_the_debug_fields
    (AppError : Msg -> Z -> Handled) (now : string) (err : Err) (resp : Response) :
  errorHandler AppError false now err = Ok resp ->
  responseStack resp = None ∧ responseDetails resp = None
  ∧ success resp = false ∧ timestamp resp = now
  ∧ (∃ dev, errorHandler AppError true now err = Ok dev
            ∧ error dev = error resp ∧ status dev = status resp)
  ∧ (forall d, details err = Some d -> d ≠ "" ->
       code err = StrCode "ECONNREFUSED"
       ∨ code err = StrCode "DB_CONNECTION_ERROR" ->
       error resp = errorText (AppError (Text d) 503)).
Proof.
  intros Hresp.
  destruct (errorHandler_response AppError false now err resp Hresp)
    as (h & p & _ & _ & Hs & Ht & Hd & Hk).
  split; [by rewrite Hk|]. split; [by rewrite Hd|]. split; [done|].
  split; [done|]. revert Hresp. unfold errorHandler.
  destruct (if name_is err "ValidationError" then _ else _) as [e3|t];
    [|discriminate].
  destruct (postgresTest (code err)) as [isPostgres|t] eqn:Hp; [|discriminate].
  intros [= <-]. split; [by eexists|].
  intros d Hdet Hne Hcode. cbn [error]. unfold code_is.
  rewrite Hdet. cbn [truthy_str default].
  destruct (String.eqb_spec d "") as [|_]; [done|]. cbn [negb].
  destruct Hcode as [Hc|Hc]; rewrite Hc in Hp |- *; cbn in Hp;
    injection Hp as <-; reflexivity.
Qed.

Lemma production_response_omits_the_debug_fields_witness :
  let AppError := fun m st =>
    {| handledMessage := match m with Text t => Some t | Lines _ => None end;
       handledStatus := Some st |} in
  let err := {| name := Some "Error"; code := StrCode "ECONNREFUSED";
                message := Some "connect failed"; stack := Some "at f (a.js:1)";
                details := Some "connect ECONNREFUSED 10.0.0.5:5432 as app";
                statusCode := None; errors := None |} in
  ∃ resp,
    errorHandler AppError false "t" err = Ok resp
    ∧ responseStack resp = None ∧ responseDetails resp = None
    ∧ error resp = "connect ECONNREFUSED 10.0.0.5:5432 as app".
Proof.
  intros AppError err. eexists. split; [reflexivity|].
  pose proof (production_response_omits_the_debug_fields AppError "t" err _
                eq_refl) as (H1 & H2 & _ & _ & _ & H3).
  split; [exact H1|]. split; [exact H2|].
  apply (H3 "connect ECONNREFUSED 10.0.0.5:5432 as app").
  - reflexivity.
  - discriminate.
  - by left.
Defined.

(** X27. An error whose [code] is ['ECONNREFUSED'], ['DB_CONNECTION_ERROR'],
    ['3D000'] or a string beginning with ['28'] is answered with status 503,
    whatever its name and its own status code, and whatever [AppError]
    does. *)
Theorem database_errors_answer_503
    (AppError : Msg -> Z -> Handled) (isDevelopment : bool) (now : string)
    (err : Err) (resp : Response) (c : string) :
  code err = StrCode c ->
  c = "ECONNREFUSED" ∨ c = "DB_CONNECTION_ERROR" ∨ c = "3D000"
  ∨ String.prefix "28" c = true ->
  errorHandler AppError isDevelopment now err = Ok resp ->
  status resp = 503.
Proof.
  intros Hcode Hc Hresp.
  destruct (errorHandler_response AppError isDevelopment now err resp Hresp)
    as (h & p & Hp & -> & _).
  rewrite Hcode in Hp. cbn [postgresTest] in Hp. injection Hp as <-.
  unfold code_is. rewrite Hcode.
  destruct Hc as [->|[->|[->|Hpre]]]; try reflexivity.
  rewrite Hpre. destruct (String.eqb_spec c "") as [->|_]; [done|].
  reflexivity.
Qed.

Lemma database_errors_answer_503_witness :
  let err := {| name := Some "JsonWebTokenError"; code := StrCode "28P01";
                message := Some "password authentication failed";
                stack := None; details := None; statusCode := Some 401;
                errors := None |} in
  ∃ resp,
    errorHandler (fun _ st => {| handledMessage := None; handledStatus := Some st |})
      true "t" err = Ok resp
    ∧ status resp = 503.
Proof.
  intros err. eexists. split; [reflexivity|].
  apply (database_errors_answer_503
           (fun _ st => {| handledMessage := None; handledStatus := Some st |})
           true "t" err _ "28P01" eq_refl).
  - right; right; right. reflexivity.
  - reflexivity.
Defined.

End ErrorHandlerMore.

(** ** The migration runner *)

Section MigrationsMore.
Import Migrations.

Lemma mark_adds (n : string) (rows : list string) (k : string) :
  k ∈ markMigrationExecuted n rows ↔ k ∈ rows ∨ k = n.
Proof.
  unfold markMigrationExecuted. destruct (decide (n ∈ rows)) as [Hin|Hin].
  - split; [by left|]. by intros [?| ->].
  - rewrite elem_of_app, list_elem_of_singleton. done.
Qed.

Lemma migrate_keeps DB (ms : list (Migration DB)) :
  ∀ outage st st' r, migrate DB outage ms st = (st', r) ->
    ∀ n, n ∈ executed st -> n ∈ executed st'.
Proof.
  induction ms as [|m rest IH]; intros outage st st' r Hrun n Hn;
    cbn [migrate] in Hrun.
  - by injection Hrun as <- _.
  - destruct (outage 0%nat); [by injection Hrun as <- _|].
    destruct (isMigrationExecuted DB (name m) st); [by eapply IH|].
    destruct (up m (db st)) as [d [u|e]]; [|by injection Hrun as <- _].
    destruct (outage 1%nat); [by injection Hrun as <- _|].
    eapply IH; [exact Hrun|]. cbn. apply mark_adds. by left.
Qed.

Lemma migrate_applies_all DB (ms : list (Migration DB)) :
  ∀ outage st st' u, migrate DB outage ms st = (st', Ok u) ->
    ∀ m, m ∈ ms -> name m ∈ executed st'.
Proof.
  induction ms as [|m rest IH]; intros outage st st' u Hrun m' Hm'.
  - by apply elem_of_nil in Hm'.
  - cbn [migrate] in Hrun. destruct (outage 0%nat); [discriminate|].
    unfold isMigrationExecuted in Hrun.
    destruct (bool_decide_reflect (name m ∈ executed st)) as [Hin|Hin].
    + apply elem_of_cons in Hm' as [->|Hm']; [|by eapply IH].
      by eapply migrate_keeps.
    + destruct (up m (db st)) as [d [u'|e]]; [|discriminate].
      destruct (outage 1%nat); [discriminate|].
      apply elem_of_cons in Hm' as [->|Hm']; [|by eapply IH].
      eapply migrate_keeps; [exact Hrun|]. cbn. apply mark_adds. by right.
Qed.

(** With every migration recorded the loop changes nothing, and it returns
    unless one of its [SELECT]s fails. *)
Lemma migrate_nothing_pending DB (ms : list (Migration DB)) st :
  (∀ m, m ∈ ms -> name m ∈ executed st) ->
  ∀ outage,
    (migrate DB outage ms st).1 = st
    ∧ ((∀ i, outage i = None) -> migrate DB outage ms st = (st, Ok tt)).
Proof.
  induction ms as [|m rest IH]; intros Hall outage; [done|].
  cbn [migrate]. unfold isMigrationExecuted.
  rewrite bool_decide_eq_true_2 by (apply Hall; by left).
  destruct (IH (fun m' Hm' => Hall m' (list_elem_of_further _ _ _ Hm'))
              (later 1 outage)) as [H1 H2].
  destruct (outage 0%nat) as [e|] eqn:H0.
  - split; [done|]. intros Hn. by rewrite Hn in H0.
  - split; [done|]. intros Hn. apply H2. intros i. apply Hn.
Qed.

Lemma find_by_name DB (ms : list (Migration DB)) m :
  NoDup (name <$> ms) -> m ∈ ms ->
  List.find (fun m' => bool_decide (name m' = name m)) ms = Some m.
Proof.
  induction ms as [|m0 rest IH]; intros Hnd Hm.
  - by apply elem_of_nil in Hm.
  - rewrite fmap_cons in Hnd. apply NoDup_cons in Hnd as [Hnot Hnd].
    cbn [List.find]. apply elem_of_cons in Hm as [->|Hm].
    + by rewrite bool_decide_eq_true_2.
    + rewrite bool_decide_eq_false_2; [by apply IH|].
      intros Heq. apply Hnot. rewrite Heq.
      apply list_elem_of_fmap. by exists m.
Qed.

Lemma migrate_one_pending DB (ms : list (Migration DB)) m d :
  ∀ outage st,
    (∀ i, outage i = None) ->
    NoDup (name <$> ms) -> m ∈ ms ->
    (∀ m', m' ∈ ms -> name m' ≠ name m -> name m' ∈ executed st) ->
    name m ∉ executed st ->
    up m (db st) = (d, Ok tt) ->
    migrate DB outage ms st
    = ({| db := d; executed := executed st ++ [name m] |}, Ok tt).
Proof.
  induction ms as [|m0 rest IH]; intros outage st Hno Hnd Hm Hrest Hnot Hup.
  - by apply elem_of_nil in Hm.
  - rewrite fmap_cons in Hnd. apply NoDup_cons in Hnd as [Hfresh Hnd].
    cbn [migrate]. rewrite !Hno. unfold isMigrationExecuted.
    destruct (decide (name m0 = name m)) as [Heq|Hne].
    + assert (m0 = m) as ->.
      { apply elem_of_cons in Hm as [->|Hm]; [done|].
        exfalso. apply Hfresh. rewrite Heq.
        apply list_elem_of_fmap. by exists m. }
      rewrite bool_decide_eq_false_2 by done. rewrite Hup.
      unfold markMigrationExecuted.
      destruct (decide (name m ∈ executed st)); [done|].
      apply migrate_nothing_pending; [|intros i; apply Hno]. cbn.
      intros m' Hm'. apply elem_of_app.
      destruct (decide (name m' = name m)) as [->|Hne'].
      * right. by apply list_elem_of_singleton.
      * left. apply Hrest; [by right|done].
    + rewrite bool_decide_eq_true_2 by (apply Hrest; [by left|done]).
      apply elem_of_cons in Hm as [->|Hm]; [done|].
      apply IH; try done.
      * intros i. apply Hno.
      * intros m' Hm' Hne'. apply Hrest; [by right|done].
Qed.

(** X28. A run of the migrations that completes leaves nothing to do:
    every migration is recorded, so a second run from the state it reached
    calls no [up()] and changes neither the database nor the tracking
    table, whether or not it gets to its end; and it does return when none
    of its statements on the tracking table fails. *)
Theorem second_migration_run_changes_nothing
    (DB : Type) (ms : list (Migration DB)) (outage : Outage)
    (st st' : State DB) :
  runMigrations DB outage ms st = (st', Ok tt) ->
  (∀ m, m ∈ ms -> isMigrationExecuted DB (name m) st' = true)
  ∧ (∀ outage', (runMigrations DB outage' ms st').1 = st')
  ∧ runMigrations DB none ms st' = (st', Ok tt).
Proof.
  intros Hrun. unfold runMigrations in Hrun.
  destruct (outage 0%nat); [discriminate|].
  assert (Hall : ∀ m, m ∈ ms -> name m ∈ executed st')
    by (by eapply migrate_applies_all).
  split; [|split].
  - intros m Hm. unfold isMigrationExecuted.
    apply bool_decide_eq_true_2. by apply Hall.
  - intros outage'. unfold runMigrations. destruct (outage' 0%nat); [done|].
    by apply migrate_nothing_pending.
  - unfold runMigrations. cbn [none]. by apply migrate_nothing_pending.
Qed.

Lemma second_migration_run_changes_nothing_witness :
  let ms := [ {| name := "001_create_markets";
                 up := fun d : list string => ("markets" :: d, Ok tt);
                 down := fun d => (d, Ok tt) |};
              {| name := "002_create_users";
                 up := fun d : list string => ("users" :: d, Ok tt);
                 down := fun d => (d, Ok tt) |} ] in
  let st' := {| db := ["users"; "markets"];
                executed := ["001_create_markets"; "002_create_users"] |} in
  runMigrations (list string) none ms {| db := []; executed := [] |}
  = (st', Ok tt)
  ∧ runMigrations (list string) none ms st' = (st', Ok tt).
Proof.
  intros ms st'. split; [reflexivity|].
  apply (second_migration_run_changes_nothing (list string) ms none
           {| db := []; executed := [] |} st' eq_refl).
Defined.

Lemma migrate_throws DB (ms : list (Migration DB)) (e : Error) :
  ∀ outage st st',
    migrate DB outage ms st = (st', Throw e) ->
    ∃ before m after,
      ms = before ++ m :: after
      ∧ (∀ m', m' ∈ before -> name m' ∈ executed st')
      ∧ (∀ n, n ∈ executed st' -> n ∈ executed st ∨ n ∈ name <$> before)
      ∧ ((∃ i, outage i = Some e)
         ∨ ((name m ∉ executed st') ∧ ∃ d, up m d = (db st', Throw e))
         ∨ ((name m ∉ executed st') ∧ (∃ i, outage i = Some e)
            ∧ ∃ d, up m d = (db st', Ok tt))).
Proof.
  induction ms as [|m rest IH]; intros outage st st' Hrun; [discriminate|].
  cbn [migrate] in Hrun.
  destruct (outage 0%nat) as [e0|] eqn:H0.
  { injection Hrun as <- <-. exists [], m, rest. split; [done|].
    split; [by intros m' ?%elem_of_nil|]. split; [by left|].
    left. by exists 0%nat. }
  unfold isMigrationExecuted in Hrun.
  destruct (bool_decide_reflect (name m ∈ executed st)) as [Hin|Hin].
  - destruct (IH _ _ _ Hrun) as (before & m1 & after & -> & Hbefore & Hnew & Hwhy).
    exists (m :: before), m1, after. split; [done|]. split; [|split].
    + intros m' [->|Hm']%elem_of_cons; [|by apply Hbefore].
      by eapply migrate_keeps.
    + intros n Hn. destruct (Hnew n Hn) as [?|?]; [by left|].
      right. rewrite fmap_cons. by right.
    + destruct Hwhy as [[i Hi]|[?|(? & [i Hi] & ?)]].
      * left. by exists (1 + i)%nat.
      * by right; left.
      * right; right. split; [done|]. split; [by exists (1 + i)%nat|done].
  - destruct (up m (db st)) as [d [[]|e']] eqn:Hup.
    + destruct (outage 1%nat) as [e1|] eqn:H1.
      { injection Hrun as <- <-. exists [], m, rest. split; [done|].
        split; [by intros m' ?%elem_of_nil|]. split; [by left|].
        right; right. split; [done|]. split; [by exists 1%nat|].
        by exists (db st). }
      destruct (IH _ _ _ Hrun) as (before & m1 & after & -> & Hbefore & Hnew & Hwhy).
      exists (m :: before), m1, after. split; [done|]. split; [|split].
      * intros m' [->|Hm']%elem_of_cons; [|by apply Hbefore].
        eapply migrate_keeps; [exact Hrun|]. cbn. apply mark_adds. by right.
      * intros n Hn. destruct (Hnew n Hn) as [Hold|?].
        -- cbn in Hold. apply mark_adds in Hold as [?| ->]; [by left|].
           right. rewrite fmap_cons. by left.
        -- right. rewrite fmap_cons. by right.
      * destruct Hwhy as [[i Hi]|[?|(? & [i Hi] & ?)]].
        -- left. by exists (2 + i)%nat.
        -- by right; left.
        -- right; right. split; [done|]. split; [by exists (2 + i)%nat|done].
    + injection Hrun as <- <-. exists [], m, rest. split; [done|].
      split; [by intros m' ?%elem_of_nil|]. split; [by left|].
      right; left. split; [done|]. by exists (db st).
Qed.

(** X29. When a run of the migrations throws, either the statement that
    creates the tracking table failed and nothing was changed, or the run
    stopped at one migration of the list: every migration before it is in
    the tracking table and no name beyond those before it was added. At
    that migration one of three things happened: a statement on the
    tracking table failed with the error thrown (the check of the
    migration, in which case the migration may well be recorded); or its
    [up()] threw the error and it is not recorded; or its [up()] returned,
    the statement recording it failed, and it is not recorded although it
    was applied. *)
Theorem failed_migration_run
    (DB : Type) (ms : list (Migration DB)) (outage : Outage)
    (st st' : State DB) (e : Error) :
  runMigrations DB outage ms st = (st', Throw e) ->
  (outage 0%nat = Some e ∧ st' = st)
  ∨ ∃ before m after,
      ms = before ++ m :: after
      ∧ (∀ m', m' ∈ before -> name m' ∈ executed st')
      ∧ (∀ n, n ∈ executed st' -> n ∈ executed st ∨ n ∈ name <$> before)
      ∧ ((∃ i, outage i = Some e)
         ∨ ((name m ∉ executed st') ∧ ∃ d, up m d = (db st', Throw e))
         ∨ ((name m ∉ executed st') ∧ (∃ i, outage i = Some e)
            ∧ ∃ d, up m d = (db st', Ok tt))).
Proof.
  unfold runMigrations. destruct (outage 0%nat) as [e0|] eqn:H0.
  - intros [= <- <-]. by left.
  - intros Hrun. right.
    destruct (migrate_throws DB ms e _ _ _ Hrun)
      as (before & m & after & Hms & Hbefore & Hnew & Hwhy).
    exists before, m, after. split; [done|]. split; [done|]. split; [done|].
    destruct Hwhy as [[i Hi]|[?|(? & [i Hi] & ?)]].
    + left. by exists (1 + i)%nat.
    + by right; left.
    + right; right. split; [done|]. split; [by exists (1 + i)%nat|done].
Qed.

Lemma failed_migration_run_witness :
  let ms := [ {| name := "001_create_markets";
                 up := fun d : list string => ("markets" :: d, Ok tt);
                 down := fun d => (d, Ok tt) |};
              {| name := "002_create_users";
                 up := fun d : list string =>
                         (d, Throw (External "relation exists"));
                 down := fun d => (d, Ok tt) |};
              {| name := "003_create_comments";
                 up := fun d : list string => ("comments" :: d, Ok tt);
                 down := fun d => (d, Ok tt) |} ] in
  ∃ st',
    runMigrations (list string) none ms {| db := []; executed := [] |}
    = (st', Throw (External "relation exists"))
    ∧ executed st' = ["001_create_markets"]
    ∧ ∃ before m after,
        ms = before ++ m :: after ∧ name m ∉ executed st'.
Proof.
  intros ms. eexists. split; [reflexivity|]. split; [reflexivity|].
  destruct (failed_migration_run (list string) ms none
              {| db := []; executed := [] |} _ _ eq_refl)
    as [[Hcreate _]|(before & m & after & Hms & _ & _ & Hwhy)];
    [discriminate Hcreate|].
  exists before, m, after. split; [exact Hms|].
  destruct Hwhy as [[i Hi]|[[Hnot _]|[Hnot _]]];
    [discriminate Hi|exact Hnot|exact Hnot].
Defined.

(** A run in which every [up()] succeeds but the statement recording the
    second migration fails: the migration is applied and not recorded. *)
Lemma migration_applied_but_not_recorded :
  let ms := [ {| name := "001_create_markets";
                 up := fun d : list string => ("markets" :: d, Ok tt);
                 down := fun d => (d, Ok tt) |};
              {| name := "002_create_users";
                 up := fun d : list string => ("users" :: d, Ok tt);
                 down := fun d => (d, Ok tt) |} ] in
  let outage : Outage :=
    fun i => if (i =? 4)%nat then Some (External "connection lost") else None in
  runMigrations (list string) outage ms {| db := []; executed := [] |}
  = ({| db := ["users"; "markets"]; executed := ["001_create_markets"] |},
     Throw (External "connection lost")).
Proof. reflexivity. Qed.

(** X30. Rolling back and running again is a round trip on the tracking
    table.  When every migration of the list is applied, names are unique,
    and the latest row names a migration of the list whose [down()]
    succeeds, the rollback removes exactly that row; a run after it calls
    [up()] of that migration alone and puts the row back at the end. (No
    statement on the tracking table fails.) *)
Theorem rollback_then_run_restores_the_table
    (DB : Type) (ms : list (Migration DB)) (st : State DB)
    (earlier : list string) (m : Migration DB) (d d' : DB) :
  NoDup (name <$> ms) ->
  (∀ m', m' ∈ ms -> name m' ∈ executed st) ->
  executed st = earlier ++ [name m] ->
  name m ∉ earlier ->
  m ∈ ms ->
  down m (db st) = (d, Ok tt) ->
  up m d = (d', Ok tt) ->
  rollbackLastMigration DB none ms st
  = ({| db := d; executed := earlier |}, Ok tt)
  ∧ runMigrations DB none ms {| db := d; executed := earlier |}
    = ({| db := d'; executed := executed st |}, Ok tt).
Proof.
  intros Hnd Hall Hexec Hfresh Hm Hdown Hup.
  split.
  - unfold rollbackLastMigration. cbn [none]. rewrite Hexec, last_snoc.
    rewrite find_by_name by done. rewrite Hdown.
    do 2 f_equal. rewrite filter_app, filter_cons_False, filter_nil by naive_solver.
    rewrite app_nil_r. clear Hexec. induction earlier as [|n0 l IH]; [done|].
    apply not_elem_of_cons in Hfresh as [Hne Hfresh].
    rewrite filter_cons_True by done. f_equal. by apply IH.
  - rewrite Hexec. unfold runMigrations. cbn [none].
    apply (migrate_one_pending DB ms m d' _
             {| db := d; executed := earlier |}); try done.
    cbn. intros m' Hm' Hne.
    pose proof (Hall m' Hm') as Hin. rewrite Hexec in Hin.
    apply elem_of_app in Hin as [?|Hin]; [done|].
    by apply list_elem_of_singleton in Hin.
Qed.

Lemma rollback_then_run_restores_the_table_witness :
  let m1 := {| name := "001_create_markets";
               up := fun d : list string => ("markets" :: d, Ok tt);
               down := fun d => (filter (fun t => t ≠ "markets") d, Ok tt) |} in
  let m2 := {| name := "002_create_users";
               up := fun d : list string => ("users" :: d, Ok tt);
               down := fun d => (filter (fun t => t ≠ "users") d, Ok tt) |} in
  let st := {| db := ["users"; "markets"];
               executed := ["001_create_markets"; "002_create_users"] |} in
  rollbackLastMigration (list string) none [m1; m2] st
  = ({| db := ["markets"]; executed := ["001_create_markets"] |}, Ok tt)
  ∧ runMigrations (list string) none [m1; m2]
      {| db := ["markets"]; executed := ["001_create_markets"] |}
    = (st, Ok tt).
Proof.
  intros m1 m2 st.
  apply (rollback_then_run_restores_the_table (list string) [m1; m2] st
           ["001_create_markets"] m2 ["markets"] ["users"; "markets"]).
  - apply (bool_decide_unpack _). reflexivity.
  - intros m' Hm'. apply elem_of_cons in Hm' as [->|Hm'].
    + apply (bool_decide_unpack _). reflexivity.
    + apply list_elem_of_singleton in Hm' as ->.
      apply (bool_decide_unpack _). reflexivity.
  - reflexivity.
  - cbn. intros Hin. apply list_elem_of_singleton in Hin. discriminate.
  - right. by left.
  - reflexivity.
  - reflexivity.
Defined.

End MigrationsMore.
